(** * The memory sub-allocator of pkg/vk/memory.go

    A shallow embedding of [MemoryPool], [MemoryAllocator] and the memory-type
    resolution of the vulkan-go wrapper, with the properties of their block
    bookkeeping.

    Conventions.
    - [vulkan.DeviceSize] is an unsigned 64-bit integer: a [Z] whose arithmetic
      is reduced by [wrap64]; [uint32] values are reduced by [wrap32].
    - Go slices are lists; [append(s[:i], s[i+1:]...)] is [delete i s].
    - Pointers are addresses ([Z]); [nil] is [None]. Objects reached through
      pointers live in a store ([gmap]) so that sharing is kept.
    - [fmt.Errorf] values are the constructors of [error], one per message. *)

From Stdlib Require Import ZArith Lia List.
From stdpp Require Import base numbers list gmap fin_maps.

Local Open Scope Z_scope.

(** ** Machine integers *)

Definition wrap64 (x : Z) : Z := x mod 2 ^ 64.
Definition wrap32 (x : Z) : Z := x mod 2 ^ 32.

Definition is_u64 (x : Z) : Prop := 0 <= x < 2 ^ 64.

(** Go's [x &^ y] (bit clear) on unsigned integers. *)
Definition and_not (x y : Z) : Z := Z.ldiff x y.

(** ** Data model *)

Definition MemoryPropertyFlags := Z.

Definition MemoryPropertyDeviceLocalBit : MemoryPropertyFlags := 1.
Definition MemoryPropertyHostVisibleBit : MemoryPropertyFlags := 2.
Definition MemoryPropertyHostCoherentBit : MemoryPropertyFlags := 4.
Definition MemoryPropertyHostCachedBit : MemoryPropertyFlags := 8.
Definition MemoryPropertyLazilyAllocatedBit : MemoryPropertyFlags := 16.

(** Addresses of heap objects ([*MemoryPool], [*MemoryAllocation]). *)
Abbreviation addr := Z.

Record MemoryBlock := mkBlock {
  Offset : Z;
  Size : Z;
  InUse : bool
}.

Record MemoryPool := mkPool {
  pMemory : Z;
  pSize : Z;
  pTypeIndex : Z;
  pProperties : MemoryPropertyFlags;
  BlockSize : Z;
  FreeBlocks : list MemoryBlock;
  UsedBlocks : list MemoryBlock
}.

Record MemoryAllocation := mkAllocation {
  aMemory : Z;
  aSize : Z;
  aTypeIndex : Z;
  aProperties : MemoryPropertyFlags;
  Mapped : option Z;
  RefCount : Z;
  Pool : option addr
}.

(** The messages of the [fmt.Errorf] calls in memory.go. *)
Inductive error :=
  | ErrMaxAllocations (max : Z)      (* "maximum number of allocations (%d) reached" *)
  | ErrNoSuitableMemoryType          (* "no suitable memory type found" *)
  | ErrFindMemoryType (cause : error)(* "failed to find suitable memory type: %w" *)
  | ErrCreatePool (cause : error)    (* "failed to create memory pool: %w" *)
  | ErrInsufficientSpace             (* "insufficient space in pool" *)
  | ErrNotFoundInPool                (* "allocation not found in pool" *)
  | ErrNilAllocation                 (* "cannot free nil allocation" *)
  | ErrNotFoundInAllocator           (* "allocation not found in allocator" *)
  | ErrNotHostVisible.               (* "memory type does not support host mapping" *)

(** Outcome of a call: a value, a returned [error], or a run-time panic
    (an invalid pointer or an index out of range). *)
Inductive res (A : Type) :=
  | Ok (a : A)
  | Err (e : error)
  | Panic.
Arguments Ok {A} a.
Arguments Err {A} e.
Arguments Panic {A}.

(** ** MemoryPool *)

(** The loop [for i, block := range mp.FreeBlocks] of [Allocate], up to its
    first iteration with [block.Size >= alignedSize]. *)
Fixpoint first_fit (alignedSize : Z) (blocks : list MemoryBlock) (i : nat)
  : option (nat * MemoryBlock) :=
  match blocks with
  | [] => None
  | block :: rest =>
      if alignedSize <=? Size block then Some (i, block)
      else first_fit alignedSize rest (S i)
  end.

(** [if i < len(s)-1 { s[i] = s[len(s)-1] }; s = s[:len(s)-1]]. *)
Definition swap_remove (i : nat) (s : list MemoryBlock) : list MemoryBlock :=
  let n := length s in
  let s' := if (i <? n - 1)%nat
            then match s !! (n - 1)%nat with
                 | Some last => <[i := last]> s
                 | None => s
                 end
            else s in
  take (n - 1) s'.

Definition alignedSize_of (mp : MemoryPool) (size : Z) : Z :=
  and_not (wrap64 (wrap64 (size + BlockSize mp) - 1)) (wrap64 (BlockSize mp - 1)).

(** [func (mp *MemoryPool) Allocate(size)]; [self] is the receiver's address,
    stored in the allocation's [Pool] field. *)
Definition MemoryPool_Allocate (self : addr) (mp : MemoryPool) (size : Z)
  : MemoryPool * res MemoryAllocation :=
  let alignedSize := alignedSize_of mp size in
  match first_fit alignedSize (FreeBlocks mp) 0 with
  | Some (i, block) =>
      let free1 :=
        if alignedSize <? Size block
        then FreeBlocks mp ++
             [mkBlock (wrap64 (Offset block + alignedSize))
                      (wrap64 (Size block - alignedSize)) false]
        else FreeBlocks mp in
      let usedBlock := mkBlock (Offset block) alignedSize true in
      let used1 := UsedBlocks mp ++ [usedBlock] in
      let free2 := swap_remove i free1 in
      (mkPool (pMemory mp) (pSize mp) (pTypeIndex mp) (pProperties mp)
              (BlockSize mp) free2 used1,
       Ok (mkAllocation (pMemory mp) alignedSize (pTypeIndex mp)
                        (pProperties mp) None 1 (Some self)))
  | None => (mp, Err ErrInsufficientSpace)
  end.

(** The loop of [Free]: the first used block with [block.Offset == 0]. *)
Fixpoint first_offset_zero (blocks : list MemoryBlock) (i : nat)
  : option (nat * MemoryBlock) :=
  match blocks with
  | [] => None
  | block :: rest =>
      if Offset block =? 0 then Some (i, block)
      else first_offset_zero rest (S i)
  end.

(** [func (mp *MemoryPool) Free(allocation)]. The body never reads
    [allocation]. *)
Definition MemoryPool_Free (mp : MemoryPool) (allocation : option MemoryAllocation)
  : MemoryPool * res unit :=
  match first_offset_zero (UsedBlocks mp) 0 with
  | Some (i, freedBlock) =>
      (mkPool (pMemory mp) (pSize mp) (pTypeIndex mp) (pProperties mp)
              (BlockSize mp)
              (FreeBlocks mp ++ [mkBlock (Offset freedBlock) (Size freedBlock) false])
              (delete i (UsedBlocks mp)),
       Ok tt)
  | None => (mp, Err ErrNotFoundInPool)
  end.

Record PoolStats := mkPoolStats {
  TotalSize : Z;
  UsedSize : Z;
  FreeSize : Z;
  BlockCount : Z;
  sTypeIndex : Z;
  sProperties : MemoryPropertyFlags
}.

(** [usedSize += block.Size] over [mp.UsedBlocks]. *)
Definition used_size_loop (blocks : list MemoryBlock) : Z :=
  fold_left (fun usedSize block => wrap64 (usedSize + Size block)) blocks 0.

Definition MemoryPool_GetStats (mp : MemoryPool) : PoolStats :=
  let usedSize := used_size_loop (UsedBlocks mp) in
  mkPoolStats (pSize mp) usedSize (wrap64 (pSize mp - usedSize))
              (wrap32 (Z.of_nat (length (UsedBlocks mp) + length (FreeBlocks mp))))
              (pTypeIndex mp) (pProperties mp).

(** ** The device's memory types *)

Record MemoryType := mkMemoryType {
  PropertyFlags : MemoryPropertyFlags;
  HeapIndex : Z
}.

(** [PhysicalDeviceMemoryProperties]. The array [MemoryTypes [32]MemoryType]
    is given by its leading elements; the remaining ones hold Go's zero
    value, and elements past index 31 do not exist. *)
Record PhysicalDeviceMemoryProperties := mkMemProps {
  MemoryTypeCount : Z;
  MemoryTypes : list MemoryType
}.

Definition zero_MemoryType : MemoryType := mkMemoryType 0 0.

(** [memProps.MemoryTypes[i]] for [i : uint32]: panics past the array. *)
Definition MemoryTypes_at (memProps : PhysicalDeviceMemoryProperties) (i : Z)
  : res MemoryType :=
  if i <? 32 then Ok (nth (Z.to_nat i) (MemoryTypes memProps) zero_MemoryType)
  else Panic.

(** [MemoryUsage] is a [uint32] with the constants of the [iota] block. *)
Definition MemoryUsage := Z.
Definition MemoryUsageUnknown : MemoryUsage := 0.
Definition MemoryUsageGPUOnly : MemoryUsage := 1.
Definition MemoryUsageCPUOnly : MemoryUsage := 2.
Definition MemoryUsageCPUToGPU : MemoryUsage := 3.
Definition MemoryUsageGPUToCPU : MemoryUsage := 4.
Definition MemoryUsageCPUCopy : MemoryUsage := 5.
Definition MemoryUsageGPULazilyAllocated : MemoryUsage := 6.

Record MemoryRequirements := mkRequirements {
  rSize : Z;
  Alignment : Z;
  MemoryTypeBits : Z
}.

Record AllocationCreateInfo := mkCreateInfo {
  Usage : MemoryUsage;
  RequiredFlags : MemoryPropertyFlags;
  PreferredFlags : MemoryPropertyFlags;
  ciPool : option addr
}.

(** The [switch createInfo.Usage] of [findMemoryType]: the pair of
    (requiredFlags, preferredFlags) after it. *)
Definition usage_flags (createInfo : AllocationCreateInfo)
  : MemoryPropertyFlags * MemoryPropertyFlags :=
  let requiredFlags := RequiredFlags createInfo in
  let preferredFlags := PreferredFlags createInfo in
  let usage := Usage createInfo in
  if usage =? MemoryUsageGPUOnly then
    (Z.lor requiredFlags MemoryPropertyDeviceLocalBit, preferredFlags)
  else if usage =? MemoryUsageCPUOnly then
    (Z.lor requiredFlags (Z.lor MemoryPropertyHostVisibleBit MemoryPropertyHostCoherentBit),
     preferredFlags)
  else if usage =? MemoryUsageCPUToGPU then
    (Z.lor requiredFlags MemoryPropertyHostVisibleBit,
     Z.lor preferredFlags MemoryPropertyDeviceLocalBit)
  else if usage =? MemoryUsageGPUToCPU then
    (Z.lor requiredFlags MemoryPropertyHostVisibleBit,
     Z.lor preferredFlags MemoryPropertyHostCachedBit)
  else if usage =? MemoryUsageCPUCopy then
    (Z.lor requiredFlags (Z.lor MemoryPropertyHostVisibleBit MemoryPropertyHostCoherentBit),
     preferredFlags)
  else if usage =? MemoryUsageGPULazilyAllocated then
    (Z.lor requiredFlags MemoryPropertyDeviceLocalBit,
     Z.lor preferredFlags MemoryPropertyLazilyAllocatedBit)
  else (requiredFlags, preferredFlags).

(** [for i := uint32(0); i < count; i++ { if test(i) { return i } }], run
    for [n] iterations from [i]. *)
Fixpoint scan_types (test : Z -> res bool) (n : nat) (i : Z) : res (option Z) :=
  match n with
  | O => Ok None
  | S n' =>
      match test i with
      | Ok true => Ok (Some i)
      | Ok false => scan_types test n' (i + 1)
      | Err e => Err e
      | Panic => Panic
      end
  end.

(** [(requirements.MemoryTypeBits & (1<<i)) != 0], the shift being a
    [uint32] shift. *)
Definition type_bit_set (bits i : Z) : bool :=
  negb (Z.land bits (wrap32 (Z.shiftl 1 i)) =? 0).

Definition has_flags (flags wanted : MemoryPropertyFlags) : bool :=
  Z.land flags wanted =? wanted.

Section allocator.

Variable memProps : PhysicalDeviceMemoryProperties.

Definition first_pass_test (bits requiredFlags preferredFlags : Z) (i : Z) : res bool :=
  if type_bit_set bits i then
    match MemoryTypes_at memProps i with
    | Ok memType =>
        Ok (has_flags (PropertyFlags memType) requiredFlags &&
            has_flags (PropertyFlags memType) preferredFlags)
    | Err e => Err e
    | Panic => Panic
    end
  else Ok false.

Definition second_pass_test (bits requiredFlags : Z) (i : Z) : res bool :=
  if type_bit_set bits i then
    match MemoryTypes_at memProps i with
    | Ok memType => Ok (has_flags (PropertyFlags memType) requiredFlags)
    | Err e => Err e
    | Panic => Panic
    end
  else Ok false.

(** [func (ma *MemoryAllocator) findMemoryType(requirements, createInfo)]. *)
Definition findMemoryType (requirements : MemoryRequirements)
    (createInfo : AllocationCreateInfo) : res Z :=
  let '(requiredFlags, preferredFlags) := usage_flags createInfo in
  let count := Z.to_nat (MemoryTypeCount memProps) in
  let bits := MemoryTypeBits requirements in
  match scan_types (first_pass_test bits requiredFlags preferredFlags) count 0 with
  | Ok (Some i) => Ok i
  | Ok None =>
      match scan_types (second_pass_test bits requiredFlags) count 0 with
      | Ok (Some i) => Ok i
      | Ok None => Err ErrNoSuitableMemoryType
      | Err e => Err e
      | Panic => Panic
      end
  | Err e => Err e
  | Panic => Panic
  end.

(** [func (ma *MemoryAllocator) allocateDirect(size, typeIndex)]. *)
Definition allocateDirect (size typeIndex : Z) : res MemoryAllocation :=
  match MemoryTypes_at memProps typeIndex with
  | Ok memType =>
      Ok (mkAllocation size size typeIndex (PropertyFlags memType) None 1 None)
  | Err e => Err e
  | Panic => Panic
  end.

(** [func (ma *MemoryAllocator) createPool(typeIndex, size)]. *)
Definition createPool (typeIndex size : Z) : res MemoryPool :=
  match MemoryTypes_at memProps typeIndex with
  | Ok memType =>
      Ok (mkPool size size typeIndex (PropertyFlags memType) (64 * 1024)
                 [mkBlock 0 size false] [])
  | Err e => Err e
  | Panic => Panic
  end.

(** *** The store and the allocator object *)

(** [MemoryAllocator]: [allocations] maps the integer made from an
    allocation's address to that address; [pools] holds pool addresses. *)
Record MemoryAllocator := mkAllocator {
  allocations : gmap Z addr;
  pools : list addr;
  totalAllocated : Z;
  maxAllocations : Z
}.

(** The heap seen by the allocator: the [MemoryAllocation] and [MemoryPool]
    objects by address, the next address [new] hands out, and the allocator
    itself. *)
Record World := mkWorld {
  allocs : gmap addr MemoryAllocation;
  poolsto : gmap addr MemoryPool;
  next_addr : addr;
  ma : MemoryAllocator
}.

(** [func NewMemoryAllocator(device)]. *)
Definition NewMemoryAllocator : MemoryAllocator :=
  mkAllocator ∅ [] 0 4096.

(** [ma.allocations[key] = alloc; ma.totalAllocated += alloc.Size] for the
    allocation object [obj] newly placed at the next address. *)
Definition register (w : World) (obj : MemoryAllocation) : World * addr :=
  let a := next_addr w in
  (mkWorld (<[a := obj]> (allocs w)) (poolsto w) (a + 1)
           (mkAllocator (<[a := a]> (allocations (ma w))) (pools (ma w))
                        (wrap64 (totalAllocated (ma w) + aSize obj))
                        (maxAllocations (ma w))),
   a).

Definition set_pool (w : World) (pp : addr) (mp : MemoryPool) : World :=
  mkWorld (allocs w) (<[pp := mp]> (poolsto w)) (next_addr w) (ma w).

(** [alloc, err := pool.Allocate(size); if err == nil { register; return }]
    on the pool at address [pp]; [Ok None] when [err != nil]. *)
Definition allocate_from (w : World) (pp : addr) (size : Z)
  : World * res (option addr) :=
  match poolsto w !! pp with
  | None => (w, Panic)
  | Some mp =>
      match MemoryPool_Allocate pp mp size with
      | (mp', Ok obj) =>
          let '(w', a) := register (set_pool w pp mp') obj in (w', Ok (Some a))
      | (_, Err _) => (w, Ok None)
      | (_, Panic) => (w, Panic)
      end
  end.

(** [for _, pool := range ma.pools { if pool.TypeIndex == memoryType {...} }]. *)
Fixpoint try_pools (w : World) (ps : list addr) (memoryType size : Z)
  : World * res (option addr) :=
  match ps with
  | [] => (w, Ok None)
  | pp :: rest =>
      match poolsto w !! pp with
      | None => (w, Panic)
      | Some mp =>
          if pTypeIndex mp =? memoryType then
            match allocate_from w pp size with
            | (w', Ok None) => try_pools w' rest memoryType size
            | r => r
            end
          else try_pools w rest memoryType size
      end
  end.

Definition add_pool (w : World) (mp : MemoryPool) : World * addr :=
  let pp := next_addr w in
  (mkWorld (allocs w) (<[pp := mp]> (poolsto w)) (pp + 1)
           (mkAllocator (allocations (ma w)) (pools (ma w) ++ [pp])
                        (totalAllocated (ma w)) (maxAllocations (ma w))),
   pp).

(** The part of [Allocate] after the explicit-pool attempt. *)
Definition allocate_by_type (w : World) (requirements : MemoryRequirements)
    (createInfo : AllocationCreateInfo) : World * res addr :=
  match findMemoryType requirements createInfo with
  | Err err => (w, Err (ErrFindMemoryType err))
  | Panic => (w, Panic)
  | Ok memoryType =>
      match try_pools w (pools (ma w)) memoryType (rSize requirements) with
      | (w', Ok (Some a)) => (w', Ok a)
      | (w', Err e) => (w', Err e)
      | (w', Panic) => (w', Panic)
      | (w', Ok None) =>
          if 64 * 1024 * 1024 <? rSize requirements then
            match allocateDirect (rSize requirements) memoryType with
            | Ok obj => let '(w'', a) := register w' obj in (w'', Ok a)
            | Err e => (w', Err e)
            | Panic => (w', Panic)
            end
          else
            match createPool memoryType (256 * 1024 * 1024) with
            | Err e => (w', Err (ErrCreatePool e))
            | Panic => (w', Panic)
            | Ok mp =>
                let '(w'', pp) := add_pool w' mp in
                match MemoryPool_Allocate pp mp (rSize requirements) with
                | (mp', Ok obj) =>
                    let '(w3, a) := register (set_pool w'' pp mp') obj in (w3, Ok a)
                | (_, Err e) => (w'', Err e)
                | (_, Panic) => (w'', Panic)
                end
            end
      end
  end.

(** [func (ma *MemoryAllocator) Allocate(requirements, createInfo)]. *)
Definition MemoryAllocator_Allocate (w : World) (requirements : MemoryRequirements)
    (createInfo : AllocationCreateInfo) : World * res addr :=
  if maxAllocations (ma w) <=? wrap32 (Z.of_nat (size (allocations (ma w)))) then
    (w, Err (ErrMaxAllocations (maxAllocations (ma w))))
  else
    match ciPool createInfo with
    | Some pp =>
        match allocate_from w pp (rSize requirements) with
        | (w', Ok (Some a)) => (w', Ok a)
        | (w', Ok None) => allocate_by_type w' requirements createInfo
        | (w', Err e) => (w', Err e)
        | (w', Panic) => (w', Panic)
        end
    | None => allocate_by_type w requirements createInfo
    end.

(** [func (ma *MemoryAllocator) Unmap(allocation)] on the object at [a]. *)
Definition set_mapped (obj : MemoryAllocation) (m : option Z) : MemoryAllocation :=
  mkAllocation (aMemory obj) (aSize obj) (aTypeIndex obj) (aProperties obj)
               m (RefCount obj) (Pool obj).

Definition MemoryAllocator_Unmap (w : World) (a : addr) : World * res unit :=
  match allocs w !! a with
  | None => (w, Panic)
  | Some obj =>
      match Mapped obj with
      | Some _ =>
          (mkWorld (<[a := set_mapped obj None]> (allocs w)) (poolsto w)
                   (next_addr w) (ma w), Ok tt)
      | None => (w, Ok tt)
      end
  end.

(** [func (ma *MemoryAllocator) Map(allocation)]. *)
Definition MemoryAllocator_Map (w : World) (a : addr) : World * res Z :=
  match allocs w !! a with
  | None => (w, Panic)
  | Some obj =>
      match Mapped obj with
      | Some p => (w, Ok p)
      | None =>
          match MemoryTypes_at memProps (aTypeIndex obj) with
          | Ok memType =>
              if Z.land (PropertyFlags memType) MemoryPropertyHostVisibleBit =? 0
              then (w, Err ErrNotHostVisible)
              else (mkWorld (<[a := set_mapped obj (Some 1)]> (allocs w))
                            (poolsto w) (next_addr w) (ma w), Ok 1)
          | Err e => (w, Err e)
          | Panic => (w, Panic)
          end
      end
  end.

(** [allocation.Pool.Free(allocation)] on the pool at address [pp]. *)
Definition free_in_pool (w : World) (pp : addr) (obj : MemoryAllocation)
  : World * res unit :=
  match poolsto w !! pp with
  | None => (w, Panic)
  | Some mp =>
      let '(mp', r) := MemoryPool_Free mp (Some obj) in (set_pool w pp mp', r)
  end.

(** [func (ma *MemoryAllocator) freeAllocationUnsafe(allocation)]. *)
Definition freeAllocationUnsafe (w : World) (allocation : option addr)
  : World * res unit :=
  match allocation with
  | None => (w, Err ErrNilAllocation)
  | Some a =>
      match MemoryAllocator_Unmap w a with
      | (w1, Ok _) =>
          match allocs w1 !! a with
          | None => (w1, Panic)
          | Some obj =>
              let key := a in
              match allocations (ma w1) !! key with
              | None => (w1, Err ErrNotFoundInAllocator)
              | Some _ =>
                  let w2 :=
                    mkWorld (allocs w1) (poolsto w1) (next_addr w1)
                            (mkAllocator (delete key (allocations (ma w1)))
                                         (pools (ma w1))
                                         (wrap64 (totalAllocated (ma w1) - aSize obj))
                                         (maxAllocations (ma w1))) in
                  match Pool obj with
                  | Some pp => free_in_pool w2 pp obj
                  | None => (w2, Ok tt)
                  end
              end
          end
      | r => r
      end
  end.

(** [func (ma *MemoryAllocator) Free(allocation)]. *)
Definition MemoryAllocator_Free (w : World) (allocation : option addr)
  : World * res unit :=
  freeAllocationUnsafe w allocation.

End allocator.

(** ** Observations used by the properties *)

(** Sum of the [Size] fields of a block list, as a mathematical integer. *)
Definition sum_sizes (blocks : list MemoryBlock) : Z :=
  foldr (fun block acc => Size block + acc) 0 blocks.

(** Calls on one pool. *)
Inductive pool_op :=
  | OpAllocate (size : Z)
  | OpFree (allocation : option MemoryAllocation).

Definition pool_step (self : addr) (mp : MemoryPool) (op : pool_op) : MemoryPool :=
  match op with
  | OpAllocate size => fst (MemoryPool_Allocate self mp size)
  | OpFree allocation => fst (MemoryPool_Free mp allocation)
  end.

Definition pool_run (self : addr) (ops : list pool_op) (mp : MemoryPool) : MemoryPool :=
  fold_left (pool_step self) ops mp.

(** A pool as [createPool] leaves it: one free block spanning the arena. *)
Definition initial_pool (mp : MemoryPool) : Prop :=
  is_u64 (pSize mp) /\
  FreeBlocks mp = [mkBlock 0 (pSize mp) false] /\
  UsedBlocks mp = [].

(** Two free blocks adjacent by offset. *)
Definition adjacent (a b : MemoryBlock) : Prop :=
  Offset a + Size a = Offset b.

(** The tail left of [block] after its head of [alignedSize] bytes
    is taken. *)
Definition tail_block (block : MemoryBlock) (alignedSize : Z) : MemoryBlock :=
  mkBlock (wrap64 (Offset block + alignedSize))
          (wrap64 (Size block - alignedSize)) false.

(** What every pool reached from a fresh one satisfies: sizes are not
    negative and the free and used bytes make up the arena. *)
Definition pool_inv (mp : MemoryPool) : Prop :=
  is_u64 (pSize mp) /\
  Forall (fun b => 0 <= Size b) (FreeBlocks mp) /\
  Forall (fun b => 0 <= Size b) (UsedBlocks mp) /\
  sum_sizes (FreeBlocks mp) + sum_sizes (UsedBlocks mp) = pSize mp.

(** A device with one device-local memory type, and the pool [createPool]
    makes on it with the capacity [Allocate] passes (256 MiB). *)
Definition example_device : PhysicalDeviceMemoryProperties :=
  mkMemProps 1 [mkMemoryType MemoryPropertyDeviceLocalBit 0].

Definition pool_256MiB : MemoryPool :=
  mkPool 268435456 268435456 0 1 65536 [mkBlock 0 268435456 false] [].

(** The allocation handle a pool call returned, if any. *)
Definition returned (r : MemoryPool * res MemoryAllocation) : option MemoryAllocation :=
  match snd r with
  | Ok alloc => Some alloc
  | _ => None
  end.

(** Two requests of 10000 bytes on the fresh pool: the first handle owns the
    used block at offset 0, the second the one at offset 65536. *)
Definition after_first : MemoryPool * res MemoryAllocation :=
  MemoryPool_Allocate 1 pool_256MiB 10000.
Definition after_second : MemoryPool * res MemoryAllocation :=
  MemoryPool_Allocate 1 (fst after_first) 10000.

(** ** Memory-type resolution, as specified *)

(** The flags a usage adds: (required, preferred), by the table of the
    specification; any other usage value adds nothing. *)
Definition usage_table (usage : MemoryUsage) : MemoryPropertyFlags * MemoryPropertyFlags :=
  if decide (usage = MemoryUsageGPUOnly) then (MemoryPropertyDeviceLocalBit, 0)
  else if decide (usage = MemoryUsageCPUOnly) then
    (Z.lor MemoryPropertyHostVisibleBit MemoryPropertyHostCoherentBit, 0)
  else if decide (usage = MemoryUsageCPUToGPU) then
    (MemoryPropertyHostVisibleBit, MemoryPropertyDeviceLocalBit)
  else if decide (usage = MemoryUsageGPUToCPU) then
    (MemoryPropertyHostVisibleBit, MemoryPropertyHostCachedBit)
  else if decide (usage = MemoryUsageCPUCopy) then
    (Z.lor MemoryPropertyHostVisibleBit MemoryPropertyHostCoherentBit, 0)
  else if decide (usage = MemoryUsageGPULazilyAllocated) then
    (MemoryPropertyDeviceLocalBit, MemoryPropertyLazilyAllocatedBit)
  else (0, 0).

Definition required_of (createInfo : AllocationCreateInfo) : MemoryPropertyFlags :=
  Z.lor (RequiredFlags createInfo) (fst (usage_table (Usage createInfo))).

Definition preferred_of (createInfo : AllocationCreateInfo) : MemoryPropertyFlags :=
  Z.lor (PreferredFlags createInfo) (snd (usage_table (Usage createInfo))).

(** Every flag bit of [wanted] is a bit of [flags]. *)
Definition superset (flags wanted : MemoryPropertyFlags) : Prop :=
  forall n, 0 <= n -> Z.testbit wanted n = true -> Z.testbit flags n = true.

(** Index [i] is enabled in the 32-bit mask [bits]. *)
Definition enabled_in (bits i : Z) : Prop :=
  0 <= i < 32 /\ Z.testbit bits i = true.

Definition flags_of_type (memProps : PhysicalDeviceMemoryProperties) (i : Z)
  : MemoryPropertyFlags :=
  PropertyFlags (nth (Z.to_nat i) (MemoryTypes memProps) zero_MemoryType).

(** Memory type [i] of the device is allowed by the requirements and has
    the [wanted] flags. *)
Definition suitable (memProps : PhysicalDeviceMemoryProperties)
    (requirements : MemoryRequirements) (wanted : list MemoryPropertyFlags) (i : Z) : Prop :=
  0 <= i < MemoryTypeCount memProps /\
  enabled_in (MemoryTypeBits requirements) i /\
  Forall (superset (flags_of_type memProps i)) wanted.

Definition smallest (P : Z -> Prop) (i : Z) : Prop :=
  P i /\ forall j, P j -> i <= j.

(** The two passes and the failure of the specification. *)
Inductive resolves (memProps : PhysicalDeviceMemoryProperties)
    (requirements : MemoryRequirements) (createInfo : AllocationCreateInfo)
  : res Z -> Prop :=
  | resolves_first_pass i :
      smallest (suitable memProps requirements
                  [required_of createInfo; preferred_of createInfo]) i ->
      resolves memProps requirements createInfo (Ok i)
  | resolves_second_pass i :
      (forall j, ~ suitable memProps requirements
                     [required_of createInfo; preferred_of createInfo] j) ->
      smallest (suitable memProps requirements [required_of createInfo]) i ->
      resolves memProps requirements createInfo (Ok i)
  | resolves_none :
      (forall j, ~ suitable memProps requirements [required_of createInfo] j) ->
      resolves memProps requirements createInfo (Err ErrNoSuitableMemoryType).

(** ** The allocator's bookkeeping, observed *)

(** The [Size] field of the allocation object a table entry points to. *)
Definition entry_size (w : World) (p : addr) : Z :=
  match allocs w !! p with
  | Some obj => aSize obj
  | None => 0
  end.

Definition sum_map (m : gmap Z Z) : Z :=
  map_fold (fun _ v acc => v + acc) 0 m.

(** Sum of the [Size] fields of all entries of [ma.allocations], as a
    mathematical integer. *)
Definition table_sum (w : World) : Z :=
  sum_map (entry_size w <$> allocations (ma w)).

(** Calls on the allocator. *)
Inductive ma_op :=
  | MaAllocate (requirements : MemoryRequirements) (createInfo : AllocationCreateInfo)
  | MaFree (allocation : option addr).

Definition ma_step (memProps : PhysicalDeviceMemoryProperties) (w : World) (op : ma_op)
  : World :=
  match op with
  | MaAllocate requirements createInfo =>
      fst (MemoryAllocator_Allocate memProps w requirements createInfo)
  | MaFree allocation => fst (MemoryAllocator_Free w allocation)
  end.

Definition ma_run (memProps : PhysicalDeviceMemoryProperties) (ops : list ma_op)
    (w : World) : World :=
  fold_left (ma_step memProps) ops w.

(** A heap holding a new allocator: any objects the caller made before,
    all below the next address, and [NewMemoryAllocator]. *)
Definition new_world (w : World) : Prop :=
  ma w = NewMemoryAllocator /\
  (forall a, is_Some (allocs w !! a) -> a < next_addr w) /\
  (forall a, is_Some (poolsto w !! a) -> a < next_addr w).

(** The states the allocator goes through: from a new allocator, by calls
    of Allocate and Free, whatever they return. *)
Inductive reachable (memProps : PhysicalDeviceMemoryProperties) : World -> Prop :=
  | reachable_new w : new_world w -> reachable memProps w
  | reachable_Allocate w requirements createInfo :
      reachable memProps w ->
      reachable memProps
        (fst (MemoryAllocator_Allocate memProps w requirements createInfo))
  | reachable_Free w allocation :
      reachable memProps w ->
      reachable memProps (fst (MemoryAllocator_Free w allocation)).

(** The table agrees with the store and with the running total. *)
Definition table_ok (w : World) : Prop :=
  (forall k p, allocations (ma w) !! k = Some p ->
               p = k /\ is_Some (allocs w !! k)) /\
  (forall a, is_Some (allocs w !! a) -> a < next_addr w) /\
  totalAllocated (ma w) = wrap64 (table_sum w) /\
  maxAllocations (ma w) = 4096.

Definition empty_world : World := mkWorld ∅ ∅ 1 NewMemoryAllocator.

(** The table of [w'] is that of [w] with one more entry. *)
Definition one_more (w w' : World) : Prop :=
  table_ok w' /\
  size (allocations (ma w')) = S (size (allocations (ma w))).

(** The table of [w'] is in order and as long as that of [w]. *)
Definition same_count (w w' : World) : Prop :=
  table_ok w' /\
  size (allocations (ma w')) = size (allocations (ma w)).

(** Outcome of trying pools: nothing changed and no allocation came back,
    or one allocation was registered and returned. *)
Definition pool_attempt (w : World) (out : World * res (option addr)) : Prop :=
  (fst out = w /\ forall a, snd out <> Ok (Some a))
  \/ (one_more w (fst out) /\ exists a, snd out = Ok (Some a)).

(** Requests used in the examples: a direct reservation of 2^63 bytes, a
    direct reservation just above the 64 MiB threshold, and a pooled request
    of 10000 bytes; no usage hint, no explicit pool. *)
Definition huge_request : MemoryRequirements := mkRequirements (2 ^ 63) 1 1.
Definition direct_request : MemoryRequirements :=
  mkRequirements (64 * 1024 * 1024 + 1) 1 1.
Definition small_request : MemoryRequirements := mkRequirements 10000 1 1.
Definition plain_info : AllocationCreateInfo :=
  mkCreateInfo MemoryUsageUnknown 0 0 None.

(** A new allocator after two huge direct allocations. *)
Definition two_huge : World :=
  ma_run example_device
         [MaAllocate huge_request plain_info; MaAllocate huge_request plain_info]
         empty_world.

(** A new allocator after two pooled allocations: the pool is at address 1,
    the allocations at addresses 2 (offset 0) and 3 (offset 65536). *)
Definition two_small : World :=
  ma_run example_device
         [MaAllocate small_request plain_info; MaAllocate small_request plain_info]
         empty_world.

(** A new allocator after [maxAllocations] direct allocations. *)
Definition full_table : World :=
  ma_run example_device (repeat (MaAllocate direct_request plain_info) 4096)
         empty_world.

(** ** Utility functions *)

(** [func AlignUp(size, alignment)]. *)
Definition AlignUp (size alignment : Z) : Z :=
  and_not (wrap64 (wrap64 (size + alignment) - 1)) (wrap64 (alignment - 1)).

(** [func AlignDown(size, alignment)]. *)
Definition AlignDown (size alignment : Z) : Z :=
  and_not size (wrap64 (alignment - 1)).

(** [func IsAligned(size, alignment)]. *)
Definition IsAligned (size alignment : Z) : bool :=
  Z.land size (wrap64 (alignment - 1)) =? 0.

(** [func (mp *MemoryPool) Destroy()]: both block slices become nil. *)
Definition MemoryPool_Destroy (mp : MemoryPool) : MemoryPool :=
  mkPool (pMemory mp) (pSize mp) (pTypeIndex mp) (pProperties mp)
         (BlockSize mp) [] [].

(** ** Block spans *)

(** Byte [x] lies in the span [[Offset, Offset + Size)] of the block. *)
Definition covers (block : MemoryBlock) (x : Z) : bool :=
  (Offset block <=? x) && (x <? Offset block + Size block).

(** Number of blocks of the list whose span holds byte [x]. *)
Fixpoint covering (x : Z) (blocks : list MemoryBlock) : nat :=
  match blocks with
  | [] => O
  | block :: rest =>
      if covers block x then S (covering x rest) else covering x rest
  end.

(** All blocks of a pool, free ones first. *)
Definition all_blocks (mp : MemoryPool) : list MemoryBlock :=
  FreeBlocks mp ++ UsedBlocks mp.

Definition within_arena (mp : MemoryPool) (block : MemoryBlock) : Prop :=
  0 <= Offset block /\ 0 <= Size block /\ Offset block + Size block <= pSize mp.

(** The blocks of the pool tile the arena: each lies inside it and every
    byte of it is in exactly one block. *)
Definition tiled (mp : MemoryPool) : Prop :=
  is_u64 (pSize mp) /\
  Forall (within_arena mp) (all_blocks mp) /\
  forall x, 0 <= x < pSize mp -> covering x (all_blocks mp) = 1%nat.

(** Offsets of all blocks and sizes of the used blocks are multiples of
    the granularity [2 ^ k]. *)
Definition on_grid (k : Z) (mp : MemoryPool) : Prop :=
  Forall (fun b => (2 ^ k | Offset b)) (all_blocks mp) /\
  Forall (fun b => (2 ^ k | Size b)) (UsedBlocks mp).

(** ** The ways Allocate ends *)

(** The pool at [pp] served [size] bytes: its new state is stored and the
    allocation object [obj] is registered at address [a]. *)
Definition pool_alloc (w w' : World) (pp : addr) (size : Z) (a : addr)
    (obj : MemoryAllocation) : Prop :=
  exists mp mp',
    poolsto w !! pp = Some mp /\
    MemoryPool_Allocate pp mp size = (mp', Ok obj) /\
    w' = fst (register (set_pool w pp mp') obj) /\
    a = next_addr w.

(** How the part of Allocate after the explicit-pool attempt ends, for the
    resolved memory type [t]. *)
Inductive typed_outcome (memProps : PhysicalDeviceMemoryProperties) (w : World)
    (size t : Z) : World -> res addr -> Prop :=
  | from_existing_pool pp w' a obj :
      pp ∈ pools (ma w) ->
      (exists mp, poolsto w !! pp = Some mp /\ pTypeIndex mp = t) ->
      pool_alloc w w' pp size a obj ->
      typed_outcome memProps w size t w' (Ok a)
  | direct obj :
      64 * 1024 * 1024 < size ->
      allocateDirect memProps size t = Ok obj ->
      typed_outcome memProps w size t (fst (register w obj)) (Ok (next_addr w))
  | from_new_pool mp w' a obj :
      size <= 64 * 1024 * 1024 ->
      createPool memProps t (256 * 1024 * 1024) = Ok mp ->
      pool_alloc (fst (add_pool w mp)) w' (next_addr w) size a obj ->
      typed_outcome memProps w size t w' (Ok a)
  | new_pool_full mp e :
      size <= 64 * 1024 * 1024 ->
      createPool memProps t (256 * 1024 * 1024) = Ok mp ->
      snd (MemoryPool_Allocate (next_addr w) mp size) = Err e ->
      typed_outcome memProps w size t (fst (add_pool w mp)) (Err e)
  | listed_pool_missing pp :
      pp ∈ pools (ma w) -> poolsto w !! pp = None ->
      typed_outcome memProps w size t w Panic
  | type_out_of_range :
      32 <= t -> typed_outcome memProps w size t w Panic.

(** How Allocate ends. *)
Inductive outcome (memProps : PhysicalDeviceMemoryProperties) (w : World)
    (requirements : MemoryRequirements) (createInfo : AllocationCreateInfo)
  : World -> res addr -> Prop :=
  | at_cap :
      maxAllocations (ma w) <= wrap32 (Z.of_nat (size (allocations (ma w)))) ->
      outcome memProps w requirements createInfo w
              (Err (ErrMaxAllocations (maxAllocations (ma w))))
  | from_explicit_pool pp w' a obj :
      wrap32 (Z.of_nat (size (allocations (ma w)))) < maxAllocations (ma w) ->
      ciPool createInfo = Some pp ->
      pool_alloc w w' pp (rSize requirements) a obj ->
      outcome memProps w requirements createInfo w' (Ok a)
  | explicit_pool_missing pp :
      wrap32 (Z.of_nat (size (allocations (ma w)))) < maxAllocations (ma w) ->
      ciPool createInfo = Some pp -> poolsto w !! pp = None ->
      outcome memProps w requirements createInfo w Panic
  | type_panic :
      wrap32 (Z.of_nat (size (allocations (ma w)))) < maxAllocations (ma w) ->
      findMemoryType memProps requirements createInfo = Panic ->
      outcome memProps w requirements createInfo w Panic
  | no_type e :
      wrap32 (Z.of_nat (size (allocations (ma w)))) < maxAllocations (ma w) ->
      findMemoryType memProps requirements createInfo = Err e ->
      outcome memProps w requirements createInfo w (Err (ErrFindMemoryType e))
  | by_type t w' r :
      wrap32 (Z.of_nat (size (allocations (ma w)))) < maxAllocations (ma w) ->
      (forall pp, ciPool createInfo = Some pp ->
         exists mp, poolsto w !! pp = Some mp /\
           snd (MemoryPool_Allocate pp mp (rSize requirements))
           = Err ErrInsufficientSpace) ->
      findMemoryType memProps requirements createInfo = Ok t ->
      typed_outcome memProps w (rSize requirements) t w' r ->
      outcome memProps w requirements createInfo w' r.

(** The world [w'] is [w] with the allocation object [obj] placed at the
    new address [a], entered in the table and added to the total. *)
Definition registered (w w' : World) (a : addr) (obj : MemoryAllocation) : Prop :=
  next_addr w <= a /\
  allocs w' = <[a := obj]> (allocs w) /\
  allocations (ma w') = <[a := a]> (allocations (ma w)) /\
  totalAllocated (ma w') = wrap64 (totalAllocated (ma w) + aSize obj).

(** The allocation objects, the table and the total of [w'] are those
    of [w]. *)
Definition same_allocations (w w' : World) : Prop :=
  allocs w' = allocs w /\
  allocations (ma w') = allocations (ma w) /\
  totalAllocated (ma w') = totalAllocated (ma w).

(** ** The pools of the allocator *)

(** A pool as the allocator makes and keeps it: 256 MiB in 64 KiB blocks,
    of a memory type of the device, with its bytes conserved and tiled. *)
Definition made_pool (memProps : PhysicalDeviceMemoryProperties) (mp : MemoryPool)
  : Prop :=
  pool_inv mp /\ tiled mp /\
  pSize mp = 256 * 1024 * 1024 /\ BlockSize mp = 64 * 1024 /\
  0 <= pTypeIndex mp < 32 /\
  pProperties mp = flags_of_type memProps (pTypeIndex mp).

(** Pool pointers are valid: pool objects lie below the next address, the
    pools of the allocator are pools it made, and the pool of every tracked
    allocation exists. *)
Definition pools_ok (memProps : PhysicalDeviceMemoryProperties) (w : World) : Prop :=
  (forall pp, is_Some (poolsto w !! pp) -> pp < next_addr w) /\
  (forall pp, pp ∈ pools (ma w) ->
     exists mp, poolsto w !! pp = Some mp /\ made_pool memProps mp) /\
  (forall k p obj pp,
     allocations (ma w) !! k = Some p -> allocs w !! p = Some obj ->
     Pool obj = Some pp -> is_Some (poolsto w !! pp)).

(** ** Statistics of the allocator *)

Record MemoryStats := mkMemoryStats {
  TotalAllocated : Z;
  AllocationCount : Z;
  PoolCount : Z;
  MaxAllocations : Z;
  PoolStatsList : list PoolStats
}.

(** [for _, pool := range ma.pools { stats.PoolStats = append(..., pool.GetStats()) }]. *)
Fixpoint pool_stats_loop (w : World) (ps : list addr) (acc : list PoolStats)
  : res (list PoolStats) :=
  match ps with
  | [] => Ok acc
  | pp :: rest =>
      match poolsto w !! pp with
      | None => Panic
      | Some mp => pool_stats_loop w rest (acc ++ [MemoryPool_GetStats mp])
      end
  end.

(** [func (ma *MemoryAllocator) GetStats()]. *)
Definition MemoryAllocator_GetStats (w : World) : res MemoryStats :=
  match pool_stats_loop w (pools (ma w)) [] with
  | Ok poolStats =>
      Ok (mkMemoryStats (totalAllocated (ma w))
                        (wrap32 (Z.of_nat (size (allocations (ma w)))))
                        (wrap32 (Z.of_nat (length (pools (ma w)))))
                        (maxAllocations (ma w))
                        poolStats)
  | Err e => Err e
  | Panic => Panic
  end.

(** ** PhysicalDevice.FindMemoryType *)

(** [(typeFilter&(1<<i)) != 0 && (MemoryTypes[i].PropertyFlags&properties) == properties];
    the array is read only when the left operand holds. *)
Definition FindMemoryType_test (memProps : PhysicalDeviceMemoryProperties)
    (typeFilter properties : Z) (i : Z) : res bool :=
  if type_bit_set typeFilter i then
    match MemoryTypes_at memProps i with
    | Ok memType => Ok (has_flags (PropertyFlags memType) properties)
    | Err e => Err e
    | Panic => Panic
    end
  else Ok false.

(** [func (pd *PhysicalDevice) FindMemoryType(typeFilter, properties) (uint32, bool)]. *)
Definition FindMemoryType (memProps : PhysicalDeviceMemoryProperties)
    (typeFilter properties : Z) : res (Z * bool) :=
  match scan_types (FindMemoryType_test memProps typeFilter properties)
                   (Z.to_nat (MemoryTypeCount memProps)) 0 with
  | Ok (Some i) => Ok (i, true)
  | Ok None => Ok (0, false)
  | Err e => Err e
  | Panic => Panic
  end.

(** ** MemoryAllocator.Destroy *)

(** [for _, alloc := range ma.allocations { ma.freeAllocationUnsafe(alloc) }]
    over the entries in the order the iteration produces them; an entry
    removed before it is reached is not produced. *)
Fixpoint free_all (w : World) (entries : list (Z * addr)) : World * res unit :=
  match entries with
  | [] => (w, Ok tt)
  | (key, alloc) :: rest =>
      match allocations (ma w) !! key with
      | None => free_all w rest
      | Some _ =>
          match freeAllocationUnsafe w (Some alloc) with
          | (w', Panic) => (w', Panic)
          | (w', _) => free_all w' rest
          end
      end
  end.

(** [for _, pool := range ma.pools { pool.Destroy() }]. *)
Fixpoint destroy_pools (w : World) (ps : list addr) : World * res unit :=
  match ps with
  | [] => (w, Ok tt)
  | pp :: rest =>
      match poolsto w !! pp with
      | None => (w, Panic)
      | Some mp => destroy_pools (set_pool w pp (MemoryPool_Destroy mp)) rest
      end
  end.

(** [func (ma *MemoryAllocator) Destroy()]. The iteration order of the map
    is the order of [map_to_list]; the nil map and the nil slice it leaves
    are the empty map and the empty list. *)
Definition MemoryAllocator_Destroy (w : World) : World * res unit :=
  match free_all w (map_to_list (allocations (ma w))) with
  | (w1, Ok _) =>
      let w2 := mkWorld (allocs w1) (poolsto w1) (next_addr w1)
                        (mkAllocator ∅ (pools (ma w1)) (totalAllocated (ma w1))
                                     (maxAllocations (ma w1))) in
      match destroy_pools w2 (pools (ma w2)) with
      | (w3, Ok _) =>
          (mkWorld (allocs w3) (poolsto w3) (next_addr w3)
                   (mkAllocator (allocations (ma w3)) []
                                (totalAllocated (ma w3)) (maxAllocations (ma w3))),
           Ok tt)
      | r => r
      end
  | r => r
  end.

(** * Properties *)

(** ** Machine arithmetic *)

Lemma wrap64_small x : is_u64 x -> wrap64 x = x.
Proof. unfold is_u64, wrap64. intros H. apply Z.mod_small. lia. Qed.

Lemma wrap64_range x : is_u64 (wrap64 x).
Proof. unfold is_u64, wrap64. apply Z.mod_pos_bound. lia. Qed.

Lemma wrap64_sub_1 x : wrap64 (wrap64 x - 1) = wrap64 (x - 1).
Proof. unfold wrap64. now rewrite Zminus_mod_idemp_l. Qed.

Lemma and_not_split x y : x = and_not x y + Z.land x y.
Proof.
  unfold and_not.
  assert (Hd : Z.land (Z.ldiff x y) (Z.land x y) = 0).
  { apply Z.bits_inj'. intros n Hn.
    rewrite !Z.land_spec, Z.ldiff_spec, Z.bits_0.
    destruct (Z.testbit x n), (Z.testbit y n); reflexivity. }
  rewrite Z.add_nocarry_lxor, Z.lxor_lor by exact Hd.
  symmetry. apply Z.lor_ldiff_and.
Qed.

Lemma and_not_range x y : 0 <= x -> 0 <= and_not x y <= x.
Proof.
  intros Hx. split.
  - unfold and_not. apply Z.ldiff_nonneg. lia.
  - pose proof (and_not_split x y) as Hs.
    assert (0 <= Z.land x y) by (apply Z.land_nonneg; lia). lia.
Qed.

Lemma alignedSize_range mp size : is_u64 (alignedSize_of mp size).
Proof.
  unfold alignedSize_of.
  pose proof (wrap64_range (wrap64 (size + BlockSize mp) - 1)) as Hr.
  pose proof (and_not_range (wrap64 (wrap64 (size + BlockSize mp) - 1))
                (wrap64 (BlockSize mp - 1))) as Ha.
  unfold is_u64 in *. lia.
Qed.

(** Rounding with a power-of-two granularity, when the sum does not wrap. *)
Lemma alignedSize_pow2 mp size k :
  BlockSize mp = 2 ^ k -> 0 <= k ->
  0 <= size -> size + BlockSize mp - 1 < 2 ^ 64 ->
  alignedSize_of mp size = 2 ^ k * ((size + 2 ^ k - 1) / 2 ^ k).
Proof.
  intros HB Hk Hs Hlt. unfold alignedSize_of. rewrite wrap64_sub_1, HB.
  assert (Hp : 0 < 2 ^ k) by (apply Z.pow_pos_nonneg; lia).
  rewrite !wrap64_small by (unfold is_u64; lia).
  unfold and_not.
  replace (2 ^ k - 1) with (Z.ones k) by (rewrite Z.ones_equiv; lia).
  rewrite Z.ldiff_ones_r by lia.
  rewrite Z.shiftl_mul_pow2, Z.shiftr_div_pow2 by lia. lia.
Qed.

Lemma alignedSize_zero mp : alignedSize_of mp 0 = 0.
Proof.
  unfold alignedSize_of. cbn [Z.add]. rewrite wrap64_sub_1.
  unfold and_not. apply Z.ldiff_diag.
Qed.

(** ** The loops of the pool *)

Lemma first_fit_Some a blocks i0 i block :
  first_fit a blocks i0 = Some (i, block) ->
  exists j : nat,
    i = (i0 + j)%nat /\ blocks !! j = Some block /\ a <= Size block /\
    forall (j' : nat) b, (j' < j)%nat -> blocks !! j' = Some b -> Size b < a.
Proof.
  revert i0. induction blocks as [|b0 rest IH]; intros i0 H; simpl in H.
  - discriminate.
  - destruct (a <=? Size b0) eqn:E.
    + inversion H; subst. exists 0%nat. repeat split.
      * lia.
      * apply Z.leb_le, E.
      * intros j' b Hj. lia.
    + apply IH in H as (j & -> & Hj & Hle & Hmin).
      exists (S j). repeat split; [lia | exact Hj | exact Hle |].
      intros [|j'] b Hlt Hb; simpl in Hb.
      * inversion Hb; subst. apply Z.leb_gt, E.
      * apply (Hmin j'); [lia | exact Hb].
Qed.

Lemma first_fit_None a blocks i0 :
  first_fit a blocks i0 = None -> Forall (fun b => Size b < a) blocks.
Proof.
  revert i0. induction blocks as [|b0 rest IH]; intros i0 H; simpl in H.
  - constructor.
  - destruct (a <=? Size b0) eqn:E; [discriminate|].
    constructor; [apply Z.leb_gt, E | eapply IH, H].
Qed.

Lemma first_offset_zero_Some blocks i0 i block :
  first_offset_zero blocks i0 = Some (i, block) ->
  exists j : nat,
    i = (i0 + j)%nat /\ blocks !! j = Some block /\ Offset block = 0 /\
    forall (j' : nat) b, (j' < j)%nat -> blocks !! j' = Some b -> Offset b <> 0.
Proof.
  revert i0. induction blocks as [|b0 rest IH]; intros i0 H; simpl in H.
  - discriminate.
  - destruct (Offset b0 =? 0) eqn:E.
    + inversion H; subst. exists 0%nat. repeat split.
      * lia.
      * apply Z.eqb_eq, E.
      * intros j' b Hj. lia.
    + apply IH in H as (j & -> & Hj & Hz & Hmin).
      exists (S j). repeat split; [lia | exact Hj | exact Hz |].
      intros [|j'] b Hlt Hb; simpl in Hb.
      * inversion Hb; subst. apply Z.eqb_neq, E.
      * apply (Hmin j'); [lia | exact Hb].
Qed.

Lemma first_offset_zero_None blocks i0 :
  first_offset_zero blocks i0 = None -> Forall (fun b => Offset b <> 0) blocks.
Proof.
  revert i0. induction blocks as [|b0 rest IH]; intros i0 H; simpl in H.
  - constructor.
  - destruct (Offset b0 =? 0) eqn:E; [discriminate|].
    constructor; [apply Z.eqb_neq, E | eapply IH, H].
Qed.

(** Removing by swapping with the last element: the list without its
    element at [i], with the last element moved into the hole. *)
Lemma swap_remove_last (l : list MemoryBlock) x :
  swap_remove (length l) (l ++ [x]) = l.
Proof.
  unfold swap_remove. rewrite length_app. simpl.
  replace (length l + 1 - 1)%nat with (length l) by lia.
  rewrite Nat.ltb_irrefl. apply take_app_length.
Qed.

Lemma swap_remove_inner (i : nat) (l : list MemoryBlock) x :
  (i < length l)%nat -> swap_remove i (l ++ [x]) = <[i := x]> l.
Proof.
  intros Hi. unfold swap_remove. rewrite length_app. simpl.
  replace (length l + 1 - 1)%nat with (length l) by lia.
  rewrite (proj2 (Nat.ltb_lt _ _) Hi).
  rewrite list_lookup_middle by reflexivity.
  rewrite insert_app_l by exact Hi.
  rewrite take_app_length' by (rewrite length_insert; reflexivity).
  reflexivity.
Qed.

Lemma swap_remove_Permutation (i : nat) (s : list MemoryBlock) :
  (i < length s)%nat -> swap_remove i s ≡ₚ delete i s.
Proof.
  destruct s as [|b s] using rev_ind; [simpl; lia|].
  rewrite length_app. simpl. intros Hi.
  destruct (decide (i = length s)) as [->|Hne].
  - rewrite swap_remove_last.
    replace (s ++ [b]) with (s ++ b :: []) by reflexivity.
    rewrite delete_middle, app_nil_r. reflexivity.
  - assert (Hlt : (i < length s)%nat) by lia.
    rewrite swap_remove_inner by exact Hlt.
    rewrite insert_take_drop by exact Hlt.
    rewrite !delete_take_drop.
    rewrite take_app_le, drop_app_le by lia.
    rewrite <- Permutation_middle.
    rewrite (Permutation_app_comm (drop (S i) s) [b]). simpl.
    rewrite <- Permutation_middle. reflexivity.
Qed.

Lemma swap_remove_length (i : nat) (s : list MemoryBlock) :
  length (swap_remove i s) = (length s - 1)%nat.
Proof.
  unfold swap_remove.
  destruct (i <? length s - 1)%nat; [destruct (s !! _)|];
    rewrite length_take, ?length_insert; lia.
Qed.

(** ** Sums of block sizes *)

Lemma sum_sizes_app l1 l2 : sum_sizes (l1 ++ l2) = sum_sizes l1 + sum_sizes l2.
Proof. induction l1 as [|b l1 IH]; simpl; [reflexivity | rewrite IH; lia]. Qed.

Lemma sum_sizes_Permutation l1 l2 : l1 ≡ₚ l2 -> sum_sizes l1 = sum_sizes l2.
Proof. induction 1; simpl; lia. Qed.

Lemma sum_sizes_delete (l : list MemoryBlock) (i : nat) b :
  l !! i = Some b -> sum_sizes (delete i l) = sum_sizes l - Size b.
Proof.
  intros H. rewrite <- (take_drop_middle l i b H) at 2.
  rewrite delete_take_drop, !sum_sizes_app. simpl. lia.
Qed.

Lemma sum_sizes_nonneg l :
  Forall (fun b => 0 <= Size b) l -> 0 <= sum_sizes l.
Proof. induction 1; simpl; lia. Qed.

Lemma sum_sizes_elem (l : list MemoryBlock) (i : nat) b :
  Forall (fun b => 0 <= Size b) l -> l !! i = Some b -> Size b <= sum_sizes l.
Proof.
  intros Hall H. rewrite <- (take_drop_middle l i b H) in Hall |- *.
  rewrite sum_sizes_app. simpl.
  apply Forall_app in Hall as [H1 H2]. apply Forall_cons in H2 as [Hb H2].
  pose proof (sum_sizes_nonneg _ H1). pose proof (sum_sizes_nonneg _ H2). lia.
Qed.

(** ** What one pool call does *)

(** [Allocate] either takes the first fitting free block or fails without
    touching the pool. *)
Lemma MemoryPool_Allocate_cases self mp size :
  let a := alignedSize_of mp size in
  (exists (i : nat) block,
      FreeBlocks mp !! i = Some block /\ a <= Size block /\
      (forall (j : nat) b, (j < i)%nat -> FreeBlocks mp !! j = Some b -> Size b < a) /\
      MemoryPool_Allocate self mp size =
        (mkPool (pMemory mp) (pSize mp) (pTypeIndex mp) (pProperties mp)
                (BlockSize mp)
                (swap_remove i (if a <? Size block
                                then FreeBlocks mp ++ [tail_block block a]
                                else FreeBlocks mp))
                (UsedBlocks mp ++ [mkBlock (Offset block) a true]),
         Ok (mkAllocation (pMemory mp) a (pTypeIndex mp) (pProperties mp)
                          None 1 (Some self))))
  \/ (Forall (fun b => Size b < a) (FreeBlocks mp) /\
      MemoryPool_Allocate self mp size = (mp, Err ErrInsufficientSpace)).
Proof.
  intros a. unfold MemoryPool_Allocate. fold a.
  destruct (first_fit a (FreeBlocks mp) 0) as [[i block]|] eqn:E.
  - left. apply first_fit_Some in E as (j & -> & Hj & Hle & Hmin).
    exists j, block. simpl. repeat split; assumption.
  - right. split; [eapply first_fit_None, E | reflexivity].
Qed.

(** The free list after a successful [Allocate], up to order. *)
Lemma allocate_free_list_Permutation (free : list MemoryBlock) (i : nat) block a :
  free !! i = Some block ->
  swap_remove i (if a <? Size block then free ++ [tail_block block a] else free)
  ≡ₚ delete i free ++ (if a <? Size block then [tail_block block a] else []).
Proof.
  intros Hi. pose proof (lookup_lt_Some _ _ _ Hi) as Hlt.
  destruct (a <? Size block).
  - rewrite swap_remove_Permutation by (rewrite length_app; simpl; lia).
    rewrite !delete_take_drop, take_app_le, drop_app_le by lia.
    rewrite <- app_assoc. reflexivity.
  - rewrite swap_remove_Permutation by exact Hlt. rewrite app_nil_r. reflexivity.
Qed.

(** [Free] removes the first used block whose offset is zero, whatever
    allocation it is given. *)
Lemma MemoryPool_Free_cases mp allocation :
  (exists (i : nat) block,
      UsedBlocks mp !! i = Some block /\ Offset block = 0 /\
      (forall (j : nat) b, (j < i)%nat -> UsedBlocks mp !! j = Some b -> Offset b <> 0) /\
      MemoryPool_Free mp allocation =
        (mkPool (pMemory mp) (pSize mp) (pTypeIndex mp) (pProperties mp)
                (BlockSize mp)
                (FreeBlocks mp ++ [mkBlock (Offset block) (Size block) false])
                (delete i (UsedBlocks mp)),
         Ok tt))
  \/ (Forall (fun b => Offset b <> 0) (UsedBlocks mp) /\
      MemoryPool_Free mp allocation = (mp, Err ErrNotFoundInPool)).
Proof.
  unfold MemoryPool_Free.
  destruct (first_offset_zero (UsedBlocks mp) 0) as [[i block]|] eqn:E.
  - left. apply first_offset_zero_Some in E as (j & -> & Hj & Hz & Hmin).
    exists j, block. simpl. repeat split; assumption.
  - right. split; [eapply first_offset_zero_None, E | reflexivity].
Qed.

(** ** Conservation of bytes in a pool *)

Lemma initial_pool_inv mp : initial_pool mp -> pool_inv mp.
Proof.
  intros (Hu & Hf & Hus). unfold pool_inv. rewrite Hf, Hus. simpl.
  repeat split; try (apply Hu).
  - constructor; [simpl; apply Hu | constructor].
  - constructor.
  - lia.
Qed.

Lemma MemoryPool_Allocate_inv self mp size :
  pool_inv mp -> pool_inv (fst (MemoryPool_Allocate self mp size)).
Proof.
  intros (Hu & Hf & Hus & Hsum).
  pose proof (alignedSize_range mp size) as Ha.
  destruct (MemoryPool_Allocate_cases self mp size)
    as [(i & block & Hi & Hle & _ & ->) | (_ & ->)];
    [| exact (conj Hu (conj Hf (conj Hus Hsum)))].
  set (a := alignedSize_of mp size) in *.
  pose proof (sum_sizes_elem _ _ _ Hf Hi) as Hb.
  pose proof (sum_sizes_nonneg _ Hus) as Hun.
  pose proof (allocate_free_list_Permutation _ i block a Hi) as Hp.
  assert (Ht : (a <? Size block) = true -> Size (tail_block block a) = Size block - a).
  { intros Hlt%Z.ltb_lt. simpl. apply wrap64_small.
    unfold is_u64 in *. lia. }
  unfold pool_inv. simpl. split; [exact Hu|]. split; [|split].
  - rewrite Hp. apply Forall_app. split.
    + apply Forall_delete, Hf.
    + destruct (a <? Size block) eqn:E; constructor; [|constructor].
      rewrite Ht by reflexivity. apply Z.ltb_lt in E. lia.
  - apply Forall_app. split; [exact Hus|]. constructor; [|constructor].
    simpl. unfold is_u64 in Ha. lia.
  - rewrite (sum_sizes_Permutation _ _ Hp), !sum_sizes_app.
    rewrite (sum_sizes_delete _ _ _ Hi). simpl.
    destruct (a <? Size block) eqn:E.
    + cbn [sum_sizes foldr]. rewrite Ht by reflexivity. lia.
    + apply Z.ltb_ge in E. simpl. lia.
Qed.

Lemma MemoryPool_Free_inv mp allocation :
  pool_inv mp -> pool_inv (fst (MemoryPool_Free mp allocation)).
Proof.
  intros (Hu & Hf & Hus & Hsum).
  destruct (MemoryPool_Free_cases mp allocation)
    as [(i & block & Hi & _ & _ & ->) | (_ & ->)];
    [| exact (conj Hu (conj Hf (conj Hus Hsum)))].
  unfold pool_inv. simpl. split; [exact Hu|]. split; [|split].
  - apply Forall_app. split; [exact Hf|]. constructor; [|constructor].
    simpl. eapply Forall_lookup_1 in Hus; [|exact Hi]. exact Hus.
  - apply Forall_delete, Hus.
  - rewrite sum_sizes_app, (sum_sizes_delete _ _ _ Hi). simpl. lia.
Qed.

Lemma pool_run_inv self ops mp :
  pool_inv mp -> pool_inv (pool_run self ops mp).
Proof.
  revert mp. induction ops as [|op ops IH]; intros mp H; simpl; [exact H|].
  apply IH. destruct op; simpl.
  - apply MemoryPool_Allocate_inv, H.
  - apply MemoryPool_Free_inv, H.
Qed.

Lemma used_size_loop_acc blocks acc :
  Forall (fun b => 0 <= Size b) blocks ->
  0 <= acc -> acc + sum_sizes blocks < 2 ^ 64 ->
  fold_left (fun usedSize block => wrap64 (usedSize + Size block)) blocks acc
  = acc + sum_sizes blocks.
Proof.
  intros H. revert acc. induction H as [|b l Hb Hl IH]; intros acc Hacc Hlt; simpl in *.
  - lia.
  - pose proof (sum_sizes_nonneg _ Hl).
    rewrite wrap64_small by (unfold is_u64; lia).
    rewrite IH by lia. lia.
Qed.

(** ** MemoryPool.Allocate *)

Example createPool_example :
  createPool example_device 0 (256 * 1024 * 1024) = Ok pool_256MiB.
Proof. reflexivity. Qed.

Lemma tail_block_span block a :
  0 <= a < Size block -> 0 <= Offset block -> Offset block + Size block < 2 ^ 64 ->
  tail_block block a = mkBlock (Offset block + a) (Size block - a) false.
Proof.
  intros Ha Ho Hend. unfold tail_block.
  rewrite !wrap64_small by (unfold is_u64; lia). reflexivity.
Qed.

(** C5, as amended. For a pool whose BlockSize is a power of two and a
    requested size s > 0 with s + BlockSize - 1 < 2^64 (the rounding does not
    wrap), Allocate computes alignedSize as the least multiple of BlockSize
    that is >= s; it takes the first free block of size >= alignedSize,
    appends the used block [offset, offset+alignedSize), removes the matched
    free block and, when that block is strictly larger, adds the tail
    [offset+alignedSize, end) as a new free block; and when no free block has
    size >= alignedSize it returns the insufficient-space error and leaves the
    pool as it was. *)
Theorem Allocate_rounds_up_and_first_fits self mp size k :
  BlockSize mp = 2 ^ k -> 0 <= k ->
  0 < size -> size + BlockSize mp - 1 < 2 ^ 64 ->
  let a := alignedSize_of mp size in
  ((BlockSize mp | a) /\ size <= a /\
   forall m, (BlockSize mp | m) -> size <= m -> a <= m) /\
  ((exists (i : nat) block mp' alloc,
       FreeBlocks mp !! i = Some block /\ a <= Size block /\
       (forall (j : nat) b, (j < i)%nat -> FreeBlocks mp !! j = Some b -> Size b < a) /\
       MemoryPool_Allocate self mp size = (mp', Ok alloc) /\
       aSize alloc = a /\ Pool alloc = Some self /\
       UsedBlocks mp' = UsedBlocks mp ++ [mkBlock (Offset block) a true] /\
       FreeBlocks mp' ≡ₚ
         delete i (FreeBlocks mp) ++
         (if a <? Size block then [tail_block block a] else []) /\
       (a < Size block -> 0 <= Offset block -> Offset block + Size block < 2 ^ 64 ->
        tail_block block a = mkBlock (Offset block + a) (Size block - a) false))
   \/ (Forall (fun b => Size b < a) (FreeBlocks mp) /\
       MemoryPool_Allocate self mp size = (mp, Err ErrInsufficientSpace))).
Proof.
  intros HB Hk Hs Hlt a.
  assert (Hp : 0 < 2 ^ k) by (apply Z.pow_pos_nonneg; lia).
  assert (Ha : a = 2 ^ k * ((size + 2 ^ k - 1) / 2 ^ k))
    by (apply alignedSize_pow2; lia).
  assert (Hlo : size <= a /\ a < size + 2 ^ k).
  { pose proof (Z.div_mod (size + 2 ^ k - 1) (2 ^ k) ltac:(lia)) as Hdm.
    pose proof (Z.mod_pos_bound (size + 2 ^ k - 1) (2 ^ k) Hp). lia. }
  split.
  - rewrite HB. split; [|split].
    + exists ((size + 2 ^ k - 1) / 2 ^ k). lia.
    + apply Hlo.
    + intros m [q Hq] Hm.
      destruct (Z_lt_le_dec m a) as [Hma|]; [|lia]. exfalso.
      assert (q < (size + 2 ^ k - 1) / 2 ^ k) by nia.
      assert (2 ^ k * (q + 1) <= a) by nia. lia.
  - destruct (MemoryPool_Allocate_cases self mp size)
      as [(i & block & Hi & Hle & Hmin & Heq) | Hfail]; [left | right; exact Hfail].
    fold a in Hle, Hmin, Heq.
    eexists i, block, _, _.
    split; [exact Hi|]. split; [exact Hle|]. split; [exact Hmin|].
    split; [exact Heq|]. simpl.
    split; [reflexivity|]. split; [reflexivity|]. split; [reflexivity|]. split.
    + apply allocate_free_list_Permutation, Hi.
    + intros. apply tail_block_span; lia.
Qed.

Lemma Allocate_rounds_up_and_first_fits_witness :
  BlockSize pool_256MiB = 2 ^ 16 /\ 0 < 10000 /\
  10000 + BlockSize pool_256MiB - 1 < 2 ^ 64 /\
  (BlockSize pool_256MiB | alignedSize_of pool_256MiB 10000).
Proof.
  split; [reflexivity|]. split; [lia|]. split; [simpl; lia|].
  destruct (Allocate_rounds_up_and_first_fits 1 pool_256MiB 10000 16)
    as [[Hdiv _] _]; [reflexivity | lia | lia | simpl; lia | exact Hdiv].
Defined.

(** C5 fails as stated: the request s = 2^64 - 1 wraps in the rounding, so
    alignedSize is 0 and the call succeeds with a zero-size block instead of
    a block of at least s bytes; and with a BlockSize that is not a power of
    two (3, in a pool built by hand) the bit clearing does not yield a
    multiple of BlockSize. *)
Lemma Allocate_rounding_wraps :
  (0 < 2 ^ 64 - 1 /\ is_u64 (2 ^ 64 - 1) /\
   alignedSize_of pool_256MiB (2 ^ 64 - 1) = 0 /\
   ~ (2 ^ 64 - 1 <= alignedSize_of pool_256MiB (2 ^ 64 - 1)) /\
   MemoryPool_Allocate 1 pool_256MiB (2 ^ 64 - 1) =
     (mkPool 268435456 268435456 0 1 65536
             [mkBlock 0 268435456 false] [mkBlock 0 0 true],
      Ok (mkAllocation 268435456 0 0 1 None 1 (Some 1)))) /\
  (alignedSize_of (mkPool 9 9 0 1 3 [mkBlock 0 9 false] []) 1 = 1 /\
   ~ (3 | alignedSize_of (mkPool 9 9 0 1 3 [mkBlock 0 9 false] []) 1)).
Proof.
  split.
  - split; [lia|]. split; [unfold is_u64; lia|].
    split; [reflexivity|]. split; [|reflexivity].
    change (alignedSize_of pool_256MiB (2 ^ 64 - 1)) with 0. lia.
  - split; [reflexivity|].
    change (alignedSize_of (mkPool 9 9 0 1 3 [mkBlock 0 9 false] []) 1) with 1.
    intros [q Hq]. lia.
Qed.

(** C6, as amended. Allocate called with requested size 0 computes
    alignedSize 0; when the free list is not empty it succeeds, returning an
    allocation of Size 0 and appending a zero-size used block at the first
    free block's offset, with the free bytes unchanged; it fails (with the
    insufficient-space error, the pool unmodified) only when the free list
    is empty. *)
Theorem Allocate_zero_size self mp :
  Forall (fun b => is_u64 (Size b)) (FreeBlocks mp) ->
  match FreeBlocks mp with
  | [] => MemoryPool_Allocate self mp 0 = (mp, Err ErrInsufficientSpace)
  | block :: _ =>
      exists mp' alloc,
        MemoryPool_Allocate self mp 0 = (mp', Ok alloc) /\
        aSize alloc = 0 /\
        UsedBlocks mp' = UsedBlocks mp ++ [mkBlock (Offset block) 0 true] /\
        sum_sizes (FreeBlocks mp') = sum_sizes (FreeBlocks mp)
  end.
Proof.
  intros Hall. unfold MemoryPool_Allocate. rewrite alignedSize_zero.
  destruct (FreeBlocks mp) as [|block rest] eqn:Hfree; [reflexivity|].
  apply Forall_cons in Hall as [Hb _]. unfold is_u64 in Hb.
  simpl first_fit. rewrite (proj2 (Z.leb_le 0 (Size block))) by lia.
  eexists _, _. split; [reflexivity|].
  cbn [aSize UsedBlocks FreeBlocks]. split; [reflexivity|]. split; [reflexivity|].
  pose proof (allocate_free_list_Permutation (block :: rest) 0 block 0 eq_refl) as Hp.
  unfold tail_block in Hp. rewrite (sum_sizes_Permutation _ _ Hp).
  rewrite sum_sizes_app. simpl.
  destruct (0 <? Size block) eqn:E; simpl.
  - rewrite Z.sub_0_r, wrap64_small by (unfold is_u64; lia). lia.
  - apply Z.ltb_ge in E. lia.
Qed.

Lemma Allocate_zero_size_witness :
  Forall (fun b => is_u64 (Size b)) (FreeBlocks pool_256MiB) /\
  exists mp' alloc,
    MemoryPool_Allocate 1 pool_256MiB 0 = (mp', Ok alloc) /\
    aSize alloc = 0 /\
    UsedBlocks mp' = UsedBlocks pool_256MiB ++ [mkBlock 0 0 true] /\
    sum_sizes (FreeBlocks mp') = sum_sizes (FreeBlocks pool_256MiB).
Proof.
  assert (H : Forall (fun b => is_u64 (Size b)) (FreeBlocks pool_256MiB)).
  { repeat constructor; simpl; lia. }
  split; [exact H|]. exact (Allocate_zero_size 1 pool_256MiB H).
Defined.

(** C6 fails as stated: on the pool [createPool] makes, Allocate(0) returns
    no error and appends a zero-size used block. *)
Lemma Allocate_zero_size_succeeds :
  exists mp' alloc,
    MemoryPool_Allocate 1 pool_256MiB 0 = (mp', Ok alloc) /\
    aSize alloc = 0 /\
    UsedBlocks mp' = [mkBlock 0 0 true] /\
    mp' <> pool_256MiB.
Proof.
  eexists _, _. split; [reflexivity|]. repeat split. discriminate.
Qed.

(** ** MemoryPool.Free *)

(** C1, the code at the failing input. With two live allocations, at
    offsets 0 and 65536, freeing the second one removes the used block at
    offset 0, which belongs to the first, and keeps the block at 65536 in
    use; freeing the first one afterwards, which was never freed, returns
    the not-found error. *)
Theorem Free_removes_the_offset_zero_block :
  UsedBlocks (fst after_first) = [mkBlock 0 65536 true] /\
  UsedBlocks (fst after_second) = [mkBlock 0 65536 true; mkBlock 65536 65536 true] /\
  MemoryPool_Free (fst after_second) (returned after_second) =
    (mkPool 268435456 268435456 0 1 65536
            [mkBlock 131072 268304384 false; mkBlock 0 65536 false]
            [mkBlock 65536 65536 true],
     Ok tt) /\
  snd (MemoryPool_Free (fst (MemoryPool_Free (fst after_second) (returned after_second)))
                       (returned after_first))
  = Err ErrNotFoundInPool.
Proof. repeat split; reflexivity. Qed.

(** C2, the code at the failing input. After Allocate(10000) and a
    successful Free on the fresh pool, the free list holds the two blocks
    [65536, 268435456) and [0, 65536), which are adjacent by offset: nothing
    merges them. *)
Theorem Free_leaves_adjacent_free_blocks :
  MemoryPool_Free (fst after_first) (returned after_first) =
    (mkPool 268435456 268435456 0 1 65536
            [mkBlock 65536 268369920 false; mkBlock 0 65536 false] [],
     Ok tt) /\
  exists a b,
    a ∈ FreeBlocks (fst (MemoryPool_Free (fst after_first) (returned after_first))) /\
    b ∈ FreeBlocks (fst (MemoryPool_Free (fst after_first) (returned after_first))) /\
    a <> b /\ adjacent a b.
Proof.
  split; [reflexivity|].
  exists (mkBlock 0 65536 false), (mkBlock 65536 268369920 false).
  split; [|split; [|split]].
  - change (mkBlock 0 65536 false ∈
            [mkBlock 65536 268369920 false; mkBlock 0 65536 false]).
    apply list_elem_of_In. simpl. auto.
  - change (mkBlock 65536 268369920 false ∈
            [mkBlock 65536 268369920 false; mkBlock 0 65536 false]).
    apply list_elem_of_In. simpl. auto.
  - discriminate.
  - reflexivity.
Qed.

(** C4, the code at the failing input. Allocate(10000) followed at once by
    Free on the returned handle does not bring the fresh pool back: the used
    list is empty again, but the free list is split in two blocks. *)
Theorem Allocate_then_Free_splits_the_pool :
  initial_pool pool_256MiB /\
  0 < 10000 <= pSize pool_256MiB /\
  pool_run 1 [OpAllocate 10000; OpFree (returned after_first)] pool_256MiB =
    mkPool 268435456 268435456 0 1 65536
           [mkBlock 65536 268369920 false; mkBlock 0 65536 false] [] /\
  pool_run 1 [OpAllocate 10000; OpFree (returned after_first)] pool_256MiB
  <> pool_256MiB.
Proof.
  split; [|split; [|split]].
  - unfold initial_pool, is_u64. simpl. repeat split; lia.
  - simpl. lia.
  - reflexivity.
  - discriminate.
Qed.

(** ** Pool statistics *)

(** C9. In every pool state reached from a freshly created pool by calls of
    Allocate and Free, the free and the used block sizes add up to the
    pool's Size; so the FreeSize of GetStats, Size minus the used sizes, is
    the number of free bytes. *)
Theorem pool_bytes_are_conserved self mp0 ops :
  initial_pool mp0 ->
  let mp := pool_run self ops mp0 in
  sum_sizes (FreeBlocks mp) + sum_sizes (UsedBlocks mp) = pSize mp /\
  UsedSize (MemoryPool_GetStats mp) = sum_sizes (UsedBlocks mp) /\
  FreeSize (MemoryPool_GetStats mp) = pSize mp - sum_sizes (UsedBlocks mp) /\
  FreeSize (MemoryPool_GetStats mp) = sum_sizes (FreeBlocks mp).
Proof.
  intros Hinit mp.
  destruct (pool_run_inv self ops mp0 (initial_pool_inv _ Hinit))
    as (Hu & Hf & Hus & Hsum).
  fold mp in Hu, Hf, Hus, Hsum.
  pose proof (sum_sizes_nonneg _ Hf) as Hfn.
  pose proof (sum_sizes_nonneg _ Hus) as Hun.
  unfold is_u64 in Hu.
  assert (Hloop : used_size_loop (UsedBlocks mp) = sum_sizes (UsedBlocks mp)).
  { unfold used_size_loop. rewrite used_size_loop_acc by (try assumption; lia). lia. }
  unfold MemoryPool_GetStats. simpl. rewrite Hloop.
  rewrite wrap64_small by (unfold is_u64; lia).
  repeat split; lia.
Qed.

Lemma pool_bytes_are_conserved_witness :
  initial_pool pool_256MiB /\
  FreeSize (MemoryPool_GetStats
              (pool_run 1 [OpAllocate 10000; OpAllocate 70000; OpFree None] pool_256MiB))
  = sum_sizes (FreeBlocks
              (pool_run 1 [OpAllocate 10000; OpAllocate 70000; OpFree None] pool_256MiB)).
Proof.
  assert (H : initial_pool pool_256MiB).
  { unfold initial_pool, is_u64. simpl. repeat split; lia. }
  split; [exact H|].
  apply (pool_bytes_are_conserved 1 pool_256MiB
           [OpAllocate 10000; OpAllocate 70000; OpFree None] H).
Defined.

(** ** Memory-type resolution *)

Lemma usage_flags_table createInfo :
  usage_flags createInfo = (required_of createInfo, preferred_of createInfo).
Proof.
  unfold usage_flags, required_of, preferred_of, usage_table.
  repeat (case_decide as Hd; [rewrite Hd; simpl; rewrite ?Z.lor_0_r; reflexivity |
          apply Z.eqb_neq in Hd; rewrite Hd; clear Hd]).
  simpl. rewrite !Z.lor_0_r. reflexivity.
Qed.

Lemma has_flags_superset flags wanted :
  has_flags flags wanted = true <-> superset flags wanted.
Proof.
  unfold has_flags, superset. rewrite Z.eqb_eq. split.
  - intros H n Hn Hw. rewrite <- H, Z.land_spec in Hw.
    apply andb_true_iff in Hw. apply Hw.
  - intros H. apply Z.bits_inj'. intros n Hn. rewrite Z.land_spec.
    destruct (Z.testbit wanted n) eqn:E.
    + rewrite (H n Hn E). reflexivity.
    + apply andb_false_r.
Qed.

Lemma type_bit_set_enabled bits i :
  0 <= i -> type_bit_set bits i = true <-> enabled_in bits i.
Proof.
  intros Hi. unfold type_bit_set, enabled_in, wrap32.
  rewrite Z.shiftl_1_l, negb_true_iff, Z.eqb_neq.
  destruct (Z_lt_le_dec i 32) as [Hlt|Hge].
  - rewrite Z.mod_small
      by (split; [apply Z.pow_nonneg; lia | apply Z.pow_lt_mono_r; lia]).
    split.
    + intros H. split; [lia|].
      destruct (Z.testbit bits i) eqn:E; [reflexivity|]. exfalso. apply H.
      apply Z.bits_inj'. intros n Hn.
      rewrite Z.land_spec, Z.bits_0, Z.pow2_bits_eqb by lia.
      destruct (Z.eqb_spec i n) as [->|]; [rewrite E|]; auto using andb_false_r.
    + intros [_ Hb] H0.
      assert (Ht : Z.testbit (Z.land bits (2 ^ i)) i = true)
        by (rewrite Z.land_spec, Hb, Z.pow2_bits_true by lia; reflexivity).
      rewrite H0, Z.bits_0 in Ht. discriminate.
  - replace (2 ^ i mod 2 ^ 32) with 0.
    + rewrite Z.land_0_r. split; [congruence | intros [? _]; lia].
    + symmetry. apply Z.mod_divide; [lia|].
      exists (2 ^ (i - 32)). rewrite <- Z.pow_add_r by lia. f_equal. lia.
Qed.

(** A scan over tests that decide [P] without panicking returns the
    smallest index of the range that satisfies [P]. *)
Lemma scan_types_smallest (test : Z -> res bool) (P : Z -> Prop) n i0 :
  (forall i, i0 <= i < i0 + Z.of_nat n ->
     (test i = Ok true /\ P i) \/ (test i = Ok false /\ ~ P i)) ->
  (exists i, scan_types test n i0 = Ok (Some i) /\
             i0 <= i < i0 + Z.of_nat n /\ P i /\
             forall j, i0 <= j < i -> ~ P j)
  \/ (scan_types test n i0 = Ok None /\
      forall j, i0 <= j < i0 + Z.of_nat n -> ~ P j).
Proof.
  revert i0. induction n as [|n IH]; intros i0 Hdec.
  - right. split; [reflexivity | intros j Hj; lia].
  - simpl scan_types.
    destruct (Hdec i0 ltac:(lia)) as [[-> HP] | [-> HnP]].
    + left. exists i0.
      split; [reflexivity|]. split; [lia|]. split; [exact HP|]. intros j Hj; lia.
    + destruct (IH (i0 + 1)) as [(i & Hs & Hr & HP & Hmin) | (Hs & Hnone)].
      * intros i Hi. apply Hdec. lia.
      * left. exists i.
        split; [exact Hs|]. split; [lia|]. split; [exact HP|].
        intros j Hj. destruct (Z.eq_dec j i0) as [->|]; [exact HnP | apply Hmin; lia].
      * right. split; [exact Hs|]. intros j Hj.
        destruct (Z.eq_dec j i0) as [->|]; [exact HnP | apply Hnone; lia].
Qed.

Lemma first_pass_test_decides memProps requirements req pref i :
  0 <= i < MemoryTypeCount memProps ->
  let P := suitable memProps requirements [req; pref] in
  (first_pass_test memProps (MemoryTypeBits requirements) req pref i = Ok true /\ P i)
  \/ (first_pass_test memProps (MemoryTypeBits requirements) req pref i = Ok false /\ ~ P i).
Proof.
  intros Hi P. unfold first_pass_test, P, suitable.
  destruct (type_bit_set (MemoryTypeBits requirements) i) eqn:E.
  - apply type_bit_set_enabled in E as Hen; [|lia].
    unfold MemoryTypes_at. rewrite (proj2 (Z.ltb_lt i 32)) by (apply Hen).
    fold (flags_of_type memProps i).
    destruct (has_flags (flags_of_type memProps i) req) eqn:E1;
      [destruct (has_flags (flags_of_type memProps i) pref) eqn:E2|]; simpl.
    + left. split; [reflexivity|]. repeat split; try lia; [apply Hen | apply Hen |].
      repeat constructor; apply has_flags_superset; assumption.
    + right. split; [reflexivity|]. intros (_ & _ & Hall).
      apply Forall_cons in Hall as [_ Hall]. apply Forall_cons in Hall as [Hp _].
      apply has_flags_superset in Hp. congruence.
    + right. split; [reflexivity|]. intros (_ & _ & Hall).
      apply Forall_cons in Hall as [Hr _].
      apply has_flags_superset in Hr. congruence.
  - right. split; [reflexivity|]. intros (_ & Hen & _).
    apply type_bit_set_enabled in Hen; [congruence | lia].
Qed.

Lemma second_pass_test_decides memProps requirements req i :
  0 <= i < MemoryTypeCount memProps ->
  let P := suitable memProps requirements [req] in
  (second_pass_test memProps (MemoryTypeBits requirements) req i = Ok true /\ P i)
  \/ (second_pass_test memProps (MemoryTypeBits requirements) req i = Ok false /\ ~ P i).
Proof.
  intros Hi P. unfold second_pass_test, P, suitable.
  destruct (type_bit_set (MemoryTypeBits requirements) i) eqn:E.
  - apply type_bit_set_enabled in E as Hen; [|lia].
    unfold MemoryTypes_at. rewrite (proj2 (Z.ltb_lt i 32)) by (apply Hen).
    fold (flags_of_type memProps i).
    destruct (has_flags (flags_of_type memProps i) req) eqn:E1; simpl.
    + left. split; [reflexivity|]. repeat split; try lia; [apply Hen | apply Hen |].
      repeat constructor; apply has_flags_superset; assumption.
    + right. split; [reflexivity|]. intros (_ & _ & Hall).
      apply Forall_cons in Hall as [Hr _].
      apply has_flags_superset in Hr. congruence.
  - right. split; [reflexivity|]. intros (_ & Hen & _).
    apply type_bit_set_enabled in Hen; [congruence | lia].
Qed.

(** C7. findMemoryType unions the flags of the usage table with the explicit
    RequiredFlags and PreferredFlags; it returns the smallest index enabled
    in MemoryTypeBits whose flags contain the required and the preferred
    flags; if there is none, the smallest such index whose flags contain the
    required flags; and if there is none either, the no-suitable-memory-type
    error. *)
Theorem findMemoryType_resolves memProps requirements createInfo :
  resolves memProps requirements createInfo
           (findMemoryType memProps requirements createInfo).
Proof.
  unfold findMemoryType. rewrite usage_flags_table.
  set (n := Z.to_nat (MemoryTypeCount memProps)).
  assert (Hn : forall i, 0 <= i < 0 + Z.of_nat n <-> 0 <= i < MemoryTypeCount memProps)
    by (intros i; unfold n; lia).
  destruct (scan_types_smallest
              (first_pass_test memProps (MemoryTypeBits requirements)
                 (required_of createInfo) (preferred_of createInfo))
              (suitable memProps requirements
                 [required_of createInfo; preferred_of createInfo]) n 0)
    as [(i & -> & Hr & HP & Hmin) | (-> & Hnone1)].
  { intros i Hi. apply first_pass_test_decides, Hn, Hi. }
  { apply resolves_first_pass. split; [exact HP|].
    intros j Hj. destruct (Z_lt_le_dec j i) as [Hlt|]; [|lia].
    exfalso. apply (Hmin j); [destruct Hj; lia | exact Hj]. }
  assert (Hno1 : forall j, ~ suitable memProps requirements
                     [required_of createInfo; preferred_of createInfo] j).
  { intros j Hj. apply (Hnone1 j); [apply Hn, Hj | exact Hj]. }
  destruct (scan_types_smallest
              (second_pass_test memProps (MemoryTypeBits requirements)
                 (required_of createInfo))
              (suitable memProps requirements [required_of createInfo]) n 0)
    as [(i & -> & Hr & HP & Hmin) | (-> & Hnone2)].
  { intros i Hi. apply second_pass_test_decides, Hn, Hi. }
  { apply resolves_second_pass; [exact Hno1|]. split; [exact HP|].
    intros j Hj. destruct (Z_lt_le_dec j i) as [Hlt|]; [|lia].
    exfalso. apply (Hmin j); [destruct Hj; lia | exact Hj]. }
  apply resolves_none. intros j Hj. apply (Hnone2 j); [apply Hn, Hj | exact Hj].
Qed.

Lemma scan_types_found test n i0 i :
  scan_types test n i0 = Ok (Some i) ->
  i0 <= i < i0 + Z.of_nat n /\ test i = Ok true.
Proof.
  revert i0. induction n as [|n IH]; intros i0 H; simpl in H; [discriminate|].
  destruct (test i0) as [[|]| |] eqn:E; try discriminate.
  - inversion H; subst. split; [lia | exact E].
  - apply IH in H. split; [lia | apply H].
Qed.

Lemma pass_test_true_index memProps bits req pref i :
  0 <= i ->
  first_pass_test memProps bits req pref i = Ok true \/
  second_pass_test memProps bits req i = Ok true ->
  i < 32.
Proof.
  intros Hi H. unfold first_pass_test, second_pass_test in H.
  destruct (type_bit_set bits i) eqn:E.
  - apply type_bit_set_enabled in E; [apply E | lia].
  - destruct H; discriminate.
Qed.

Lemma findMemoryType_index_range memProps requirements createInfo i :
  findMemoryType memProps requirements createInfo = Ok i ->
  0 <= i < 32 /\ i < MemoryTypeCount memProps.
Proof.
  unfold findMemoryType. destruct (usage_flags createInfo) as [req pref].
  intros H.
  destruct (scan_types (first_pass_test _ _ _ _) _ 0) as [[i1|]| |] eqn:E1;
    try discriminate.
  - inversion H; subst. apply scan_types_found in E1 as [Hr Ht].
    pose proof (pass_test_true_index _ _ _ _ _ (proj1 Hr) (or_introl Ht)). lia.
  - destruct (scan_types (second_pass_test _ _ _) _ 0) as [[i2|]| |] eqn:E2;
      try discriminate.
    inversion H; subst. apply scan_types_found in E2 as [Hr Ht].
    pose proof (pass_test_true_index _ _ _ pref _ (proj1 Hr) (or_intror Ht)). lia.
Qed.

(** ** The allocator's table *)

Lemma wrap64_add_l x y : wrap64 (wrap64 x + y) = wrap64 (x + y).
Proof. unfold wrap64. apply Zplus_mod_idemp_l. Qed.

Lemma wrap64_sub_l x y : wrap64 (wrap64 x - y) = wrap64 (x - y).
Proof. unfold wrap64. apply Zminus_mod_idemp_l. Qed.

Lemma sum_map_insert (m : gmap Z Z) k v :
  m !! k = None -> sum_map (<[k := v]> m) = v + sum_map m.
Proof.
  intros H. unfold sum_map. rewrite map_fold_insert_L; [reflexivity | | exact H].
  intros. lia.
Qed.

Lemma sum_map_delete (m : gmap Z Z) k v :
  m !! k = Some v -> sum_map (delete k m) = sum_map m - v.
Proof.
  intros H. unfold sum_map.
  rewrite (map_fold_delete_L _ _ k v m); [lia | | exact H].
  intros. lia.
Qed.

(** The sum of the table only depends on the sizes of the objects the
    table points to. *)
Lemma table_sum_ext w w' :
  allocations (ma w') = allocations (ma w) ->
  (forall k p, allocations (ma w) !! k = Some p -> entry_size w' p = entry_size w p) ->
  table_sum w' = table_sum w.
Proof.
  intros Ht He. unfold table_sum. rewrite Ht. f_equal.
  apply map_fmap_ext. intros k p Hk. eapply He, Hk.
Qed.

Lemma table_ok_fresh w :
  table_ok w -> allocations (ma w) !! next_addr w = None /\ allocs w !! next_addr w = None.
Proof.
  intros (Hk & Hs & _). split.
  - destruct (allocations (ma w) !! next_addr w) as [p|] eqn:E; [|reflexivity].
    apply Hk in E as [_ Hin]. apply Hs in Hin. lia.
  - destruct (allocs w !! next_addr w) as [obj|] eqn:E; [|reflexivity].
    specialize (Hs (next_addr w) (ex_intro _ obj E)). lia.
Qed.

Lemma register_table_ok w obj :
  table_ok w ->
  table_ok (fst (register w obj)) /\
  size (allocations (ma (fst (register w obj)))) = S (size (allocations (ma w))).
Proof.
  intros Hok. destruct (table_ok_fresh w Hok) as [Hft Hfa].
  destruct Hok as (Hk & Hs & Ht & Hm).
  set (w' := fst (register w obj)).
  assert (Hnew : entry_size w' (next_addr w) = aSize obj).
  { unfold entry_size, w'. simpl. rewrite lookup_insert_eq. reflexivity. }
  assert (Hold : forall k p, allocations (ma w) !! k = Some p ->
                             entry_size w' p = entry_size w p).
  { intros k p Hkp. unfold entry_size, w'. simpl.
    rewrite lookup_insert_ne; [reflexivity|].
    intros Heq. subst p. apply Hk in Hkp as [<- Hin].
    rewrite Hfa in Hin. destruct Hin; discriminate. }
  assert (Hsum : table_sum w' = aSize obj + table_sum w).
  { unfold table_sum. change (allocations (ma w'))
      with (<[next_addr w := next_addr w]> (allocations (ma w))).
    rewrite fmap_insert, Hnew.
    rewrite sum_map_insert by (rewrite lookup_fmap, Hft; reflexivity).
    f_equal. f_equal. apply map_fmap_ext. exact Hold. }
  split.
  - split; [|split; [|split]].
    + intros k p. unfold w'. simpl. rewrite lookup_insert. case_decide as Hd.
      * intros [= Hp]. subst p k. split; [reflexivity|].
        rewrite lookup_insert_eq. eauto.
      * intros Hkp. apply Hk in Hkp as [-> Hin]. split; [reflexivity|].
        rewrite lookup_insert_ne by exact Hd. exact Hin.
    + intros a. unfold w'. simpl. rewrite lookup_insert. case_decide as Hd; [lia|].
      intros Hin. apply Hs in Hin. lia.
    + rewrite Hsum. unfold w'. simpl. rewrite Ht, wrap64_add_l. f_equal. lia.
    + exact Hm.
  - unfold w'. simpl. apply map_size_insert_None, Hft.
Qed.

(** Updates of the pool store and of the pool list leave the table as
    it is. *)
Lemma table_ok_same_table w w' :
  table_ok w ->
  allocs w' = allocs w -> allocations (ma w') = allocations (ma w) ->
  totalAllocated (ma w') = totalAllocated (ma w) ->
  maxAllocations (ma w') = maxAllocations (ma w) ->
  next_addr w <= next_addr w' ->
  table_ok w'.
Proof.
  intros (Hk & Hs & Ht & Hm) Ha Htab Htot Hmax Hn.
  split; [|split; [|split]].
  - rewrite Htab, Ha. exact Hk.
  - rewrite Ha. intros a Hin. apply Hs in Hin. lia.
  - rewrite Htot, Ht. f_equal. symmetry. apply table_sum_ext; [exact Htab|].
    intros. unfold entry_size. rewrite Ha. reflexivity.
  - congruence.
Qed.

Lemma set_pool_table_ok w pp mp : table_ok w -> table_ok (set_pool w pp mp).
Proof. intros H. eapply table_ok_same_table; [exact H | reflexivity..| simpl; lia]. Qed.

Lemma add_pool_table_ok w mp : table_ok w -> table_ok (fst (add_pool w mp)).
Proof. intros H. eapply table_ok_same_table; [exact H | reflexivity..| simpl; lia]. Qed.

Lemma register_one_more w obj w' a :
  table_ok w -> register w obj = (w', a) -> one_more w w'.
Proof.
  intros Hok E. pose proof (register_table_ok w obj Hok) as H.
  rewrite E in H. exact H.
Qed.

Lemma allocate_from_cases w pp size :
  table_ok w -> pool_attempt w (allocate_from w pp size).
Proof.
  intros Hok. unfold allocate_from, pool_attempt.
  destruct (poolsto w !! pp) as [mp|]; [|left; split; [reflexivity | discriminate]].
  destruct (MemoryPool_Allocate pp mp size) as [mp' [obj| |]];
    [|left; split; [reflexivity | discriminate]..].
  destruct (register (set_pool w pp mp') obj) as [w' a] eqn:E.
  right. cbn [fst snd]. split; [|eauto].
  apply register_one_more in E; [|apply set_pool_table_ok, Hok].
  exact E.
Qed.

Lemma try_pools_cases w ps memoryType size :
  table_ok w -> pool_attempt w (try_pools w ps memoryType size).
Proof.
  intros Hok. induction ps as [|pp rest IH]; simpl.
  { left. split; [reflexivity | discriminate]. }
  destruct (poolsto w !! pp) as [mp|]; [|left; split; [reflexivity | discriminate]].
  destruct (pTypeIndex mp =? memoryType); [|exact IH].
  destruct (allocate_from_cases w pp size Hok) as [[Hsame Hno]|[Hmore [a Ha]]].
  - destruct (allocate_from w pp size) as [w' r]. cbn [fst snd] in Hsame, Hno. subst w'.
    destruct r as [[a|]| |]; [exfalso; eapply Hno; reflexivity | exact IH | ..];
      left; split; [reflexivity | discriminate | reflexivity | discriminate].
  - destruct (allocate_from w pp size) as [w' r]. cbn [fst snd] in Hmore, Ha. subst r.
    right. split; [exact Hmore | eauto].
Qed.

Lemma allocate_by_type_cases memProps w requirements createInfo :
  table_ok w ->
  same_count w (fst (allocate_by_type memProps w requirements createInfo))
  \/ one_more w (fst (allocate_by_type memProps w requirements createInfo)).
Proof.
  intros Hok. assert (Hrefl : same_count w w) by (split; [exact Hok | reflexivity]).
  unfold allocate_by_type.
  destruct (findMemoryType memProps requirements createInfo) as [memoryType|e|];
    [|left; exact Hrefl..].
  destruct (try_pools_cases w (pools (ma w)) memoryType (rSize requirements) Hok)
    as [[Hsame Hno]|[Hmore [a Ha]]];
    destruct (try_pools w (pools (ma w)) memoryType (rSize requirements)) as [w1 r];
    cbn [fst snd] in *.
  2:{ subst r. right. exact Hmore. }
  subst w1. destruct r as [[a|]|e|]; [exfalso; eapply Hno; reflexivity | | left; exact Hrefl..].
  destruct (64 * 1024 * 1024 <? rSize requirements).
  - destruct (allocateDirect memProps (rSize requirements) memoryType) as [obj|e|];
      [|left; exact Hrefl..].
    destruct (register w obj) as [w2 a] eqn:E. right. cbn [fst snd].
    eapply register_one_more; [exact Hok | exact E].
  - destruct (createPool memProps memoryType (256 * 1024 * 1024)) as [mp|e|];
      [|left; exact Hrefl..].
    pose proof (add_pool_table_ok w mp Hok) as Hadd.
    destruct (add_pool w mp) as [w2 pp] eqn:Eadd. cbn [fst] in Hadd.
    assert (Hcount : size (allocations (ma w2)) = size (allocations (ma w)))
      by (unfold add_pool in Eadd; inversion Eadd; reflexivity).
    destruct (MemoryPool_Allocate pp mp (rSize requirements)) as [mp' [obj|e|]];
      [|left; split; [exact Hadd | exact Hcount]..].
    destruct (register (set_pool w2 pp mp') obj) as [w3 a] eqn:E. right. cbn [fst snd].
    apply register_one_more in E; [|apply set_pool_table_ok, Hadd].
    destruct E as [Hok3 Hs3]. split; [exact Hok3|]. rewrite Hs3. simpl. congruence.
Qed.

Lemma table_count_u32 w :
  (size (allocations (ma w)) <= 4096)%nat ->
  wrap32 (Z.of_nat (size (allocations (ma w)))) = Z.of_nat (size (allocations (ma w))).
Proof. intros H. unfold wrap32. apply Z.mod_small. lia. Qed.

Lemma MemoryAllocator_Allocate_inv memProps w requirements createInfo :
  table_ok w -> (size (allocations (ma w)) <= 4096)%nat ->
  table_ok (fst (MemoryAllocator_Allocate memProps w requirements createInfo)) /\
  (size (allocations
           (ma (fst (MemoryAllocator_Allocate memProps w requirements createInfo))))
   <= 4096)%nat.
Proof.
  intros Hok Hsz. unfold MemoryAllocator_Allocate.
  rewrite table_count_u32 by exact Hsz.
  pose proof Hok as (Hk & Hs & Ht & Hm). rewrite Hm.
  destruct (4096 <=? Z.of_nat (size (allocations (ma w)))) eqn:E;
    [split; assumption|].
  apply Z.leb_gt in E.
  assert (Hstep : forall w', same_count w w' \/ one_more w w' ->
            table_ok w' /\ (size (allocations (ma w')) <= 4096)%nat).
  { intros w' [[H1 H2]|[H1 H2]]; (split; [exact H1 | lia]). }
  destruct (ciPool createInfo) as [pp|];
    [|apply Hstep, allocate_by_type_cases, Hok].
  destruct (allocate_from_cases w pp (rSize requirements) Hok)
    as [[Hsame Hno]|[Hmore [a Ha]]];
    destruct (allocate_from w pp (rSize requirements)) as [w1 r]; cbn [fst snd] in *.
  - subst w1. destruct r as [[a|]|e|];
      [exfalso; eapply Hno; reflexivity | | split; assumption..].
    apply Hstep, allocate_by_type_cases, Hok.
  - subst r. apply Hstep. right. exact Hmore.
Qed.

Lemma MemoryAllocator_Unmap_table_ok w a :
  table_ok w ->
  table_ok (fst (MemoryAllocator_Unmap w a)) /\
  ma (fst (MemoryAllocator_Unmap w a)) = ma w /\
  (forall obj, allocs w !! a = Some obj ->
     exists obj', allocs (fst (MemoryAllocator_Unmap w a)) !! a = Some obj' /\
                  aSize obj' = aSize obj /\ Pool obj' = Pool obj).
Proof.
  intros Hok. unfold MemoryAllocator_Unmap.
  destruct (allocs w !! a) as [obj|] eqn:Ea;
    [|split; [exact Hok | split; [reflexivity | discriminate]]].
  destruct (Mapped obj) as [m|]; cbn [fst];
    [|split; [exact Hok | split; [reflexivity | intros ? [= <-]; eauto]]].
  split; [|split; [reflexivity|]].
  - destruct Hok as (Hk & Hs & Ht & Hm). split; [|split; [|split]]; simpl.
    + intros k p Hkp. apply Hk in Hkp as [-> Hin]. split; [reflexivity|].
      rewrite lookup_insert. case_decide; [eauto | exact Hin].
    + intros b. rewrite lookup_insert. case_decide as Hd; [|apply Hs].
      intros _. subst b. apply Hs. eauto.
    + rewrite Ht. f_equal. symmetry. apply table_sum_ext; [reflexivity|].
      intros k p _. unfold entry_size. simpl. rewrite lookup_insert.
      case_decide as Hd; [subst p; rewrite Ea |]; reflexivity.
    + exact Hm.
  - intros obj0 [= <-]. cbn [allocs]. rewrite lookup_insert_eq. eexists.
    split; [reflexivity|]. split; reflexivity.
Qed.

Lemma free_in_pool_table_ok w pp obj :
  table_ok w ->
  table_ok (fst (free_in_pool w pp obj)) /\
  allocations (ma (fst (free_in_pool w pp obj))) = allocations (ma w).
Proof.
  intros Hok. unfold free_in_pool.
  destruct (poolsto w !! pp) as [mp|]; [|split; [exact Hok | reflexivity]].
  destruct (MemoryPool_Free mp (Some obj)) as [mp' r]. simpl.
  split; [apply set_pool_table_ok, Hok | reflexivity].
Qed.

Lemma MemoryAllocator_Free_inv w allocation :
  table_ok w ->
  table_ok (fst (MemoryAllocator_Free w allocation)) /\
  (size (allocations (ma (fst (MemoryAllocator_Free w allocation))))
   <= size (allocations (ma w)))%nat.
Proof.
  intros Hok. unfold MemoryAllocator_Free, freeAllocationUnsafe.
  destruct allocation as [a|]; [|split; [exact Hok | cbn [fst]; lia]].
  destruct (MemoryAllocator_Unmap_table_ok w a Hok) as (Hok1 & Hma & Hobj).
  destruct (MemoryAllocator_Unmap w a) as [w1 r]. simpl in Hok1, Hma, Hobj.
  assert (Hsz : size (allocations (ma w1)) = size (allocations (ma w)))
    by (rewrite Hma; reflexivity).
  destruct r as [u|e|]; [|split; [exact Hok1 | cbn [fst]; lia]..].
  destruct (allocs w1 !! a) as [obj|] eqn:Ea; [|split; [exact Hok1 | cbn [fst]; lia]].
  destruct (allocations (ma w1) !! a) as [p|] eqn:Et; [|split; [exact Hok1 | cbn [fst]; lia]].
  set (w2 := mkWorld _ _ _ _).
  assert (Hok2 : table_ok w2).
  { destruct Hok1 as (Hk & Hs & Ht & Hm). split; [|split; [|split]]; simpl.
    - intros k q Hkq. apply lookup_delete_Some in Hkq as [_ Hkq]. apply Hk, Hkq.
    - exact Hs.
    - rewrite Ht, wrap64_sub_l. f_equal. unfold table_sum. simpl.
      rewrite fmap_delete.
      rewrite (sum_map_delete _ a (entry_size w1 p))
        by (rewrite lookup_fmap, Et; reflexivity).
      replace (entry_size w2 <$> allocations (ma w1))
        with (entry_size w1 <$> allocations (ma w1)) by reflexivity.
      apply Hk in Et as [-> _].
      assert (He : entry_size w1 a = aSize obj)
        by (unfold entry_size; rewrite Ea; reflexivity).
      rewrite He. reflexivity.
    - exact Hm. }
  assert (Hsz2 : (size (allocations (ma w2)) <= size (allocations (ma w)))%nat).
  { unfold w2. simpl. rewrite map_size_delete_Some by eauto. lia. }
  destruct (Pool obj) as [pp|]; [|split; [exact Hok2 | exact Hsz2]].
  destruct (free_in_pool_table_ok w2 pp obj Hok2) as [Hok3 Heq3].
  split; [exact Hok3 | rewrite Heq3; exact Hsz2].
Qed.

Lemma new_world_table_ok w :
  new_world w -> table_ok w /\ size (allocations (ma w)) = 0%nat.
Proof.
  intros (Hma & Ha & _). unfold table_ok, table_sum. rewrite Hma. simpl.
  split; [|reflexivity]. split; [|split; [exact Ha | split; reflexivity]].
  intros k p Hkp. rewrite lookup_empty in Hkp. discriminate.
Qed.

Lemma reachable_table_ok memProps w :
  reachable memProps w ->
  table_ok w /\ (size (allocations (ma w)) <= 4096)%nat.
Proof.
  induction 1 as [w Hnew | w requirements createInfo _ [Hok Hsz]
                  | w allocation _ [Hok Hsz]].
  - destruct (new_world_table_ok w Hnew) as [Hok Hsz]. split; [exact Hok | lia].
  - apply MemoryAllocator_Allocate_inv; assumption.
  - destruct (MemoryAllocator_Free_inv w allocation Hok) as [Hok' Hle].
    split; [exact Hok' | lia].
Qed.

Lemma ma_run_reachable memProps ops w :
  reachable memProps w -> reachable memProps (ma_run memProps ops w).
Proof.
  revert w. induction ops as [|op ops IH]; intros w H; simpl; [exact H|].
  apply IH. destruct op; simpl; [apply reachable_Allocate | apply reachable_Free];
    exact H.
Qed.

Lemma empty_world_new : new_world empty_world.
Proof.
  split; [reflexivity|]. split; intros a [x Hx]; simpl in Hx;
    rewrite lookup_empty in Hx; discriminate.
Qed.

(** ** MemoryAllocator: conservation and the allocation cap *)

(** C3, as amended. In every state reached from a new allocator by calls of
    Allocate and Free, totalAllocated equals the sum of the Size fields of
    the entries of the allocations table reduced modulo 2^64 (so it is that
    sum whenever the sum fits 64 bits), and the number of entries does not
    exceed maxAllocations. *)
Theorem totalAllocated_is_the_table_sum_mod_2_64 memProps w :
  reachable memProps w ->
  totalAllocated (ma w) = wrap64 (table_sum w) /\
  (is_u64 (table_sum w) -> totalAllocated (ma w) = table_sum w) /\
  Z.of_nat (size (allocations (ma w))) <= maxAllocations (ma w).
Proof.
  intros Hr. destruct (reachable_table_ok memProps w Hr) as [(_ & _ & Ht & Hm) Hsz].
  split; [exact Ht|]. split.
  - intros Hu. rewrite Ht. apply wrap64_small, Hu.
  - rewrite Hm. lia.
Qed.

Lemma totalAllocated_is_the_table_sum_mod_2_64_witness :
  reachable example_device two_small /\
  totalAllocated (ma two_small) = wrap64 (table_sum two_small).
Proof.
  assert (H : reachable example_device two_small)
    by (apply ma_run_reachable, reachable_new, empty_world_new).
  split; [exact H|].
  exact (proj1 (totalAllocated_is_the_table_sum_mod_2_64 example_device two_small H)).
Defined.

(** C3 fails as stated: two successful direct allocations of 2^63 bytes each
    leave two entries whose sizes add up to 2^64, while totalAllocated has
    wrapped to 0. *)
Lemma totalAllocated_wraps :
  reachable example_device two_huge /\
  snd (MemoryAllocator_Allocate example_device empty_world huge_request plain_info)
    = Ok 1 /\
  snd (MemoryAllocator_Allocate example_device
         (fst (MemoryAllocator_Allocate example_device empty_world
                 huge_request plain_info))
         huge_request plain_info) = Ok 2 /\
  size (allocations (ma two_huge)) = 2%nat /\
  table_sum two_huge = 2 ^ 64 /\
  totalAllocated (ma two_huge) = 0 /\
  totalAllocated (ma two_huge) <> table_sum two_huge.
Proof.
  split; [apply ma_run_reachable, reachable_new, empty_world_new|].
  assert (Hs : table_sum two_huge = 2 ^ 64) by (vm_compute; reflexivity).
  assert (Ht : totalAllocated (ma two_huge) = 0) by (vm_compute; reflexivity).
  split; [vm_compute; reflexivity|]. split; [vm_compute; reflexivity|].
  split; [vm_compute; reflexivity|]. split; [exact Hs|]. split; [exact Ht|].
  rewrite Hs, Ht. lia.
Qed.

(** C8. Whenever the table holds at least maxAllocations entries, Allocate
    returns the maximum-number-of-allocations error, whatever the request
    and the pools, and leaves the whole state as it was. *)
Theorem Allocate_fails_at_the_cap memProps w requirements createInfo :
  reachable memProps w ->
  maxAllocations (ma w) <= Z.of_nat (size (allocations (ma w))) ->
  MemoryAllocator_Allocate memProps w requirements createInfo
  = (w, Err (ErrMaxAllocations (maxAllocations (ma w)))).
Proof.
  intros Hr Hcap. destruct (reachable_table_ok memProps w Hr) as [_ Hsz].
  unfold MemoryAllocator_Allocate. rewrite table_count_u32 by exact Hsz.
  rewrite (proj2 (Z.leb_le _ _) Hcap). reflexivity.
Qed.

Lemma Allocate_fails_at_the_cap_witness :
  reachable example_device full_table /\
  maxAllocations (ma full_table) <= Z.of_nat (size (allocations (ma full_table))) /\
  MemoryAllocator_Allocate example_device full_table small_request plain_info
  = (full_table, Err (ErrMaxAllocations (maxAllocations (ma full_table)))).
Proof.
  assert (H : reachable example_device full_table)
    by (apply ma_run_reachable, reachable_new, empty_world_new).
  assert (Hcap : maxAllocations (ma full_table)
                 <= Z.of_nat (size (allocations (ma full_table))))
    by (apply Z.leb_le; vm_compute; reflexivity).
  split; [exact H|]. split; [exact Hcap|].
  exact (Allocate_fails_at_the_cap example_device full_table
           small_request plain_info H Hcap).
Defined.

(** The default cap of a new allocator. *)
Example NewMemoryAllocator_cap : maxAllocations NewMemoryAllocator = 4096.
Proof. reflexivity. Qed.

(** ** MemoryAllocator.Free *)

(** C10, as amended. Whenever Free returns the nil-allocation error or the
    not-found-in-allocator error (the allocation is nil, or absent from the
    table: already freed or foreign), the allocations table and
    totalAllocated are left unchanged by the call. *)
Theorem Free_error_keeps_the_table w allocation w' e :
  MemoryAllocator_Free w allocation = (w', Err e) ->
  e = ErrNilAllocation \/ e = ErrNotFoundInAllocator ->
  allocations (ma w') = allocations (ma w) /\
  totalAllocated (ma w') = totalAllocated (ma w).
Proof.
  unfold MemoryAllocator_Free, freeAllocationUnsafe. intros H He.
  destruct allocation as [a|]; [|inversion H; subst; split; reflexivity].
  assert (Hun : ma (fst (MemoryAllocator_Unmap w a)) = ma w /\
                forall e0, snd (MemoryAllocator_Unmap w a) <> Err e0).
  { unfold MemoryAllocator_Unmap. destruct (allocs w !! a) as [obj|];
      [destruct (Mapped obj)|]; split; try reflexivity; discriminate. }
  destruct Hun as [Hma Hnoerr].
  destruct (MemoryAllocator_Unmap w a) as [w1 r]. cbn [fst snd] in Hma, Hnoerr.
  destruct r as [u|e0|]; [|exfalso; eapply Hnoerr; reflexivity | discriminate].
  destruct (allocs w1 !! a) as [obj|]; [|discriminate].
  destruct (allocations (ma w1) !! a) as [p|].
  - exfalso. destruct (Pool obj) as [pp|]; [|discriminate].
    unfold free_in_pool in H. cbn [poolsto] in H.
    destruct (poolsto w1 !! pp) as [mp|]; [|discriminate].
    unfold MemoryPool_Free in H.
    destruct (first_offset_zero (UsedBlocks mp) 0) as [[i b]|];
      inversion H; subst; destruct He; discriminate.
  - inversion H; subst. rewrite Hma. split; reflexivity.
Qed.

Lemma Free_error_keeps_the_table_witness :
  MemoryAllocator_Free (fst (MemoryAllocator_Free two_small (Some 2))) (Some 2)
  = (fst (MemoryAllocator_Free two_small (Some 2)), Err ErrNotFoundInAllocator) /\
  totalAllocated
    (ma (fst (MemoryAllocator_Free (fst (MemoryAllocator_Free two_small (Some 2)))
                (Some 2))))
  = totalAllocated (ma (fst (MemoryAllocator_Free two_small (Some 2)))).
Proof.
  assert (H : MemoryAllocator_Free (fst (MemoryAllocator_Free two_small (Some 2)))
                (Some 2)
              = (fst (MemoryAllocator_Free two_small (Some 2)),
                 Err ErrNotFoundInAllocator))
    by (vm_compute; reflexivity).
  split; [exact H|].
  rewrite H at 1.
  exact (proj2 (Free_error_keeps_the_table _ _ _ _ H (or_intror eq_refl))).
Defined.

(** C10 fails as stated: with two live pooled allocations, at addresses 2
    and 3, Free of the first succeeds and Free of the second then returns
    the pool's not-found error after its table entry was deleted and its
    size subtracted. *)
Lemma Free_error_after_table_update :
  snd (MemoryAllocator_Free two_small (Some 2)) = Ok tt /\
  allocations (ma (fst (MemoryAllocator_Free two_small (Some 2)))) !! 3 = Some 3 /\
  totalAllocated (ma (fst (MemoryAllocator_Free two_small (Some 2)))) = 65536 /\
  snd (MemoryAllocator_Free (fst (MemoryAllocator_Free two_small (Some 2))) (Some 3))
    = Err ErrNotFoundInPool /\
  allocations
    (ma (fst (MemoryAllocator_Free (fst (MemoryAllocator_Free two_small (Some 2)))
                (Some 3)))) !! 3 = None /\
  totalAllocated
    (ma (fst (MemoryAllocator_Free (fst (MemoryAllocator_Free two_small (Some 2)))
                (Some 3)))) = 0.
Proof. repeat split; vm_compute; reflexivity. Qed.

(** * Further properties of the code *)

(** ** AlignUp, AlignDown, IsAligned *)

Lemma wrap64_pow2_pred k : 0 <= k < 64 -> wrap64 (2 ^ k - 1) = Z.ones k.
Proof.
  intros Hk. rewrite Z.ones_equiv.
  assert (0 < 2 ^ k) by (apply Z.pow_pos_nonneg; lia).
  assert (2 ^ k < 2 ^ 64) by (apply Z.pow_lt_mono_r; lia).
  replace (Z.pred (2 ^ k)) with (2 ^ k - 1) by lia.
  apply wrap64_small. unfold is_u64. lia.
Qed.

Lemma and_not_ones x k : 0 <= k -> and_not x (Z.ones k) = 2 ^ k * (x / 2 ^ k).
Proof.
  intros Hk. unfold and_not. rewrite Z.ldiff_ones_r by lia.
  rewrite Z.shiftl_mul_pow2, Z.shiftr_div_pow2 by lia. lia.
Qed.

Lemma alignedSize_of_AlignUp mp size :
  alignedSize_of mp size = AlignUp size (BlockSize mp).
Proof. reflexivity. Qed.

(** The rounded size is a multiple of a power-of-two granularity, wrapped
    or not. *)
Lemma AlignUp_divide size k : 0 <= k < 64 -> (2 ^ k | AlignUp size (2 ^ k)).
Proof.
  intros Hk. unfold AlignUp. rewrite wrap64_pow2_pred by exact Hk.
  rewrite and_not_ones by lia. exists (wrap64 (wrap64 (size + 2 ^ k) - 1) / 2 ^ k). lia.
Qed.

Lemma pow2_pos k : 0 <= k -> 0 < 2 ^ k.
Proof. intros. apply Z.pow_pos_nonneg; lia. Qed.

Lemma IsAligned_pow2 size k :
  0 <= k < 64 -> IsAligned size (2 ^ k) = true <-> (2 ^ k | size).
Proof.
  intros Hk. unfold IsAligned. rewrite wrap64_pow2_pred by exact Hk.
  rewrite Z.land_ones by lia. rewrite Z.eqb_eq.
  apply Z.mod_divide. pose proof (pow2_pos k). lia.
Qed.

Lemma AlignDown_pow2 size k :
  0 <= k < 64 -> AlignDown size (2 ^ k) = 2 ^ k * (size / 2 ^ k).
Proof.
  intros Hk. unfold AlignDown. rewrite wrap64_pow2_pred by exact Hk.
  apply and_not_ones. lia.
Qed.

Lemma AlignUp_pow2 size k :
  0 <= k < 64 -> 0 <= size -> size + 2 ^ k - 1 < 2 ^ 64 ->
  AlignUp size (2 ^ k) = 2 ^ k * ((size + 2 ^ k - 1) / 2 ^ k).
Proof.
  intros Hk Hs Hlt.
  apply (alignedSize_pow2 (mkPool 0 0 0 0 (2 ^ k) [] []) size k);
    simpl; solve [reflexivity | lia].
Qed.

(** AlignUp: for a power-of-two alignment and a size whose rounding does
    not wrap, the result is the least multiple of the alignment that is at
    least the size. *)
Theorem AlignUp_is_the_least_multiple size k :
  0 <= k < 64 -> 0 <= size -> size + 2 ^ k - 1 < 2 ^ 64 ->
  (2 ^ k | AlignUp size (2 ^ k)) /\
  size <= AlignUp size (2 ^ k) < size + 2 ^ k /\
  forall m, (2 ^ k | m) -> size <= m -> AlignUp size (2 ^ k) <= m.
Proof.
  intros Hk Hs Hlt. pose proof (pow2_pos k ltac:(lia)) as Hp.
  rewrite AlignUp_pow2 by assumption.
  pose proof (Z.div_mod (size + 2 ^ k - 1) (2 ^ k) ltac:(lia)) as Hdm.
  pose proof (Z.mod_pos_bound (size + 2 ^ k - 1) (2 ^ k) Hp) as Hmod.
  split; [exists ((size + 2 ^ k - 1) / 2 ^ k); lia|]. split; [lia|].
  intros m [q Hq] Hm.
  destruct (Z_lt_le_dec m (2 ^ k * ((size + 2 ^ k - 1) / 2 ^ k))) as [Hma|]; [|lia].
  exfalso. assert (q < (size + 2 ^ k - 1) / 2 ^ k) by nia.
  assert (2 ^ k * (q + 1) <= 2 ^ k * ((size + 2 ^ k - 1) / 2 ^ k)) by nia. lia.
Qed.

Lemma AlignUp_is_the_least_multiple_witness :
  (0 <= 16 < 64) /\ 0 <= 10000 /\ 10000 + 2 ^ 16 - 1 < 2 ^ 64 /\
  10000 <= AlignUp 10000 (2 ^ 16) < 10000 + 2 ^ 16.
Proof.
  split; [lia|]. split; [lia|]. split; [lia|].
  exact (proj1 (proj2 (AlignUp_is_the_least_multiple 10000 16
                         ltac:(lia) ltac:(lia) ltac:(lia)))).
Defined.

(** AlignDown: for a power-of-two alignment the result is the greatest
    multiple of the alignment that is at most the size. *)
Theorem AlignDown_is_the_greatest_multiple size k :
  0 <= k < 64 ->
  (2 ^ k | AlignDown size (2 ^ k)) /\
  AlignDown size (2 ^ k) <= size < AlignDown size (2 ^ k) + 2 ^ k /\
  forall m, (2 ^ k | m) -> m <= size -> m <= AlignDown size (2 ^ k).
Proof.
  intros Hk. pose proof (pow2_pos k ltac:(lia)) as Hp.
  rewrite AlignDown_pow2 by assumption.
  pose proof (Z.div_mod size (2 ^ k) ltac:(lia)) as Hdm.
  pose proof (Z.mod_pos_bound size (2 ^ k) Hp) as Hmod.
  split; [exists (size / 2 ^ k); lia|]. split; [lia|].
  intros m [q Hq] Hm.
  destruct (Z_lt_le_dec (2 ^ k * (size / 2 ^ k)) m) as [Hma|]; [|lia].
  exfalso. assert (size / 2 ^ k < q) by nia.
  assert (2 ^ k * (size / 2 ^ k + 1) <= m) by nia. lia.
Qed.

Lemma AlignDown_is_the_greatest_multiple_witness :
  (0 <= 16 < 64) /\
  AlignDown 70000 (2 ^ 16) <= 70000 < AlignDown 70000 (2 ^ 16) + 2 ^ 16.
Proof.
  split; [lia|].
  exact (proj1 (proj2 (AlignDown_is_the_greatest_multiple 70000 16 ltac:(lia)))).
Defined.

(** IsAligned: for a power-of-two alignment it holds exactly of the
    multiples of the alignment. *)
Theorem IsAligned_iff_multiple size k :
  0 <= k < 64 -> IsAligned size (2 ^ k) = true <-> (2 ^ k | size).
Proof. apply IsAligned_pow2. Qed.

Lemma IsAligned_iff_multiple_witness :
  (0 <= 16 < 64) /\ (IsAligned 131072 (2 ^ 16) = true <-> (2 ^ 16 | 131072)).
Proof. split; [lia|]. exact (IsAligned_iff_multiple 131072 16 ltac:(lia)). Defined.

(** What AlignUp and AlignDown return is aligned, for every size: also
    when the rounding of AlignUp wraps around 2^64. *)
Theorem aligned_results_are_aligned size k :
  0 <= k < 64 ->
  IsAligned (AlignUp size (2 ^ k)) (2 ^ k) = true /\
  IsAligned (AlignDown size (2 ^ k)) (2 ^ k) = true.
Proof.
  intros Hk. split; apply IsAligned_pow2; try exact Hk.
  - apply AlignUp_divide, Hk.
  - rewrite AlignDown_pow2 by exact Hk. exists (size / 2 ^ k). lia.
Qed.

Lemma aligned_results_are_aligned_witness :
  (0 <= 16 < 64) /\ IsAligned (AlignUp (2 ^ 64 - 1) (2 ^ 16)) (2 ^ 16) = true.
Proof.
  split; [lia|].
  exact (proj1 (aligned_results_are_aligned (2 ^ 64 - 1) 16 ltac:(lia))).
Defined.

(** An aligned 64-bit size is left as it is by AlignUp and by AlignDown. *)
Theorem aligned_sizes_are_fixed size k :
  0 <= k < 64 -> is_u64 size -> IsAligned size (2 ^ k) = true ->
  AlignUp size (2 ^ k) = size /\ AlignDown size (2 ^ k) = size.
Proof.
  intros Hk Hu Hal. apply IsAligned_pow2 in Hal as [q Hq]; [|exact Hk].
  pose proof (pow2_pos k ltac:(lia)) as Hp. unfold is_u64 in Hu.
  assert (H64 : 2 ^ 64 = 2 ^ (64 - k) * 2 ^ k)
    by (rewrite <- Z.pow_add_r by lia; f_equal; lia).
  assert (Hq64 : q < 2 ^ (64 - k)) by nia.
  assert (Hq0 : 0 <= q) by nia.
  split.
  - rewrite AlignUp_pow2 by (try assumption; nia).
    replace (size + 2 ^ k - 1) with (q * 2 ^ k + (2 ^ k - 1)) by lia.
    rewrite Z.div_add_l by lia. rewrite Z.div_small by lia. lia.
  - rewrite AlignDown_pow2 by exact Hk. subst size.
    rewrite Z.div_mul by lia. lia.
Qed.

Lemma aligned_sizes_are_fixed_witness :
  (0 <= 16 < 64) /\ is_u64 131072 /\ IsAligned 131072 (2 ^ 16) = true /\
  AlignUp 131072 (2 ^ 16) = 131072.
Proof.
  split; [lia|]. split; [unfold is_u64; lia|]. split; [reflexivity|].
  exact (proj1 (aligned_sizes_are_fixed 131072 16 ltac:(lia)
                  ltac:(unfold is_u64; lia) eq_refl)).
Defined.

(** With alignment 0 the mask is all ones: AlignUp and AlignDown return 0
    for every 64-bit size, and only size 0 is aligned. *)
Theorem alignment_zero size :
  is_u64 size ->
  AlignUp size 0 = 0 /\ AlignDown size 0 = 0 /\
  (IsAligned size 0 = true <-> size = 0).
Proof.
  intros Hu.
  assert (Hm : wrap64 (0 - 1) = Z.ones 64) by reflexivity.
  assert (Hz : forall x, is_u64 x -> and_not x (Z.ones 64) = 0).
  { intros x Hx. rewrite and_not_ones by lia. unfold is_u64 in Hx.
    rewrite Z.div_small by lia. lia. }
  unfold AlignUp, AlignDown, IsAligned. rewrite Hm.
  split; [apply Hz, wrap64_range|]. split; [apply Hz, Hu|].
  rewrite Z.land_ones by lia. unfold is_u64 in Hu.
  rewrite Z.mod_small by lia. apply Z.eqb_eq.
Qed.

Lemma alignment_zero_witness :
  is_u64 10000 /\ AlignUp 10000 0 = 0.
Proof.
  assert (H : is_u64 10000) by (unfold is_u64; lia).
  split; [exact H|]. exact (proj1 (alignment_zero 10000 H)).
Defined.

(** ** Block spans of a pool *)

Lemma covering_app x l1 l2 :
  covering x (l1 ++ l2) = (covering x l1 + covering x l2)%nat.
Proof.
  induction l1 as [|b l1 IH]; simpl; [reflexivity|].
  destruct (covers b x); rewrite IH; reflexivity.
Qed.

Lemma covering_Permutation x l1 l2 : l1 ≡ₚ l2 -> covering x l1 = covering x l2.
Proof.
  induction 1 as [| b l1 l2 _ IH | b1 b2 l | l1 l2 l3 _ IH1 _ IH2]; simpl.
  - reflexivity.
  - rewrite IH. reflexivity.
  - destruct (covers b1 x), (covers b2 x); reflexivity.
  - congruence.
Qed.

Lemma covering_delete x (l : list MemoryBlock) (i : nat) b :
  l !! i = Some b ->
  covering x l = ((if covers b x then 1 else 0) + covering x (delete i l))%nat.
Proof.
  intros H. rewrite <- (take_drop_middle l i b H) at 1.
  rewrite delete_take_drop, !covering_app. simpl.
  destruct (covers b x); lia.
Qed.

Lemma covering_single x b :
  covering x [b] = (if covers b x then 1 else 0)%nat.
Proof. simpl. destruct (covers b x); reflexivity. Qed.

(** Two blocks at different positions that hold the same byte are counted
    twice. *)
Lemma covering_two x (l : list MemoryBlock) (i j : nat) b1 b2 :
  i <> j -> l !! i = Some b1 -> l !! j = Some b2 ->
  covers b1 x = true -> covers b2 x = true -> (2 <= covering x l)%nat.
Proof.
  intros Hne Hi Hj H1 H2.
  rewrite (covering_delete x l i b1 Hi), H1.
  assert (Hin : exists j', delete i l !! j' = Some b2).
  { destruct (Nat.lt_ge_cases j i) as [Hlt|Hge].
    - exists j. rewrite list_lookup_delete_lt by exact Hlt. exact Hj.
    - exists (j - 1)%nat. rewrite list_lookup_delete_ge by lia.
      replace (S (j - 1)) with j by lia. exact Hj. }
  destruct Hin as [j' Hj']. rewrite (covering_delete x _ j' b2 Hj'), H2. lia.
Qed.

Lemma covers_head_tail block a x :
  0 <= a <= Size block ->
  ((if covers (mkBlock (Offset block) a true) x then 1 else 0) +
   (if covers (mkBlock (Offset block + a) (Size block - a) false) x then 1 else 0))%nat
  = (if covers block x then 1 else 0)%nat.
Proof.
  intros Ha. unfold covers. simpl.
  destruct (Offset block <=? x) eqn:E1, (x <? Offset block + a) eqn:E2,
           (Offset block + a <=? x) eqn:E3,
           (x <? Offset block + a + (Size block - a)) eqn:E4,
           (x <? Offset block + Size block) eqn:E5; simpl; try reflexivity;
    rewrite ?Z.leb_le, ?Z.leb_gt, ?Z.ltb_lt, ?Z.ltb_ge in *; lia.
Qed.

Lemma covers_empty b x : Size b <= 0 -> covers b x = false.
Proof.
  intros H. unfold covers.
  destruct (Offset b <=? x) eqn:E1, (x <? Offset b + Size b) eqn:E2; try reflexivity.
  rewrite Z.leb_le in E1. rewrite Z.ltb_lt in E2. lia.
Qed.

Lemma initial_pool_tiled mp : initial_pool mp -> tiled mp.
Proof.
  intros (Hu & Hf & Hus). unfold tiled, all_blocks. rewrite Hf, Hus. simpl.
  unfold is_u64 in Hu. split; [exact Hu|]. split.
  - repeat constructor; simpl; lia.
  - intros x Hx. unfold covers. cbn [Offset Size].
    destruct (0 <=? x) eqn:E1, (x <? 0 + pSize mp) eqn:E2; try reflexivity;
      rewrite ?Z.leb_gt, ?Z.ltb_ge in *; lia.
Qed.

Lemma MemoryPool_Allocate_tiled self mp size :
  tiled mp -> tiled (fst (MemoryPool_Allocate self mp size)).
Proof.
  intros (Hu & Hin & Hcov).
  pose proof (alignedSize_range mp size) as Ha.
  destruct (MemoryPool_Allocate_cases self mp size)
    as [(i & block & Hi & Hle & _ & ->) | (_ & ->)];
    [| exact (conj Hu (conj Hin Hcov))].
  set (a := alignedSize_of mp size) in *. unfold is_u64 in Ha, Hu.
  pose proof (allocate_free_list_Permutation _ i block a Hi) as Hp.
  unfold all_blocks in Hin. apply Forall_app in Hin as [Hinf Hinu].
  pose proof (Forall_lookup_1 _ _ _ _ Hinf Hi) as (Hbo & Hbs & Hbe).
  assert (Htail : (a <? Size block) = true ->
            tail_block block a = mkBlock (Offset block + a) (Size block - a) false).
  { intros Hlt%Z.ltb_lt. apply tail_block_span; lia. }
  unfold tiled, all_blocks. cbn [fst pSize FreeBlocks UsedBlocks].
  split; [exact Hu|]. split.
  - change (Forall (within_arena mp)
              (swap_remove i (if a <? Size block
                              then FreeBlocks mp ++ [tail_block block a]
                              else FreeBlocks mp) ++
               UsedBlocks mp ++ [mkBlock (Offset block) a true])).
    apply Forall_app. split.
    + rewrite Hp. apply Forall_app. split; [apply Forall_delete, Hinf|].
      destruct (a <? Size block) eqn:E; [|constructor].
      rewrite Htail by reflexivity. apply Z.ltb_lt in E.
      constructor; [|constructor]. unfold within_arena. simpl. lia.
    + apply Forall_app. split; [exact Hinu|].
      constructor; [|constructor]. unfold within_arena. simpl. lia.
  - intros x Hx. specialize (Hcov x Hx). unfold all_blocks in Hcov.
    rewrite covering_app in Hcov. rewrite (covering_delete x _ i block Hi) in Hcov.
    rewrite !covering_app, (covering_Permutation x _ _ Hp), covering_app.
    pose proof (covers_head_tail block a x ltac:(lia)) as Hht.
    rewrite <- Hht in Hcov. rewrite !covering_single.
    destruct (a <? Size block) eqn:E.
    + rewrite Htail by reflexivity. rewrite covering_single. lia.
    + apply Z.ltb_ge in E.
      rewrite (covers_empty (mkBlock (Offset block + a) (Size block - a) false))
        in Hcov by (simpl; lia).
      simpl covering. lia.
Qed.

Lemma MemoryPool_Free_tiled mp allocation :
  tiled mp -> tiled (fst (MemoryPool_Free mp allocation)).
Proof.
  intros (Hu & Hin & Hcov).
  destruct (MemoryPool_Free_cases mp allocation)
    as [(i & block & Hi & _ & _ & ->) | (_ & ->)];
    [| exact (conj Hu (conj Hin Hcov))].
  unfold all_blocks in Hin. apply Forall_app in Hin as [Hinf Hinu].
  pose proof (Forall_lookup_1 _ _ _ _ Hinu Hi) as Hb.
  unfold tiled, all_blocks. cbn [fst pSize FreeBlocks UsedBlocks].
  split; [exact Hu|]. split.
  - change (Forall (within_arena mp)
              ((FreeBlocks mp ++ [mkBlock (Offset block) (Size block) false]) ++
               delete i (UsedBlocks mp))).
    apply Forall_app. split; [|apply Forall_delete, Hinu].
    apply Forall_app. split; [exact Hinf|]. constructor; [exact Hb | constructor].
  - intros x Hx. specialize (Hcov x Hx). unfold all_blocks in Hcov.
    rewrite covering_app in Hcov. rewrite (covering_delete x _ i block Hi) in Hcov.
    rewrite !covering_app, covering_single.
    change (covers (mkBlock (Offset block) (Size block) false) x)
      with (covers block x).
    lia.
Qed.

Lemma pool_run_tiled self ops mp : tiled mp -> tiled (pool_run self ops mp).
Proof.
  revert mp. induction ops as [|op ops IH]; intros mp H; simpl; [exact H|].
  apply IH. destruct op; simpl.
  - apply MemoryPool_Allocate_tiled, H.
  - apply MemoryPool_Free_tiled, H.
Qed.

(** No overlap and full coverage. In every pool state reached from a fresh
    pool by calls of Allocate and Free, every block lies inside the arena,
    every byte of the arena is in exactly one block (free or used), and no
    two blocks share a byte. *)
Theorem pool_blocks_tile_the_arena self mp0 ops :
  initial_pool mp0 ->
  let mp := pool_run self ops mp0 in
  Forall (within_arena mp) (all_blocks mp) /\
  (forall x, 0 <= x < pSize mp -> covering x (all_blocks mp) = 1%nat) /\
  (forall (i j : nat) b1 b2 x,
     i <> j -> all_blocks mp !! i = Some b1 -> all_blocks mp !! j = Some b2 ->
     covers b1 x = true -> covers b2 x = true -> False).
Proof.
  intros Hinit mp.
  destruct (pool_run_tiled self ops mp0 (initial_pool_tiled _ Hinit))
    as (Hu & Hin & Hcov). fold mp in Hu, Hin, Hcov.
  split; [exact Hin|]. split; [exact Hcov|].
  intros i j b1 b2 x Hne Hi Hj H1 H2.
  pose proof (Forall_lookup_1 _ _ _ _ Hin Hi) as (Ho & Hs & He).
  assert (Hx : 0 <= x < pSize mp).
  { unfold covers in H1. apply andb_true_iff in H1 as [Hlo Hhi].
    rewrite Z.leb_le in Hlo. rewrite Z.ltb_lt in Hhi. lia. }
  pose proof (covering_two x _ i j b1 b2 Hne Hi Hj H1 H2) as H2c.
  rewrite (Hcov x Hx) in H2c. lia.
Qed.

Lemma pool_blocks_tile_the_arena_witness :
  initial_pool pool_256MiB /\
  covering 70000
    (all_blocks (pool_run 1 [OpAllocate 10000; OpAllocate 70000; OpFree None]
                   pool_256MiB)) = 1%nat.
Proof.
  assert (H : initial_pool pool_256MiB).
  { unfold initial_pool, is_u64. simpl. repeat split; lia. }
  split; [exact H|].
  apply (pool_blocks_tile_the_arena 1 pool_256MiB
           [OpAllocate 10000; OpAllocate 70000; OpFree None] H).
  simpl. lia.
Defined.

(** ** Granularity of the used blocks *)

Lemma pool_step_fields self mp op :
  BlockSize (pool_step self mp op) = BlockSize mp /\
  pSize (pool_step self mp op) = pSize mp /\
  pTypeIndex (pool_step self mp op) = pTypeIndex mp /\
  pProperties (pool_step self mp op) = pProperties mp /\
  pMemory (pool_step self mp op) = pMemory mp.
Proof.
  destruct op as [size|allocation]; simpl.
  - unfold MemoryPool_Allocate.
    destruct (first_fit _ _ _) as [[i b]|]; simpl; repeat split.
  - unfold MemoryPool_Free.
    destruct (first_offset_zero _ _) as [[i b]|]; simpl; repeat split.
Qed.

Lemma pool_run_fields self ops mp :
  BlockSize (pool_run self ops mp) = BlockSize mp /\
  pSize (pool_run self ops mp) = pSize mp /\
  pTypeIndex (pool_run self ops mp) = pTypeIndex mp /\
  pProperties (pool_run self ops mp) = pProperties mp /\
  pMemory (pool_run self ops mp) = pMemory mp.
Proof.
  revert mp. induction ops as [|op ops IH]; intros mp; simpl; [repeat split|].
  destruct (IH (pool_step self mp op)) as (-> & -> & -> & -> & ->).
  apply pool_step_fields.
Qed.

Lemma wrap64_divide k x : 0 <= k <= 64 -> (2 ^ k | x) -> (2 ^ k | wrap64 x).
Proof.
  intros Hk Hx. unfold wrap64.
  assert (H64 : (2 ^ k | 2 ^ 64)).
  { exists (2 ^ (64 - k)). rewrite <- Z.pow_add_r by lia. f_equal. lia. }
  rewrite Z.mod_eq by lia. apply Z.divide_sub_r; [exact Hx|].
  apply Z.divide_mul_l, H64.
Qed.

Lemma MemoryPool_Allocate_on_grid self mp size k :
  BlockSize mp = 2 ^ k -> 0 <= k < 64 ->
  on_grid k mp -> on_grid k (fst (MemoryPool_Allocate self mp size)).
Proof.
  intros HB Hk [Hoff Hsz].
  destruct (MemoryPool_Allocate_cases self mp size)
    as [(i & block & Hi & Hle & _ & ->) | (_ & ->)]; [| exact (conj Hoff Hsz)].
  set (a := alignedSize_of mp size) in *.
  assert (Hda : (2 ^ k | a)).
  { unfold a. rewrite alignedSize_of_AlignUp, HB. apply AlignUp_divide, Hk. }
  pose proof (allocate_free_list_Permutation _ i block a Hi) as Hp.
  unfold all_blocks in Hoff. apply Forall_app in Hoff as [Hof Hou].
  pose proof (Forall_lookup_1 _ _ _ _ Hof Hi) as Hbo. cbv beta in Hbo.
  unfold on_grid, all_blocks. cbn [fst FreeBlocks UsedBlocks]. split.
  - apply Forall_app. split.
    + rewrite Hp. apply Forall_app. split; [apply Forall_delete, Hof|].
      destruct (a <? Size block); constructor; [|constructor].
      simpl. apply wrap64_divide; [lia|]. apply Z.divide_add_r; assumption.
    + apply Forall_app. split; [exact Hou|]. constructor; [exact Hbo | constructor].
  - apply Forall_app. split; [exact Hsz|]. constructor; [exact Hda | constructor].
Qed.

Lemma MemoryPool_Free_on_grid mp allocation k :
  on_grid k mp -> on_grid k (fst (MemoryPool_Free mp allocation)).
Proof.
  intros [Hoff Hsz].
  destruct (MemoryPool_Free_cases mp allocation)
    as [(i & block & Hi & _ & _ & ->) | (_ & ->)]; [| exact (conj Hoff Hsz)].
  unfold all_blocks in Hoff. apply Forall_app in Hoff as [Hof Hou].
  pose proof (Forall_lookup_1 _ _ _ _ Hou Hi) as Hbo. cbv beta in Hbo.
  unfold on_grid, all_blocks. cbn [fst FreeBlocks UsedBlocks]. split.
  - apply Forall_app. split; [|apply Forall_delete, Hou].
    apply Forall_app. split; [exact Hof|]. constructor; [exact Hbo | constructor].
  - apply Forall_delete, Hsz.
Qed.

Lemma pool_run_on_grid self ops mp k :
  BlockSize mp = 2 ^ k -> 0 <= k < 64 ->
  on_grid k mp -> on_grid k (pool_run self ops mp).
Proof.
  revert mp. induction ops as [|op ops IH]; intros mp HB Hk H; simpl; [exact H|].
  apply IH; [rewrite (proj1 (pool_step_fields self mp op)); exact HB | exact Hk |].
  destruct op; simpl.
  - apply MemoryPool_Allocate_on_grid; assumption.
  - apply MemoryPool_Free_on_grid, H.
Qed.

(** Alignment. In every pool state reached from a fresh pool whose
    BlockSize is a power of two, the offset and the size of every used
    block are multiples of BlockSize, and so is the Size of every
    allocation that Allocate returns in that state. *)
Theorem used_blocks_are_multiples_of_BlockSize self mp0 ops k :
  initial_pool mp0 -> BlockSize mp0 = 2 ^ k -> 0 <= k < 64 ->
  let mp := pool_run self ops mp0 in
  Forall (fun b => (BlockSize mp | Offset b) /\ (BlockSize mp | Size b))
         (UsedBlocks mp) /\
  forall size mp' alloc,
    MemoryPool_Allocate self mp size = (mp', Ok alloc) ->
    (BlockSize mp | aSize alloc).
Proof.
  intros (_ & Hf & Hu) HB Hk mp.
  assert (Hg0 : on_grid k mp0).
  { unfold on_grid, all_blocks. rewrite Hf, Hu. split; [|constructor].
    repeat constructor. simpl. apply Z.divide_0_r. }
  destruct (pool_run_on_grid self ops mp0 k HB Hk Hg0) as [Hoff Hsz].
  fold mp in Hoff, Hsz.
  assert (HBm : BlockSize mp = 2 ^ k)
    by (unfold mp; rewrite (proj1 (pool_run_fields self ops mp0)); exact HB).
  rewrite HBm. split.
  - unfold all_blocks in Hoff. apply Forall_app in Hoff as [_ Hou].
    apply Forall_forall. intros b Hb.
    split; [exact (proj1 (Forall_forall _ _) Hou b Hb)
           | exact (proj1 (Forall_forall _ _) Hsz b Hb)].
  - intros size mp' alloc Heq.
    destruct (MemoryPool_Allocate_cases self mp size)
      as [(i & block & _ & _ & _ & Hok) | (_ & Hfail)]; rewrite Heq in *.
    + inversion Hok; subst. simpl.
      rewrite alignedSize_of_AlignUp, HBm. apply AlignUp_divide, Hk.
    + discriminate.
Qed.

Lemma used_blocks_are_multiples_of_BlockSize_witness :
  initial_pool pool_256MiB /\ BlockSize pool_256MiB = 2 ^ 16 /\ (0 <= 16 < 64) /\
  Forall (fun b => (65536 | Offset b) /\ (65536 | Size b))
         (UsedBlocks (pool_run 1 [OpAllocate 10000; OpAllocate 70000; OpFree None]
                        pool_256MiB)).
Proof.
  assert (H : initial_pool pool_256MiB).
  { unfold initial_pool, is_u64. simpl. repeat split; lia. }
  split; [exact H|]. split; [reflexivity|]. split; [lia|].
  exact (proj1 (used_blocks_are_multiples_of_BlockSize 1 pool_256MiB
                  [OpAllocate 10000; OpAllocate 70000; OpFree None] 16
                  H eq_refl ltac:(lia))).
Defined.

(** ** Statistics across one call *)

Lemma GetStats_sums mp :
  pool_inv mp ->
  UsedSize (MemoryPool_GetStats mp) = sum_sizes (UsedBlocks mp) /\
  FreeSize (MemoryPool_GetStats mp) = sum_sizes (FreeBlocks mp).
Proof.
  intros (Hu & Hf & Hus & Hsum).
  pose proof (sum_sizes_nonneg _ Hf) as Hfn.
  pose proof (sum_sizes_nonneg _ Hus) as Hun.
  unfold is_u64 in Hu.
  assert (Hloop : used_size_loop (UsedBlocks mp) = sum_sizes (UsedBlocks mp)).
  { unfold used_size_loop. rewrite used_size_loop_acc by (try assumption; lia). lia. }
  unfold MemoryPool_GetStats. simpl. rewrite Hloop.
  rewrite wrap64_small by (unfold is_u64; lia). split; lia.
Qed.

(** In a pool state reached from a fresh pool, a successful Allocate raises
    the UsedSize of GetStats by the Size of the returned allocation and
    lowers FreeSize by the same amount; a failing Allocate changes neither. *)
Theorem Allocate_moves_bytes_from_free_to_used self mp0 ops size :
  initial_pool mp0 ->
  let mp := pool_run self ops mp0 in
  let stats := MemoryPool_GetStats mp in
  let stats' := MemoryPool_GetStats (fst (MemoryPool_Allocate self mp size)) in
  match snd (MemoryPool_Allocate self mp size) with
  | Ok alloc =>
      UsedSize stats' = UsedSize stats + aSize alloc /\
      FreeSize stats' = FreeSize stats - aSize alloc /\
      0 <= aSize alloc <= FreeSize stats
  | _ => UsedSize stats' = UsedSize stats /\ FreeSize stats' = FreeSize stats
  end.
Proof.
  intros Hinit mp stats stats'.
  pose proof (pool_run_inv self ops mp0 (initial_pool_inv _ Hinit)) as Hinv.
  fold mp in Hinv.
  pose proof (MemoryPool_Allocate_inv self mp size Hinv) as Hinv'.
  destruct (GetStats_sums mp Hinv) as [Hus Hfs].
  destruct (GetStats_sums _ Hinv') as [Hus' Hfs'].
  fold stats in Hus, Hfs. fold stats' in Hus', Hfs'.
  destruct Hinv as (_ & Hfn & _ & Hsum). destruct Hinv' as (_ & _ & _ & Hsum').
  pose proof (alignedSize_range mp size) as Ha. unfold is_u64 in Ha.
  revert Hus' Hfs' Hsum'. generalize stats'. clear stats'.
  destruct (MemoryPool_Allocate_cases self mp size)
    as [(i & block & Hi & Hle & _ & ->) | (_ & ->)]; cbn [fst snd];
    intros stats' Hus' Hfs' Hsum'.
  - cbn [aSize UsedBlocks FreeBlocks pSize] in *.
    rewrite sum_sizes_app in Hus', Hsum'.
    cbn [sum_sizes foldr Size] in Hus', Hsum'.
    pose proof (sum_sizes_elem _ _ _ Hfn Hi). lia.
  - split; congruence.
Qed.

Lemma Allocate_moves_bytes_from_free_to_used_witness :
  initial_pool pool_256MiB /\
  UsedSize (MemoryPool_GetStats
              (fst (MemoryPool_Allocate 1
                      (pool_run 1 [OpAllocate 10000] pool_256MiB) 70000)))
  = UsedSize (MemoryPool_GetStats (pool_run 1 [OpAllocate 10000] pool_256MiB))
    + 131072.
Proof.
  assert (H : initial_pool pool_256MiB).
  { unfold initial_pool, is_u64. simpl. repeat split; lia. }
  split; [exact H|].
  exact (proj1 (Allocate_moves_bytes_from_free_to_used 1 pool_256MiB
                  [OpAllocate 10000] 70000 H)).
Defined.

(** ** The ways Allocate ends *)

Lemma MemoryPool_Allocate_result self mp size :
  (exists mp' obj, MemoryPool_Allocate self mp size = (mp', Ok obj))
  \/ MemoryPool_Allocate self mp size = (mp, Err ErrInsufficientSpace).
Proof.
  destruct (MemoryPool_Allocate_cases self mp size)
    as [(i & block & _ & _ & _ & H) | (_ & H)]; [left; eauto | right; exact H].
Qed.

Lemma allocate_from_outcome w pp size :
  (exists w' a obj, allocate_from w pp size = (w', Ok (Some a)) /\
                    pool_alloc w w' pp size a obj)
  \/ (allocate_from w pp size = (w, Ok None) /\
      exists mp, poolsto w !! pp = Some mp /\
        snd (MemoryPool_Allocate pp mp size) = Err ErrInsufficientSpace)
  \/ (allocate_from w pp size = (w, Panic) /\ poolsto w !! pp = None).
Proof.
  unfold allocate_from, pool_alloc.
  destruct (poolsto w !! pp) as [mp|] eqn:Ep; [|right; right; split; reflexivity].
  destruct (MemoryPool_Allocate_result pp mp size) as [(mp' & obj & Heq) | Heq];
    rewrite Heq.
  - left. destruct (register (set_pool w pp mp') obj) as [w' a] eqn:Er.
    exists w', a, obj. split; [reflexivity|].
    exists mp, mp'. split; [reflexivity|]. split; [exact Heq|].
    unfold register in Er. inversion Er; subst. split; reflexivity.
  - right. left. split; [reflexivity|]. exists mp.
    split; [reflexivity | rewrite Heq; reflexivity].
Qed.

Lemma try_pools_outcome w ps t size :
  (exists w' a obj pp,
      try_pools w ps t size = (w', Ok (Some a)) /\ pp ∈ ps /\
      (exists mp, poolsto w !! pp = Some mp /\ pTypeIndex mp = t) /\
      pool_alloc w w' pp size a obj)
  \/ try_pools w ps t size = (w, Ok None)
  \/ (try_pools w ps t size = (w, Panic) /\
      exists pp, pp ∈ ps /\ poolsto w !! pp = None).
Proof.
  induction ps as [|pp rest IH]; simpl; [right; left; reflexivity|].
  destruct (poolsto w !! pp) as [mp|] eqn:Ep;
    [|right; right; split; [reflexivity|];
      exists pp; split; [apply elem_of_cons; auto | exact Ep]].
  assert (IH' : (exists w' a obj pp0,
      try_pools w rest t size = (w', Ok (Some a)) /\ pp0 ∈ pp :: rest /\
      (exists mp, poolsto w !! pp0 = Some mp /\ pTypeIndex mp = t) /\
      pool_alloc w w' pp0 size a obj)
    \/ try_pools w rest t size = (w, Ok None)
    \/ (try_pools w rest t size = (w, Panic) /\
        exists pp0, pp0 ∈ pp :: rest /\ poolsto w !! pp0 = None)).
  { destruct IH as [(w' & a & obj & pp0 & H1 & H2 & H3 & H4) | [H | (H & pp0 & H1 & H2)]].
    - left. exists w', a, obj, pp0. repeat split; try assumption.
      apply elem_of_cons. auto.
    - right; left; exact H.
    - right; right. split; [exact H|]. exists pp0.
      split; [apply elem_of_cons; auto | exact H2]. }
  destruct (pTypeIndex mp =? t) eqn:Et; [|exact IH'].
  apply Z.eqb_eq in Et.
  destruct (allocate_from_outcome w pp size)
    as [(w' & a & obj & -> & Hpa) | [[-> _] | [_ Hnone]]].
  - left. exists w', a, obj, pp. split; [reflexivity|].
    split; [apply elem_of_cons; auto|]. split; [eauto | exact Hpa].
  - exact IH'.
  - congruence.
Qed.

Lemma allocateDirect_result memProps size t :
  ((t <? 32) = true /\
   allocateDirect memProps size t
   = Ok (mkAllocation size size t (flags_of_type memProps t) None 1 None))
  \/ ((t <? 32) = false /\ allocateDirect memProps size t = Panic).
Proof.
  unfold allocateDirect, MemoryTypes_at, flags_of_type.
  destruct (t <? 32); [left | right]; split; reflexivity.
Qed.

Lemma createPool_result memProps t size :
  ((t <? 32) = true /\
   createPool memProps t size
   = Ok (mkPool size size t (flags_of_type memProps t) (64 * 1024)
                [mkBlock 0 size false] []))
  \/ ((t <? 32) = false /\ createPool memProps t size = Panic).
Proof.
  unfold createPool, MemoryTypes_at, flags_of_type.
  destruct (t <? 32); [left | right]; split; reflexivity.
Qed.

Lemma allocate_by_type_outcome memProps w requirements createInfo :
  (exists e, findMemoryType memProps requirements createInfo = Err e /\
     allocate_by_type memProps w requirements createInfo
     = (w, Err (ErrFindMemoryType e)))
  \/ (findMemoryType memProps requirements createInfo = Panic /\
      allocate_by_type memProps w requirements createInfo = (w, Panic))
  \/ (exists t, findMemoryType memProps requirements createInfo = Ok t /\
        typed_outcome memProps w (rSize requirements) t
          (fst (allocate_by_type memProps w requirements createInfo))
          (snd (allocate_by_type memProps w requirements createInfo))).
Proof.
  unfold allocate_by_type.
  destruct (findMemoryType memProps requirements createInfo) as [t|e|];
    [|left; eauto | right; left; split; reflexivity].
  right; right. exists t. split; [reflexivity|].
  destruct (try_pools_outcome w (pools (ma w)) t (rSize requirements))
    as [(w' & a & obj & pp & -> & Hin & Hty & Hpa) | [-> | (-> & pp & Hin & Hnone)]];
    cbn [fst snd].
  - eapply from_existing_pool; eassumption.
  - destruct (64 * 1024 * 1024 <? rSize requirements) eqn:Esz.
    + apply Z.ltb_lt in Esz.
      destruct (allocateDirect memProps (rSize requirements) t) as [obj|e|] eqn:Ed;
        cbn [fst snd];
        [| destruct (allocateDirect_result memProps (rSize requirements) t)
             as [[_ Hr]|[_ Hr]]; congruence
         | apply type_out_of_range;
           destruct (allocateDirect_result memProps (rSize requirements) t)
             as [[_ Hr]|[Hr _]]; [congruence | apply Z.ltb_ge, Hr]].
      pose proof (direct memProps w (rSize requirements) t obj Esz Ed) as H.
      unfold register in *. exact H.
    + apply Z.ltb_ge in Esz.
      destruct (createPool memProps t (256 * 1024 * 1024)) as [mp|e|] eqn:Ec;
        cbn [fst snd];
        [| destruct (createPool_result memProps t (256 * 1024 * 1024))
             as [[_ Hr]|[_ Hr]]; congruence
         | apply type_out_of_range;
           destruct (createPool_result memProps t (256 * 1024 * 1024))
             as [[_ Hr]|[Hr _]]; [congruence | apply Z.ltb_ge, Hr]].
      destruct (add_pool w mp) as [w1 pp] eqn:Ea.
      assert (Hpp : pp = next_addr w /\ w1 = fst (add_pool w mp))
        by (rewrite Ea; unfold add_pool in Ea; inversion Ea; split; reflexivity).
      destruct Hpp as [-> Hw1].
      destruct (MemoryPool_Allocate_result (next_addr w) mp (rSize requirements))
        as [(mp' & obj & Heq) | Heq]; rewrite Heq.
      * destruct (register (set_pool w1 (next_addr w) mp') obj) as [w3 a] eqn:Er.
        cbn [fst snd]. eapply from_new_pool; [exact Esz | exact Ec |].
        exists mp, mp'. rewrite <- Hw1.
        split; [subst w1; simpl; apply lookup_insert_eq|].
        split; [exact Heq|]. rewrite Er.
        unfold register in Er. inversion Er; subst. split; reflexivity.
      * cbn [fst snd]. rewrite Hw1.
        apply (new_pool_full memProps w _ t mp ErrInsufficientSpace Esz Ec).
        rewrite Heq. reflexivity.
  - eapply listed_pool_missing; eassumption.
Qed.

(** Allocate ends in one of the ways of [outcome]. *)
Lemma MemoryAllocator_Allocate_outcome memProps w requirements createInfo :
  outcome memProps w requirements createInfo
    (fst (MemoryAllocator_Allocate memProps w requirements createInfo))
    (snd (MemoryAllocator_Allocate memProps w requirements createInfo)).
Proof.
  unfold MemoryAllocator_Allocate.
  destruct (maxAllocations (ma w) <=? wrap32 (Z.of_nat (size (allocations (ma w)))))
    eqn:Ecap.
  { apply Z.leb_le in Ecap. apply at_cap, Ecap. }
  apply Z.leb_gt in Ecap.
  assert (Htyped : forall (Hexp : forall pp, ciPool createInfo = Some pp ->
         exists mp, poolsto w !! pp = Some mp /\
           snd (MemoryPool_Allocate pp mp (rSize requirements))
           = Err ErrInsufficientSpace),
     outcome memProps w requirements createInfo
       (fst (allocate_by_type memProps w requirements createInfo))
       (snd (allocate_by_type memProps w requirements createInfo))).
  { intros Hexp.
    destruct (allocate_by_type_outcome memProps w requirements createInfo)
      as [(e & Hf & ->) | [[Hf ->] | (t & Hf & Hty)]]; cbn [fst snd].
    - apply no_type; assumption.
    - apply type_panic; assumption.
    - eapply by_type; eassumption. }
  destruct (ciPool createInfo) as [pp|] eqn:Eci;
    [|apply Htyped; intros pp; discriminate].
  destruct (allocate_from_outcome w pp (rSize requirements))
    as [(w' & a & obj & -> & Hpa) | [[-> Hfull] | [-> Hnone]]]; cbn [fst snd].
  - eapply from_explicit_pool; [exact Ecap | exact Eci | exact Hpa].
  - apply Htyped. intros pp' [= <-]. exact Hfull.
  - eapply explicit_pool_missing; [exact Ecap | exact Eci | exact Hnone].
Qed.

Lemma pool_alloc_facts w w' pp size a obj :
  pool_alloc w w' pp size a obj ->
  registered w w' a obj /\
  exists mp mp' (i : nat) block,
    poolsto w !! pp = Some mp /\
    FreeBlocks mp !! i = Some block /\
    poolsto w' = <[pp := mp']> (poolsto w) /\
    pools (ma w') = pools (ma w) /\
    BlockSize mp' = BlockSize mp /\ pTypeIndex mp' = pTypeIndex mp /\
    pProperties mp' = pProperties mp /\ pMemory mp' = pMemory mp /\
    UsedBlocks mp' = UsedBlocks mp ++ [mkBlock (Offset block) (aSize obj) true] /\
    obj = mkAllocation (pMemory mp) (AlignUp size (BlockSize mp)) (pTypeIndex mp)
                       (pProperties mp) None 1 (Some pp).
Proof.
  intros (mp & mp' & Hp & Heq & -> & ->).
  split; [unfold registered, register; simpl; repeat split; lia|].
  destruct (MemoryPool_Allocate_cases pp mp size)
    as [(i & block & Hi & _ & _ & Hok) | (_ & Hfail)]; rewrite Heq in *;
    [|discriminate].
  inversion Hok; subst. exists mp. eexists. exists i, block.
  split; [exact Hp|]. split; [exact Hi|]. split; [reflexivity|]. repeat split.
Qed.

Lemma typed_outcome_Ok memProps w size t w' a :
  typed_outcome memProps w size t w' (Ok a) ->
  exists obj, registered w w' a obj /\ Mapped obj = None /\ aTypeIndex obj = t.
Proof.
  intros H. inversion H as [pp w1 a1 obj Hin (mp0 & Hmp0 & Ht) Hpa
                            | obj Hsz Hd | mp w1 a1 obj Hsz Hc Hpa | | |]; subst.
  - destruct (pool_alloc_facts _ _ _ _ _ _ Hpa)
      as (Hreg & mp & mp' & i & block & Hp & _ & _ & _ & _ & _ & _ & _ & _ & Hobj).
    exists obj. split; [exact Hreg|]. subst obj. simpl.
    rewrite Hmp0 in Hp. inversion Hp; subst. split; reflexivity.
  - exists obj. split; [unfold registered, register; simpl; repeat split; lia|].
    destruct (allocateDirect_result memProps size t) as [[_ Hr]|[_ Hr]];
      rewrite Hr in Hd; inversion Hd; subst. split; reflexivity.
  - destruct (pool_alloc_facts _ _ _ _ _ _ Hpa)
      as ((Hn & Ha & Htab & Htot) & mp1 & mp' & i & block & Hp & _ & _ & _ & _ & _ & _ & _ & _ & Hobj).
    exists obj. simpl in *. split; [unfold registered; repeat split; try assumption; lia|].
    rewrite lookup_insert_eq in Hp. inversion Hp; subst mp1.
    destruct (createPool_result memProps t (256 * 1024 * 1024)) as [[_ Hr]|[_ Hr]];
      rewrite Hr in Hc; inversion Hc; subst. split; reflexivity.
Qed.

Lemma typed_outcome_not_Ok memProps w size t w' r :
  typed_outcome memProps w size t w' r -> (forall a, r <> Ok a) ->
  same_allocations w w'.
Proof.
  intros H Hno. inversion H; subst;
    try (exfalso; eapply Hno; reflexivity);
    unfold same_allocations; simpl; repeat split.
Qed.

Lemma outcome_Ok memProps w requirements createInfo w' a :
  outcome memProps w requirements createInfo w' (Ok a) ->
  exists obj, registered w w' a obj /\ Mapped obj = None.
Proof.
  intros H. inversion H as [| pp w1 a1 obj _ _ Hpa | | | | t w1 r _ _ _ Hty]; subst.
  - destruct (pool_alloc_facts _ _ _ _ _ _ Hpa)
      as (Hreg & mp & mp' & i & block & _ & _ & _ & _ & _ & _ & _ & _ & _ & Hobj).
    exists obj. split; [exact Hreg | subst obj; reflexivity].
  - destruct (typed_outcome_Ok _ _ _ _ _ _ Hty) as (obj & Hreg & Hm & _).
    exists obj. split; assumption.
Qed.

Lemma outcome_not_Ok memProps w requirements createInfo w' r :
  outcome memProps w requirements createInfo w' r -> (forall a, r <> Ok a) ->
  same_allocations w w'.
Proof.
  intros H Hno.
  inversion H as [| pp w1 a1 obj _ _ Hpa | | | | t w1 r1 _ _ _ Hty]; subst;
    try (unfold same_allocations; repeat split; fail).
  - exfalso. eapply Hno. reflexivity.
  - eapply typed_outcome_not_Ok; eassumption.
Qed.

(** ** MemoryAllocator.Allocate: what a call changes *)

(** A successful Allocate registers exactly one new allocation: the address
    it returns was not in the table nor in use before, the table gains the
    entry of that address and nothing else, no existing allocation object
    is touched, the new object is unmapped, and totalAllocated grows by its
    Size (modulo 2^64). *)
Theorem Allocate_registers_one_new_allocation memProps w requirements createInfo w' a :
  reachable memProps w ->
  MemoryAllocator_Allocate memProps w requirements createInfo = (w', Ok a) ->
  allocations (ma w) !! a = None /\ allocs w !! a = None /\
  allocations (ma w') = <[a := a]> (allocations (ma w)) /\
  size (allocations (ma w')) = S (size (allocations (ma w))) /\
  exists obj,
    allocs w' = <[a := obj]> (allocs w) /\ Mapped obj = None /\
    totalAllocated (ma w') = wrap64 (totalAllocated (ma w) + aSize obj).
Proof.
  intros Hr Heq.
  pose proof (MemoryAllocator_Allocate_outcome memProps w requirements createInfo) as Ho.
  rewrite Heq in Ho. cbn [fst snd] in Ho.
  destruct (outcome_Ok _ _ _ _ _ _ Ho) as (obj & (Hn & Ha & Htab & Htot) & Hm).
  destruct (reachable_table_ok memProps w Hr) as [(Hk & Hs & _ & _) _].
  assert (Hfa : allocs w !! a = None).
  { destruct (allocs w !! a) as [o|] eqn:E; [|reflexivity].
    specialize (Hs a (ex_intro _ o E)). lia. }
  assert (Hft : allocations (ma w) !! a = None).
  { destruct (allocations (ma w) !! a) as [p|] eqn:E; [|reflexivity].
    apply Hk in E as [_ Hin]. rewrite Hfa in Hin. destruct Hin; discriminate. }
  split; [exact Hft|]. split; [exact Hfa|]. split; [exact Htab|].
  split; [rewrite Htab; apply map_size_insert_None, Hft|].
  exists obj. split; [exact Ha|]. split; [exact Hm | exact Htot].
Qed.

Lemma Allocate_registers_one_new_allocation_witness :
  reachable example_device empty_world /\
  MemoryAllocator_Allocate example_device empty_world small_request plain_info
  = (fst (MemoryAllocator_Allocate example_device empty_world small_request plain_info),
     Ok 2) /\
  size (allocations
          (ma (fst (MemoryAllocator_Allocate example_device empty_world
                      small_request plain_info))))
  = S (size (allocations (ma empty_world))).
Proof.
  assert (H : reachable example_device empty_world)
    by (apply reachable_new, empty_world_new).
  assert (Heq : MemoryAllocator_Allocate example_device empty_world
                  small_request plain_info
                = (fst (MemoryAllocator_Allocate example_device empty_world
                          small_request plain_info), Ok 2))
    by (vm_compute; reflexivity).
  split; [exact H|]. split; [exact Heq|].
  exact (proj1 (proj2 (proj2 (proj2
    (Allocate_registers_one_new_allocation _ _ _ _ _ _ H Heq))))).
Defined.

(** An Allocate that does not return an allocation (an error, or a panic)
    leaves every allocation object, the table and totalAllocated as they
    were. *)
Theorem failed_Allocate_keeps_the_table memProps w requirements createInfo w' r :
  MemoryAllocator_Allocate memProps w requirements createInfo = (w', r) ->
  (forall a, r <> Ok a) ->
  allocs w' = allocs w /\
  allocations (ma w') = allocations (ma w) /\
  totalAllocated (ma w') = totalAllocated (ma w).
Proof.
  intros Heq Hno.
  pose proof (MemoryAllocator_Allocate_outcome memProps w requirements createInfo) as Ho.
  rewrite Heq in Ho. cbn [fst snd] in Ho.
  exact (outcome_not_Ok _ _ _ _ _ _ Ho Hno).
Qed.

Lemma failed_Allocate_keeps_the_table_witness :
  MemoryAllocator_Allocate example_device two_small
    (mkRequirements 10000 1 2) plain_info
  = (two_small, Err (ErrFindMemoryType ErrNoSuitableMemoryType)) /\
  totalAllocated (ma two_small) = totalAllocated (ma two_small).
Proof.
  assert (Heq : MemoryAllocator_Allocate example_device two_small
                  (mkRequirements 10000 1 2) plain_info
                = (two_small, Err (ErrFindMemoryType ErrNoSuitableMemoryType)))
    by (vm_compute; reflexivity).
  split; [exact Heq|].
  exact (proj2 (proj2 (failed_Allocate_keeps_the_table _ _ _ _ _ _ Heq
                         ltac:(discriminate)))).
Defined.

(** ** MemoryAllocator.Allocate: errors and routing *)

Lemma scan_types_Err test n i0 e :
  (forall i e', test i <> Err e') -> scan_types test n i0 <> Err e.
Proof.
  intros Hno. revert i0. induction n as [|n IH]; intros i0; simpl; [discriminate|].
  destruct (test i0) as [[|]|e'|] eqn:E; try discriminate.
  - apply IH.
  - exfalso. eapply Hno, E.
Qed.

Lemma MemoryTypes_at_not_Err memProps i e : MemoryTypes_at memProps i <> Err e.
Proof. unfold MemoryTypes_at. destruct (i <? 32); discriminate. Qed.

Lemma findMemoryType_Err memProps requirements createInfo e :
  findMemoryType memProps requirements createInfo = Err e ->
  e = ErrNoSuitableMemoryType.
Proof.
  unfold findMemoryType. destruct (usage_flags createInfo) as [req pref].
  destruct (scan_types (first_pass_test _ _ _ _) _ 0) as [[i1|]|e1|] eqn:E1;
    try discriminate.
  - destruct (scan_types (second_pass_test _ _ _) _ 0) as [[i2|]|e2|] eqn:E2;
      try discriminate; [congruence|].
    exfalso. eapply scan_types_Err; [|exact E2].
    intros i e'. unfold second_pass_test.
    destruct (type_bit_set _ i); [|discriminate].
    pose proof (MemoryTypes_at_not_Err memProps i) as Hn.
    destruct (MemoryTypes_at memProps i); try discriminate.
    exfalso. eapply Hn. reflexivity.
  - exfalso. eapply scan_types_Err; [|exact E1].
    intros i e'. unfold first_pass_test.
    destruct (type_bit_set _ i); [|discriminate].
    pose proof (MemoryTypes_at_not_Err memProps i) as Hn.
    destruct (MemoryTypes_at memProps i); try discriminate.
    exfalso. eapply Hn. reflexivity.
Qed.

(** A new 256 MiB pool serves every request up to the 64 MiB threshold. *)
Lemma new_pool_serves memProps t mp self size :
  createPool memProps t (256 * 1024 * 1024) = Ok mp ->
  0 <= size <= 64 * 1024 * 1024 ->
  exists mp' obj, MemoryPool_Allocate self mp size = (mp', Ok obj).
Proof.
  intros Hc Hs.
  destruct (createPool_result memProps t (256 * 1024 * 1024)) as [[_ Hr]|[_ Hr]];
    rewrite Hr in Hc; inversion Hc; subst; clear Hc Hr.
  set (mp := mkPool _ _ _ _ _ _ _).
  assert (Ha : alignedSize_of mp size = 2 ^ 16 * ((size + 2 ^ 16 - 1) / 2 ^ 16))
    by (apply alignedSize_pow2; unfold mp; cbn [BlockSize]; lia).
  assert (Hle : alignedSize_of mp size <= 256 * 1024 * 1024).
  { rewrite Ha. pose proof (Z.mul_div_le (size + 2 ^ 16 - 1) (2 ^ 16) ltac:(lia)).
    lia. }
  unfold MemoryPool_Allocate. simpl FreeBlocks. simpl first_fit.
  rewrite (proj2 (Z.leb_le _ _) Hle). eauto.
Qed.

(** Allocate fails in two ways only. For a request size that is not
    negative, whenever Allocate returns an error it is the
    maximum-number-of-allocations error or the no-suitable-memory-type
    error: pools that are full are skipped and never reported. *)
Theorem Allocate_errors_are_cap_or_type memProps w requirements createInfo w' e :
  0 <= rSize requirements ->
  MemoryAllocator_Allocate memProps w requirements createInfo = (w', Err e) ->
  e = ErrMaxAllocations (maxAllocations (ma w))
  \/ e = ErrFindMemoryType ErrNoSuitableMemoryType.
Proof.
  intros Hs Heq.
  pose proof (MemoryAllocator_Allocate_outcome memProps w requirements createInfo) as Ho.
  rewrite Heq in Ho. cbn [fst snd] in Ho.
  inversion Ho as [| | | | e0 _ Hf | t w1 r _ _ _ Hty]; subst.
  - left. reflexivity.
  - right. apply findMemoryType_Err in Hf. subst. reflexivity.
  - exfalso. inversion Hty; subst.
    match goal with
    | Hc : createPool _ _ _ = Ok ?mp, Hfail : snd _ = Err _ |- _ =>
        destruct (new_pool_serves memProps t mp (next_addr w) (rSize requirements)
                    Hc ltac:(lia)) as (mp' & obj & Hok);
        rewrite Hok in Hfail; discriminate
    end.
Qed.

Lemma Allocate_errors_are_cap_or_type_witness :
  0 <= rSize (mkRequirements 10000 1 2) /\
  MemoryAllocator_Allocate example_device two_small
    (mkRequirements 10000 1 2) plain_info
  = (two_small, Err (ErrFindMemoryType ErrNoSuitableMemoryType)) /\
  (ErrFindMemoryType ErrNoSuitableMemoryType
   = ErrMaxAllocations (maxAllocations (ma two_small))
   \/ ErrFindMemoryType ErrNoSuitableMemoryType
      = ErrFindMemoryType ErrNoSuitableMemoryType).
Proof.
  assert (Heq : MemoryAllocator_Allocate example_device two_small
                  (mkRequirements 10000 1 2) plain_info
                = (two_small, Err (ErrFindMemoryType ErrNoSuitableMemoryType)))
    by (vm_compute; reflexivity).
  assert (Hs : 0 <= rSize (mkRequirements 10000 1 2)) by (simpl; lia).
  split; [exact Hs|]. split; [exact Heq|].
  exact (Allocate_errors_are_cap_or_type _ _ _ _ _ _ Hs Heq).
Defined.

(** What Allocate hands out. The allocation a successful Allocate returns
    is either direct (no pool): then the request was above 64 MiB and its
    Size is exactly the requested size; or pooled: then its Size is the
    request rounded by AlignUp to the BlockSize of its pool, its type,
    properties and memory handle are the pool's, and the last used block of
    that pool has its Size. *)
Theorem Allocate_returns_direct_or_pooled memProps w requirements createInfo w' a :
  MemoryAllocator_Allocate memProps w requirements createInfo = (w', Ok a) ->
  exists obj,
    allocs w' !! a = Some obj /\
    match Pool obj with
    | None =>
        64 * 1024 * 1024 < rSize requirements /\
        aSize obj = rSize requirements /\ aMemory obj = rSize requirements
    | Some pp =>
        exists mp' offset,
          poolsto w' !! pp = Some mp' /\
          aSize obj = AlignUp (rSize requirements) (BlockSize mp') /\
          aTypeIndex obj = pTypeIndex mp' /\
          aProperties obj = pProperties mp' /\
          aMemory obj = pMemory mp' /\
          last (UsedBlocks mp') = Some (mkBlock offset (aSize obj) true)
    end.
Proof.
  intros Heq.
  pose proof (MemoryAllocator_Allocate_outcome memProps w requirements createInfo) as Ho.
  rewrite Heq in Ho. cbn [fst snd] in Ho.
  assert (Hpooled : forall w0 pp obj,
    pool_alloc w0 w' pp (rSize requirements) a obj ->
    allocs w' !! a = Some obj /\
    Pool obj = Some pp /\
    exists mp' offset,
      poolsto w' !! pp = Some mp' /\
      aSize obj = AlignUp (rSize requirements) (BlockSize mp') /\
      aTypeIndex obj = pTypeIndex mp' /\
      aProperties obj = pProperties mp' /\
      aMemory obj = pMemory mp' /\
      last (UsedBlocks mp') = Some (mkBlock offset (aSize obj) true)).
  { intros w0 pp obj Hpa.
    destruct (pool_alloc_facts _ _ _ _ _ _ Hpa)
      as ((_ & Ha & _ & _) & mp & mp' & i & block & _ & _ & Hps & _ & HB & HT & HP
          & HM & HU & Hobj).
    split; [rewrite Ha; apply lookup_insert_eq|].
    split; [subst obj; reflexivity|].
    exists mp', (Offset block). rewrite Hps, lookup_insert_eq, HB, HT, HP, HM, HU.
    split; [reflexivity|]. rewrite last_snoc. subst obj. simpl. repeat split. }
  assert (Hgoal : forall w0 pp obj,
    pool_alloc w0 w' pp (rSize requirements) a obj ->
    exists obj,
      allocs w' !! a = Some obj /\
      match Pool obj with
      | None =>
          64 * 1024 * 1024 < rSize requirements /\
          aSize obj = rSize requirements /\ aMemory obj = rSize requirements
      | Some pp =>
          exists mp' offset,
            poolsto w' !! pp = Some mp' /\
            aSize obj = AlignUp (rSize requirements) (BlockSize mp') /\
            aTypeIndex obj = pTypeIndex mp' /\
            aProperties obj = pProperties mp' /\
            aMemory obj = pMemory mp' /\
            last (UsedBlocks mp') = Some (mkBlock offset (aSize obj) true)
      end).
  { intros w0 pp obj Hpa. destruct (Hpooled w0 pp obj Hpa) as (H1 & H2 & H3).
    exists obj. split; [exact H1|]. rewrite H2. exact H3. }
  inversion Ho as [| pp w1 a1 obj _ _ Hpa | | | | t w1 r _ _ _ Hty]; subst.
  - eapply Hgoal, Hpa.
  - inversion Hty as [pp w1 a1 obj _ _ Hpa | obj Hsz Hd
                      | mp w1 a1 obj _ _ Hpa | | |]; subst.
    + eapply Hgoal, Hpa.
    + exists obj. split; [simpl; apply lookup_insert_eq|].
      destruct (allocateDirect_result memProps (rSize requirements) t)
        as [[_ Hr]|[_ Hr]]; rewrite Hr in Hd; inversion Hd; subst. simpl.
      repeat split. exact Hsz.
    + eapply Hgoal, Hpa.
Qed.

Lemma Allocate_returns_direct_or_pooled_witness :
  MemoryAllocator_Allocate example_device empty_world direct_request plain_info
  = (fst (MemoryAllocator_Allocate example_device empty_world
            direct_request plain_info), Ok 1) /\
  exists obj,
    allocs (fst (MemoryAllocator_Allocate example_device empty_world
                   direct_request plain_info)) !! 1 = Some obj.
Proof.
  assert (Heq : MemoryAllocator_Allocate example_device empty_world
                  direct_request plain_info
                = (fst (MemoryAllocator_Allocate example_device empty_world
                          direct_request plain_info), Ok 1))
    by (vm_compute; reflexivity).
  split; [exact Heq|].
  destruct (Allocate_returns_direct_or_pooled _ _ _ _ _ _ Heq) as (obj & Hobj & _).
  exists obj. exact Hobj.
Defined.

(** ** Allocation type and mapping *)

Lemma findMemoryType_Ok_flags memProps requirements createInfo t :
  findMemoryType memProps requirements createInfo = Ok t ->
  0 <= t < 32 /\
  type_bit_set (MemoryTypeBits requirements) t = true /\
  has_flags (flags_of_type memProps t) (required_of createInfo) = true.
Proof.
  intros H.
  destruct (findMemoryType_index_range _ _ _ _ H) as [Hr _].
  split; [exact Hr|].
  unfold findMemoryType in H. rewrite usage_flags_table in H.
  assert (Hat : MemoryTypes_at memProps t
                = Ok (nth (Z.to_nat t) (MemoryTypes memProps) zero_MemoryType)).
  { unfold MemoryTypes_at. rewrite (proj2 (Z.ltb_lt t 32)) by lia. reflexivity. }
  destruct (scan_types (first_pass_test _ _ _ _) _ 0) as [[i1|]| |] eqn:E1;
    try discriminate.
  - inversion H; subst i1. apply scan_types_found in E1 as [_ Ht].
    unfold first_pass_test in Ht.
    destruct (type_bit_set (MemoryTypeBits requirements) t); [|discriminate].
    split; [reflexivity|]. rewrite Hat in Ht. injection Ht as Hb.
    apply andb_true_iff in Hb as [Hb _]. exact Hb.
  - destruct (scan_types (second_pass_test _ _ _) _ 0) as [[i2|]| |] eqn:E2;
      try discriminate.
    inversion H; subst i2. apply scan_types_found in E2 as [_ Ht].
    unfold second_pass_test in Ht.
    destruct (type_bit_set (MemoryTypeBits requirements) t); [|discriminate].
    split; [reflexivity|]. rewrite Hat in Ht. injection Ht as Hb.
    exact Hb.
Qed.

Lemma outcome_typed memProps w requirements createInfo w' a t :
  ciPool createInfo = None ->
  findMemoryType memProps requirements createInfo = Ok t ->
  outcome memProps w requirements createInfo w' (Ok a) ->
  exists obj, allocs w' !! a = Some obj /\ Mapped obj = None /\ aTypeIndex obj = t.
Proof.
  intros Hnone Hf Ho.
  inversion Ho as [| pp w1 a1 obj _ Hci _ | | | | t' w1 r _ _ Hf' Hty]; subst.
  - congruence.
  - rewrite Hf in Hf'. inversion Hf'; subst t'.
    destruct (typed_outcome_Ok _ _ _ _ _ _ Hty) as (obj & (_ & Ha & _ & _) & Hm & Ht).
    exists obj. rewrite Ha, lookup_insert_eq. repeat split; assumption.
Qed.

(** Without an explicit pool, the allocation a successful Allocate returns
    has the memory type that findMemoryType resolves: a type below 32 that
    is enabled in MemoryTypeBits and has all the required flags. *)
Theorem allocation_has_the_resolved_type memProps w requirements createInfo w' a :
  ciPool createInfo = None ->
  MemoryAllocator_Allocate memProps w requirements createInfo = (w', Ok a) ->
  exists obj,
    allocs w' !! a = Some obj /\
    findMemoryType memProps requirements createInfo = Ok (aTypeIndex obj) /\
    0 <= aTypeIndex obj < 32 /\
    enabled_in (MemoryTypeBits requirements) (aTypeIndex obj) /\
    superset (flags_of_type memProps (aTypeIndex obj)) (required_of createInfo).
Proof.
  intros Hnone Heq.
  pose proof (MemoryAllocator_Allocate_outcome memProps w requirements createInfo) as Ho.
  rewrite Heq in Ho. cbn [fst snd] in Ho.
  assert (Hf : exists t, findMemoryType memProps requirements createInfo = Ok t).
  { inversion Ho; subst; [congruence | eauto]. }
  destruct Hf as [t Hf].
  destruct (outcome_typed _ _ _ _ _ _ _ Hnone Hf Ho) as (obj & Hobj & _ & Ht).
  destruct (findMemoryType_Ok_flags _ _ _ _ Hf) as (Hr & Hbit & Hfl).
  exists obj. subst t. split; [exact Hobj|]. split; [exact Hf|]. split; [exact Hr|].
  split; [apply type_bit_set_enabled; [lia | exact Hbit]|].
  apply has_flags_superset, Hfl.
Qed.

Lemma allocation_has_the_resolved_type_witness :
  ciPool plain_info = None /\
  exists obj,
    allocs (fst (MemoryAllocator_Allocate example_device empty_world
                   small_request plain_info)) !! 2 = Some obj /\
    findMemoryType example_device small_request plain_info = Ok (aTypeIndex obj).
Proof.
  split; [reflexivity|].
  assert (Heq : MemoryAllocator_Allocate example_device empty_world
                  small_request plain_info
                = (fst (MemoryAllocator_Allocate example_device empty_world
                          small_request plain_info), Ok 2))
    by (vm_compute; reflexivity).
  destruct (allocation_has_the_resolved_type example_device empty_world
              small_request plain_info _ 2 eq_refl Heq) as (obj & H1 & H2 & _).
  exists obj. split; assumption.
Defined.

(** An allocation requested with the host-visible flag among the required
    flags (explicitly or through its usage) and no explicit pool can be
    mapped: Map on it returns the pointer and records it. *)
Theorem host_visible_allocation_can_be_mapped memProps w requirements createInfo w' a :
  ciPool createInfo = None ->
  has_flags (required_of createInfo) MemoryPropertyHostVisibleBit = true ->
  MemoryAllocator_Allocate memProps w requirements createInfo = (w', Ok a) ->
  exists w'' obj,
    MemoryAllocator_Map memProps w' a = (w'', Ok 1) /\
    allocs w'' !! a = Some obj /\ Mapped obj = Some 1.
Proof.
  intros Hnone Hhv Heq.
  pose proof (MemoryAllocator_Allocate_outcome memProps w requirements createInfo) as Ho.
  rewrite Heq in Ho. cbn [fst snd] in Ho.
  assert (Hf : exists t, findMemoryType memProps requirements createInfo = Ok t).
  { inversion Ho; subst; [congruence | eauto]. }
  destruct Hf as [t Hf].
  destruct (outcome_typed _ _ _ _ _ _ _ Hnone Hf Ho) as (obj & Hobj & Hm & Ht).
  destruct (findMemoryType_Ok_flags _ _ _ _ Hf) as (Hr & _ & Hfl).
  apply has_flags_superset in Hfl. apply has_flags_superset in Hhv.
  assert (Hbit : Z.testbit (flags_of_type memProps t) 1 = true).
  { apply Hfl; [lia|]. apply Hhv; [lia | reflexivity]. }
  assert (Hnz : (Z.land (flags_of_type memProps t) MemoryPropertyHostVisibleBit =? 0)
                = false).
  { apply Z.eqb_neq. intros H0.
    assert (Hb : Z.testbit (Z.land (flags_of_type memProps t)
                              MemoryPropertyHostVisibleBit) 1 = true)
      by (rewrite Z.land_spec, Hbit; reflexivity).
    rewrite H0, Z.bits_0 in Hb. discriminate. }
  unfold MemoryAllocator_Map. rewrite Hobj, Hm, Ht.
  unfold MemoryTypes_at. rewrite (proj2 (Z.ltb_lt t 32)) by lia.
  fold (flags_of_type memProps t). rewrite Hnz.
  eexists _, _. split; [reflexivity|]. simpl. rewrite lookup_insert_eq.
  split; reflexivity.
Qed.

Lemma host_visible_allocation_can_be_mapped_witness :
  let device := mkMemProps 2 [mkMemoryType 1 0; mkMemoryType 6 1] in
  let info := mkCreateInfo MemoryUsageCPUOnly 0 0 None in
  let request := mkRequirements 10000 1 3 in
  ciPool info = None /\
  has_flags (required_of info) MemoryPropertyHostVisibleBit = true /\
  exists w'' obj,
    MemoryAllocator_Map device
      (fst (MemoryAllocator_Allocate device empty_world request info)) 2
    = (w'', Ok 1) /\
    allocs w'' !! 2 = Some obj /\ Mapped obj = Some 1.
Proof.
  intros device info request.
  split; [reflexivity|]. split; [reflexivity|].
  assert (Heq : MemoryAllocator_Allocate device empty_world request info
                = (fst (MemoryAllocator_Allocate device empty_world request info),
                   Ok 2))
    by (vm_compute; reflexivity).
  exact (host_visible_allocation_can_be_mapped device empty_world request info
           _ 2 eq_refl eq_refl Heq).
Defined.

(** ** MemoryAllocator.Free, Map and Unmap *)

Lemma set_mapped_None obj : Mapped obj = None -> set_mapped obj None = obj.
Proof. destruct obj; simpl; intros ->; reflexivity. Qed.

Lemma MemoryAllocator_Unmap_valid w a obj :
  allocs w !! a = Some obj ->
  exists w1,
    MemoryAllocator_Unmap w a = (w1, Ok tt) /\
    allocs w1 !! a = Some (set_mapped obj None) /\
    (forall b, b <> a -> allocs w1 !! b = allocs w !! b) /\
    poolsto w1 = poolsto w /\ next_addr w1 = next_addr w /\ ma w1 = ma w /\
    (Mapped obj = None -> w1 = w).
Proof.
  intros Ha. unfold MemoryAllocator_Unmap. rewrite Ha.
  destruct (Mapped obj) as [p|] eqn:Em.
  - eexists. split; [reflexivity|]. simpl. rewrite lookup_insert_eq.
    split; [reflexivity|]. split; [|repeat split; discriminate].
    intros b Hb. apply lookup_insert_ne. congruence.
  - exists w. split; [reflexivity|]. rewrite (set_mapped_None obj Em).
    repeat split. exact Ha.
Qed.

(** What Free does to the table, for a valid allocation pointer. *)
Lemma Free_facts w a obj :
  allocs w !! a = Some obj ->
  let w' := fst (MemoryAllocator_Free w (Some a)) in
  let r := snd (MemoryAllocator_Free w (Some a)) in
  allocs w' !! a = Some (set_mapped obj None) /\
  (forall b, b <> a -> allocs w' !! b = allocs w !! b) /\
  allocations (ma w') = delete a (allocations (ma w)) /\
  pools (ma w') = pools (ma w) /\
  match allocations (ma w) !! a with
  | None =>
      r = Err ErrNotFoundInAllocator /\
      totalAllocated (ma w') = totalAllocated (ma w)
  | Some _ =>
      r <> Err ErrNotFoundInAllocator /\ r <> Err ErrNilAllocation /\
      totalAllocated (ma w') = wrap64 (totalAllocated (ma w) - aSize obj)
  end.
Proof.
  intros Ha. unfold MemoryAllocator_Free, freeAllocationUnsafe.
  destruct (MemoryAllocator_Unmap_valid w a obj Ha)
    as (w1 & -> & Ha1 & Hother & Hp & Hn & Hma & _).
  rewrite Ha1, Hma.
  destruct (allocations (ma w) !! a) as [p|] eqn:Et; cbn zeta.
  - assert (Hcommon : forall w2 (r : res unit),
      allocs w2 = allocs w1 ->
      ma w2 = mkAllocator (delete a (allocations (ma w))) (pools (ma w))
                (wrap64 (totalAllocated (ma w) - aSize (set_mapped obj None)))
                (maxAllocations (ma w)) ->
      r <> Err ErrNotFoundInAllocator -> r <> Err ErrNilAllocation ->
      allocs w2 !! a = Some (set_mapped obj None) /\
      (forall b, b <> a -> allocs w2 !! b = allocs w !! b) /\
      allocations (ma w2) = delete a (allocations (ma w)) /\
      pools (ma w2) = pools (ma w) /\
      r <> Err ErrNotFoundInAllocator /\ r <> Err ErrNilAllocation /\
      totalAllocated (ma w2) = wrap64 (totalAllocated (ma w) - aSize obj)).
    { intros w2 r Hal Hm2 Hr1 Hr2. rewrite Hal, Hm2. simpl.
      repeat split; try assumption. }
    change (Pool (set_mapped obj None)) with (Pool obj).
    destruct (Pool obj) as [pp|]; cbn [fst snd].
    + unfold free_in_pool. cbn [poolsto].
      destruct (poolsto w1 !! pp) as [mp|]; cbn [fst snd].
      * unfold MemoryPool_Free.
        destruct (first_offset_zero (UsedBlocks mp) 0) as [[i b]|]; cbn [fst snd];
          apply Hcommon; solve [reflexivity | discriminate].
      * apply Hcommon; solve [reflexivity | discriminate].
    + apply Hcommon; solve [reflexivity | discriminate].
  - cbn [fst snd]. rewrite Hma, delete_id by exact Et.
    repeat split; assumption.
Qed.

(** Free by identity. For a valid allocation pointer that is in the table,
    Free deletes exactly that allocation's entry and subtracts its Size from
    totalAllocated (modulo 2^64); every other entry, every other allocation
    object and the list of pools are kept; and the call does not report the
    allocation as unknown. *)
Theorem Free_deletes_exactly_its_entry w a obj :
  allocs w !! a = Some obj -> is_Some (allocations (ma w) !! a) ->
  let w' := fst (MemoryAllocator_Free w (Some a)) in
  allocations (ma w') !! a = None /\
  (forall b, b <> a -> allocations (ma w') !! b = allocations (ma w) !! b) /\
  (forall b, b <> a -> allocs w' !! b = allocs w !! b) /\
  size (allocations (ma w')) = pred (size (allocations (ma w))) /\
  totalAllocated (ma w') = wrap64 (totalAllocated (ma w) - aSize obj) /\
  pools (ma w') = pools (ma w) /\
  snd (MemoryAllocator_Free w (Some a)) <> Err ErrNotFoundInAllocator.
Proof.
  intros Ha [p Hp] w'.
  destruct (Free_facts w a obj Ha) as (_ & Hother & Htab & Hpools & Hcase).
  rewrite Hp in Hcase. destruct Hcase as (Hr & _ & Htot). fold w' in Htab, Hother.
  rewrite Htab. split; [apply lookup_delete_eq|].
  split; [intros b Hb; apply lookup_delete_ne; congruence|].
  split; [exact Hother|].
  split; [apply map_size_delete_Some; eauto|].
  split; [exact Htot|]. split; [exact Hpools | exact Hr].
Qed.

Lemma Free_deletes_exactly_its_entry_witness :
  (exists obj, allocs two_small !! 3 = Some obj) /\
  is_Some (allocations (ma two_small) !! 3) /\
  allocations (ma (fst (MemoryAllocator_Free two_small (Some 3)))) !! 2
  = allocations (ma two_small) !! 2.
Proof.
  assert (Ha : allocs two_small !! 3
               = Some (mkAllocation 268435456 65536 0 1 None 1 (Some 1)))
    by (vm_compute; reflexivity).
  assert (Ht : is_Some (allocations (ma two_small) !! 3))
    by (exists 3; vm_compute; reflexivity).
  split; [eauto|]. split; [exact Ht|].
  apply (Free_deletes_exactly_its_entry two_small 3 _ Ha Ht). lia.
Defined.

(** Free reports an allocation as not found in the allocator exactly when
    its address is not in the table. *)
Theorem Free_reports_unknown_allocations w a obj :
  allocs w !! a = Some obj ->
  snd (MemoryAllocator_Free w (Some a)) = Err ErrNotFoundInAllocator
  <-> allocations (ma w) !! a = None.
Proof.
  intros Ha. destruct (Free_facts w a obj Ha) as (_ & _ & _ & _ & Hcase).
  destruct (allocations (ma w) !! a) as [p|].
  - destruct Hcase as (Hr & _). split; [intros H; contradiction | discriminate].
  - destruct Hcase as (Hr & _). split; [reflexivity | intros _; exact Hr].
Qed.

Lemma Free_reports_unknown_allocations_witness :
  (exists obj, allocs (fst (MemoryAllocator_Free two_small (Some 2))) !! 2 = Some obj) /\
  (snd (MemoryAllocator_Free (fst (MemoryAllocator_Free two_small (Some 2))) (Some 2))
   = Err ErrNotFoundInAllocator
   <-> allocations (ma (fst (MemoryAllocator_Free two_small (Some 2)))) !! 2 = None).
Proof.
  assert (Ha : allocs (fst (MemoryAllocator_Free two_small (Some 2))) !! 2
               = Some (mkAllocation 268435456 65536 0 1 None 1 (Some 1)))
    by (vm_compute; reflexivity).
  split; [eauto|].
  exact (Free_reports_unknown_allocations _ 2 _ Ha).
Defined.

(** Double free is detected. Whatever a first Free of a valid allocation
    pointer did, a second Free of the same pointer returns the
    not-found-in-allocator error and changes nothing at all. *)
Theorem second_Free_is_rejected w a :
  is_Some (allocs w !! a) ->
  MemoryAllocator_Free (fst (MemoryAllocator_Free w (Some a))) (Some a)
  = (fst (MemoryAllocator_Free w (Some a)), Err ErrNotFoundInAllocator).
Proof.
  intros [obj Ha].
  destruct (Free_facts w a obj Ha) as (Ha1 & _ & Htab & _ & _).
  set (w1 := fst (MemoryAllocator_Free w (Some a))) in *.
  unfold MemoryAllocator_Free, freeAllocationUnsafe.
  destruct (MemoryAllocator_Unmap_valid w1 a _ Ha1)
    as (w2 & -> & _ & _ & _ & _ & _ & Hsame).
  rewrite (Hsame eq_refl), Ha1, Htab, lookup_delete_eq. reflexivity.
Qed.

Lemma second_Free_is_rejected_witness :
  is_Some (allocs two_small !! 2) /\
  MemoryAllocator_Free (fst (MemoryAllocator_Free two_small (Some 2))) (Some 2)
  = (fst (MemoryAllocator_Free two_small (Some 2)), Err ErrNotFoundInAllocator).
Proof.
  assert (Ha : is_Some (allocs two_small !! 2))
    by (eexists; vm_compute; reflexivity).
  split; [exact Ha|]. exact (second_Free_is_rejected two_small 2 Ha).
Defined.

(** Free unmaps. After Free of a valid allocation pointer, found in the
    table or not, the allocation object is unmapped and its other fields
    are as before. *)
Theorem Free_leaves_the_allocation_unmapped w a obj :
  allocs w !! a = Some obj ->
  allocs (fst (MemoryAllocator_Free w (Some a))) !! a
  = Some (mkAllocation (aMemory obj) (aSize obj) (aTypeIndex obj)
                       (aProperties obj) None (RefCount obj) (Pool obj)).
Proof.
  intros Ha. exact (proj1 (Free_facts w a obj Ha)).
Qed.

Lemma Free_leaves_the_allocation_unmapped_witness :
  let mapped := mkAllocation 7 64 0 2 (Some 1) 1 None in
  let w := mkWorld {[ 5 := mapped ]} ∅ 6 NewMemoryAllocator in
  allocs w !! 5 = Some mapped /\
  allocs (fst (MemoryAllocator_Free w (Some 5))) !! 5
  = Some (mkAllocation 7 64 0 2 None 1 None).
Proof.
  intros mapped w.
  assert (Ha : allocs w !! 5 = Some mapped) by (vm_compute; reflexivity).
  split; [exact Ha|].
  exact (Free_leaves_the_allocation_unmapped w 5 mapped Ha).
Defined.

(** Map is idempotent: after a successful Map, mapping again returns the
    same pointer and changes nothing. *)
Theorem Map_twice_returns_the_same_pointer memProps w a w1 p :
  MemoryAllocator_Map memProps w a = (w1, Ok p) ->
  MemoryAllocator_Map memProps w1 a = (w1, Ok p).
Proof.
  unfold MemoryAllocator_Map.
  destruct (allocs w !! a) as [obj|] eqn:Ha; [|discriminate].
  destruct (Mapped obj) as [q|] eqn:Em.
  - intros [= <- <-]. rewrite Ha, Em. reflexivity.
  - destruct (MemoryTypes_at memProps (aTypeIndex obj)) as [memType|e|];
      try discriminate.
    destruct (Z.land (PropertyFlags memType) MemoryPropertyHostVisibleBit =? 0);
      [discriminate|].
    intros [= <- <-]. simpl. rewrite lookup_insert_eq. reflexivity.
Qed.

Lemma Map_twice_returns_the_same_pointer_witness :
  let obj := mkAllocation 7 64 0 2 None 1 None in
  let w := mkWorld {[ 5 := obj ]} ∅ 6 NewMemoryAllocator in
  let device := mkMemProps 1 [mkMemoryType 2 0] in
  MemoryAllocator_Map device w 5 = (fst (MemoryAllocator_Map device w 5), Ok 1) /\
  MemoryAllocator_Map device (fst (MemoryAllocator_Map device w 5)) 5
  = (fst (MemoryAllocator_Map device w 5), Ok 1).
Proof.
  intros obj w device.
  assert (H : MemoryAllocator_Map device w 5
              = (fst (MemoryAllocator_Map device w 5), Ok 1))
    by (vm_compute; reflexivity).
  split; [exact H|].
  exact (Map_twice_returns_the_same_pointer device w 5 _ 1 H).
Defined.

(** Map then Unmap is a round trip: unmapping an allocation that Map has
    just mapped gives back the state before the Map. *)
Theorem Unmap_undoes_Map memProps w a obj w1 p :
  allocs w !! a = Some obj -> Mapped obj = None ->
  MemoryAllocator_Map memProps w a = (w1, Ok p) ->
  MemoryAllocator_Unmap w1 a = (w, Ok tt).
Proof.
  intros Ha Em. unfold MemoryAllocator_Map. rewrite Ha, Em.
  destruct (MemoryTypes_at memProps (aTypeIndex obj)) as [memType|e|];
    try discriminate.
  destruct (Z.land (PropertyFlags memType) MemoryPropertyHostVisibleBit =? 0);
    [discriminate|].
  intros [= <- <-]. unfold MemoryAllocator_Unmap. simpl.
  rewrite lookup_insert_eq. simpl. rewrite insert_insert_eq.
  change (set_mapped (set_mapped obj (Some 1)) None) with (set_mapped obj None).
  rewrite (set_mapped_None obj Em), (insert_id _ _ _ Ha).
  destruct w; reflexivity.
Qed.

Lemma Unmap_undoes_Map_witness :
  let obj := mkAllocation 7 64 0 2 None 1 None in
  let w := mkWorld {[ 5 := obj ]} ∅ 6 NewMemoryAllocator in
  let device := mkMemProps 1 [mkMemoryType 2 0] in
  allocs w !! 5 = Some obj /\ Mapped obj = None /\
  MemoryAllocator_Unmap (fst (MemoryAllocator_Map device w 5)) 5 = (w, Ok tt).
Proof.
  intros obj w device.
  assert (Ha : allocs w !! 5 = Some obj) by (vm_compute; reflexivity).
  assert (H : MemoryAllocator_Map device w 5
              = (fst (MemoryAllocator_Map device w 5), Ok 1))
    by (vm_compute; reflexivity).
  split; [exact Ha|]. split; [reflexivity|].
  exact (Unmap_undoes_Map device w 5 obj _ 1 Ha eq_refl H).
Defined.

(** Map and Unmap touch the mapping only: the allocator object (table,
    pools, totalAllocated) and the pool objects are unchanged, and every
    allocation object keeps all its fields but Mapped; a Map that fails
    changes nothing. *)
Theorem Map_and_Unmap_touch_only_the_mapping memProps w a :
  let wm := fst (MemoryAllocator_Map memProps w a) in
  let wu := fst (MemoryAllocator_Unmap w a) in
  (ma wm = ma w /\ poolsto wm = poolsto w /\
   forall b obj, allocs w !! b = Some obj ->
     exists m, allocs wm !! b = Some (set_mapped obj m)) /\
  (ma wu = ma w /\ poolsto wu = poolsto w /\
   forall b obj, allocs w !! b = Some obj ->
     exists m, allocs wu !! b = Some (set_mapped obj m)) /\
  (forall e, snd (MemoryAllocator_Map memProps w a) = Err e -> wm = w).
Proof.
  assert (Hid : forall obj, set_mapped obj (Mapped obj) = obj)
    by (intros []; reflexivity).
  assert (Hkeep : forall b obj, allocs w !! b = Some obj ->
            exists m, allocs w !! b = Some (set_mapped obj m)).
  { intros b obj Hb. exists (Mapped obj). rewrite Hid. exact Hb. }
  assert (Hins : forall obj0 m0 b obj,
            allocs w !! a = Some obj0 -> allocs w !! b = Some obj ->
            exists m, <[a := set_mapped obj0 m0]> (allocs w) !! b
                      = Some (set_mapped obj m)).
  { intros obj0 m0 b obj Ha Hb. rewrite lookup_insert. case_decide as Hd.
    - subst b. rewrite Ha in Hb. inversion Hb; subst. eauto.
    - exists (Mapped obj). rewrite Hid. exact Hb. }
  intros wm wu. unfold wm, wu, MemoryAllocator_Map, MemoryAllocator_Unmap.
  destruct (allocs w !! a) as [obj0|] eqn:Ha;
    [|repeat split; solve [assumption | reflexivity]].
  destruct (Mapped obj0) as [q|] eqn:Em; cbn [fst snd].
  - split; [repeat split; assumption|].
    split; [|reflexivity]. simpl. repeat split. intros b obj Hb. eauto.
  - split; [|split; [repeat split; assumption|]].
    + destruct (MemoryTypes_at memProps (aTypeIndex obj0)) as [memType|e|];
        cbn [fst]; [|repeat split; assumption..].
      destruct (Z.land (PropertyFlags memType) MemoryPropertyHostVisibleBit =? 0);
        cbn [fst]; [repeat split; assumption|].
      simpl. repeat split. intros b obj Hb. eauto.
    + destruct (MemoryTypes_at memProps (aTypeIndex obj0)) as [memType|e|];
        cbn [fst snd]; [|reflexivity..].
      destruct (Z.land (PropertyFlags memType) MemoryPropertyHostVisibleBit =? 0);
        cbn [fst snd]; [reflexivity | discriminate].
Qed.

(** ** The pools of the allocator *)

Lemma made_pool_Allocate memProps self mp size :
  made_pool memProps mp ->
  made_pool memProps (fst (MemoryPool_Allocate self mp size)).
Proof.
  intros (Hi & Ht & Hs & Hb & Hty & Hp).
  destruct (pool_step_fields self mp (OpAllocate size)) as (Eb & Es & Et & Ep & _).
  simpl in Eb, Es, Et, Ep.
  split; [apply MemoryPool_Allocate_inv, Hi|].
  split; [apply MemoryPool_Allocate_tiled, Ht|].
  rewrite Es, Eb, Et, Ep. repeat split; assumption || apply Hty.
Qed.

Lemma made_pool_Free memProps mp allocation :
  made_pool memProps mp ->
  made_pool memProps (fst (MemoryPool_Free mp allocation)).
Proof.
  intros (Hi & Ht & Hs & Hb & Hty & Hp).
  destruct (pool_step_fields 0 mp (OpFree allocation)) as (Eb & Es & Et & Ep & _).
  simpl in Eb, Es, Et, Ep.
  split; [apply MemoryPool_Free_inv, Hi|].
  split; [apply MemoryPool_Free_tiled, Ht|].
  rewrite Es, Eb, Et, Ep. repeat split; assumption || apply Hty.
Qed.

Lemma createPool_made memProps t mp :
  0 <= t ->
  createPool memProps t (256 * 1024 * 1024) = Ok mp -> made_pool memProps mp.
Proof.
  intros H0 Hc.
  destruct (createPool_result memProps t (256 * 1024 * 1024)) as [[Ht Hr]|[_ Hr]];
    rewrite Hr in Hc; inversion Hc; subst; clear Hc Hr.
  apply Z.ltb_lt in Ht.
  assert (Hinit : initial_pool
            (mkPool (256 * 1024 * 1024) (256 * 1024 * 1024) t
                    (flags_of_type memProps t) (64 * 1024)
                    [mkBlock 0 (256 * 1024 * 1024) false] [])).
  { unfold initial_pool, is_u64. simpl. repeat split; lia. }
  split; [apply initial_pool_inv, Hinit|].
  split; [apply initial_pool_tiled, Hinit|].
  simpl. repeat split; lia.
Qed.

Lemma pools_ok_pool_alloc memProps w w' pp size a obj :
  pools_ok memProps w -> pool_alloc w w' pp size a obj -> pools_ok memProps w'.
Proof.
  intros (Hlt & Hmade & Hvalid) (mp & mp' & Hp & Heq & -> & ->).
  assert (Hmp' : mp' = fst (MemoryPool_Allocate pp mp size))
    by (rewrite Heq; reflexivity).
  assert (Hobj : Pool obj = Some pp).
  { destruct (MemoryPool_Allocate_cases pp mp size)
      as [(i & block & _ & _ & _ & Hok) | (_ & Hfail)]; rewrite Heq in *;
      [inversion Hok; reflexivity | discriminate]. }
  unfold register, set_pool. simpl. split; [|split]; simpl.
  - intros q. rewrite lookup_insert. case_decide as Hd.
    + intros _. subst q. specialize (Hlt pp (ex_intro _ mp Hp)). lia.
    + intros Hq. specialize (Hlt q Hq). lia.
  - intros q Hq. rewrite lookup_insert. case_decide as Hd.
    + subst q. exists mp'. split; [reflexivity|].
      destruct (Hmade pp Hq) as (mp0 & Hp0 & Hm0). rewrite Hp in Hp0.
      inversion Hp0; subst mp0. rewrite Hmp'. apply made_pool_Allocate, Hm0.
    + apply Hmade, Hq.
  - intros k p o q Hk Ho Hq.
    assert (Hold : is_Some (poolsto w !! q) ->
                   is_Some (<[pp := mp']> (poolsto w) !! q)).
    { intros Hin. rewrite lookup_insert. case_decide; [eauto | exact Hin]. }
    rewrite lookup_insert in Ho. case_decide as Hd.
    + inversion Ho; subst o. rewrite Hobj in Hq. inversion Hq; subst q.
      rewrite lookup_insert_eq. eauto.
    + rewrite lookup_insert in Hk. case_decide as Hd2.
      * inversion Hk; subst. contradiction.
      * apply Hold. eapply Hvalid; eassumption.
Qed.

Lemma pools_ok_add_pool memProps w mp :
  pools_ok memProps w -> made_pool memProps mp ->
  pools_ok memProps (fst (add_pool w mp)).
Proof.
  intros (Hlt & Hmade & Hvalid) Hm. unfold add_pool. simpl.
  assert (Hfresh : poolsto w !! next_addr w = None).
  { destruct (poolsto w !! next_addr w) as [x|] eqn:E; [|reflexivity].
    specialize (Hlt _ (ex_intro _ x E)). lia. }
  split; [|split]; simpl.
  - intros q. rewrite lookup_insert. case_decide as Hd; [lia|].
    intros Hq. specialize (Hlt q Hq). lia.
  - intros q Hq. apply elem_of_app in Hq as [Hq|Hq].
    + destruct (Hmade q Hq) as (mp0 & Hp0 & Hm0). exists mp0.
      split; [|exact Hm0]. rewrite lookup_insert_ne; [exact Hp0|].
      intros <-. congruence.
    + apply list_elem_of_singleton in Hq. subst q. exists mp.
      split; [apply lookup_insert_eq | exact Hm].
  - intros k p o q Hk Ho Hq.
    specialize (Hvalid k p o q Hk Ho Hq). rewrite lookup_insert.
    case_decide; [eauto | exact Hvalid].
Qed.

Lemma pools_ok_register_direct memProps w obj :
  pools_ok memProps w -> Pool obj = None ->
  pools_ok memProps (fst (register w obj)).
Proof.
  intros (Hlt & Hmade & Hvalid) Hnone. unfold register. simpl.
  split; [|split]; simpl.
  - intros q Hq. specialize (Hlt q Hq). lia.
  - exact Hmade.
  - intros k p o q Hk Ho Hq. rewrite lookup_insert in Ho. case_decide as Hd.
    + inversion Ho; subst o. congruence.
    + rewrite lookup_insert in Hk. case_decide as Hd2.
      * inversion Hk; subst. contradiction.
      * eapply Hvalid; eassumption.
Qed.

Lemma pools_ok_typed_outcome memProps w size t w' r :
  0 <= t -> pools_ok memProps w ->
  typed_outcome memProps w size t w' r -> pools_ok memProps w'.
Proof.
  intros H0 Hok Hty. inversion Hty; subst; try exact Hok.
  - eapply pools_ok_pool_alloc; eassumption.
  - apply pools_ok_register_direct; [exact Hok|].
    match goal with
    | Hd : allocateDirect _ _ _ = Ok _ |- _ =>
        destruct (allocateDirect_result memProps size t) as [[_ Hr]|[_ Hr]];
        rewrite Hr in Hd; inversion Hd; reflexivity
    end.
  - eapply pools_ok_pool_alloc; [|eassumption].
    apply pools_ok_add_pool; [exact Hok|]. eapply createPool_made; eassumption.
  - apply pools_ok_add_pool; [exact Hok|]. eapply createPool_made; eassumption.
Qed.

Lemma outcome_pools_ok memProps w requirements createInfo w' r :
  pools_ok memProps w ->
  outcome memProps w requirements createInfo w' r -> pools_ok memProps w'.
Proof.
  intros Hok Ho. inversion Ho; subst; try exact Hok.
  - eapply pools_ok_pool_alloc; eassumption.
  - eapply pools_ok_typed_outcome; [|exact Hok | eassumption].
    match goal with
    | Hf : findMemoryType _ _ _ = Ok _ |- _ =>
        apply findMemoryType_index_range in Hf; lia
    end.
Qed.

Lemma MemoryAllocator_Allocate_pools_ok memProps w requirements createInfo :
  pools_ok memProps w ->
  pools_ok memProps (fst (MemoryAllocator_Allocate memProps w requirements createInfo)).
Proof.
  intros Hok. eapply outcome_pools_ok; [exact Hok|].
  apply MemoryAllocator_Allocate_outcome.
Qed.

Lemma MemoryAllocator_Free_pools_ok memProps w allocation :
  pools_ok memProps w -> pools_ok memProps (fst (MemoryAllocator_Free w allocation)).
Proof.
  intros Hok. unfold MemoryAllocator_Free, freeAllocationUnsafe.
  destruct allocation as [a|]; [|exact Hok].
  destruct (allocs w !! a) as [obj|] eqn:Ha;
    [|unfold MemoryAllocator_Unmap; rewrite Ha; exact Hok].
  destruct (MemoryAllocator_Unmap_valid w a obj Ha)
    as (w1 & -> & Ha1 & Hother & Hp & Hn & Hma & _).
  assert (Hobjs : forall p o pp, allocs w1 !! p = Some o -> Pool o = Some pp ->
            exists o0, allocs w !! p = Some o0 /\ Pool o0 = Some pp).
  { intros p o pp Ho Hpp. destruct (Z.eq_dec p a) as [->|Hne].
    - rewrite Ha1 in Ho. inversion Ho; subst o. exists obj. split; [exact Ha | exact Hpp].
    - rewrite (Hother p Hne) in Ho. eauto. }
  assert (Hok1 : pools_ok memProps w1).
  { destruct Hok as (Hlt & Hmade & Hvalid). split; [|split].
    - rewrite Hp, Hn. exact Hlt.
    - rewrite Hp, Hma. exact Hmade.
    - rewrite Hp, Hma. intros k p o pp Hk Ho Hpp.
      destruct (Hobjs p o pp Ho Hpp) as (o0 & Ho0 & Hpp0).
      eapply Hvalid; eassumption. }
  rewrite Ha1.
  destruct (allocations (ma w1) !! a) as [p|] eqn:Et; [|exact Hok1].
  cbn zeta. set (w2 := mkWorld _ _ _ _).
  assert (Hok2 : pools_ok memProps w2).
  { destruct Hok1 as (Hlt & Hmade & Hvalid). split; [|split]; simpl.
    - exact Hlt.
    - exact Hmade.
    - intros k q o pp Hk Ho Hpp. apply lookup_delete_Some in Hk as [_ Hk].
      eapply Hvalid; eassumption. }
  destruct (Pool (set_mapped obj None)) as [pp|]; [|exact Hok2].
  unfold free_in_pool. destruct (poolsto w2 !! pp) as [mp|] eqn:Epp; [|exact Hok2].
  destruct (MemoryPool_Free mp (Some (set_mapped obj None))) as [mp' r] eqn:Ef.
  cbn [fst].
  assert (Hmp' : mp' = fst (MemoryPool_Free mp (Some (set_mapped obj None))))
    by (rewrite Ef; reflexivity).
  destruct Hok2 as (Hlt & Hmade & Hvalid). unfold set_pool. split; [|split]; simpl.
  - intros q. rewrite lookup_insert. case_decide as Hd; [|apply Hlt].
    intros _. subst q. apply Hlt. simpl. eauto.
  - intros q Hq. rewrite lookup_insert. case_decide as Hd; [|apply Hmade, Hq].
    subst q. exists mp'. split; [reflexivity|].
    destruct (Hmade pp Hq) as (mp0 & Hp0 & Hm0). simpl in Hp0, Epp.
    rewrite Epp in Hp0. inversion Hp0; subst mp0.
    rewrite Hmp'. apply made_pool_Free, Hm0.
  - intros k q o pp' Hk Ho Hpp.
    specialize (Hvalid k q o pp' Hk Ho Hpp). simpl in Hvalid.
    rewrite lookup_insert. case_decide; [eauto | exact Hvalid].
Qed.

Lemma new_world_pools_ok memProps w : new_world w -> pools_ok memProps w.
Proof.
  intros (Hma & _ & Hp). unfold pools_ok. rewrite Hma. simpl.
  split; [exact Hp|]. split.
  - intros pp Hin. apply elem_of_nil in Hin. contradiction.
  - intros k p obj pp Hk. rewrite lookup_empty in Hk. discriminate.
Qed.

Lemma reachable_pools_ok memProps w : reachable memProps w -> pools_ok memProps w.
Proof.
  induction 1 as [w Hnew | w requirements createInfo _ IH | w allocation _ IH].
  - apply new_world_pools_ok, Hnew.
  - apply MemoryAllocator_Allocate_pools_ok, IH.
  - apply MemoryAllocator_Free_pools_ok, IH.
Qed.

(** The pools of the allocator stay sound. In every state reached from a
    new allocator, each pool of the allocator is a 256 MiB pool of 64 KiB
    blocks whose type index is a memory type of the device and whose
    property flags are that type's; its blocks tile its arena and its free
    and used bytes add up to its Size. *)
Theorem allocator_pools_stay_sound memProps w pp :
  reachable memProps w -> pp ∈ pools (ma w) ->
  exists mp,
    poolsto w !! pp = Some mp /\
    pSize mp = 256 * 1024 * 1024 /\ BlockSize mp = 64 * 1024 /\
    0 <= pTypeIndex mp < 32 /\
    pProperties mp = flags_of_type memProps (pTypeIndex mp) /\
    sum_sizes (FreeBlocks mp) + sum_sizes (UsedBlocks mp) = pSize mp /\
    (forall x, 0 <= x < pSize mp -> covering x (all_blocks mp) = 1%nat).
Proof.
  intros Hr Hin. destruct (reachable_pools_ok memProps w Hr) as (_ & Hmade & _).
  destruct (Hmade pp Hin)
    as (mp & Hp & (_ & _ & _ & Hsum) & (_ & _ & Hcov) & Hs & Hb & Ht & Hpr).
  exists mp. repeat split; try assumption; apply Ht.
Qed.

Lemma allocator_pools_stay_sound_witness :
  reachable example_device two_small /\ 1 ∈ pools (ma two_small) /\
  exists mp, poolsto two_small !! 1 = Some mp /\ pSize mp = 256 * 1024 * 1024.
Proof.
  assert (H : reachable example_device two_small)
    by (apply ma_run_reachable, reachable_new, empty_world_new).
  assert (Hin : 1 ∈ pools (ma two_small))
    by (change (1 ∈ [1]); apply list_elem_of_singleton; reflexivity).
  split; [exact H|]. split; [exact Hin|].
  destruct (allocator_pools_stay_sound example_device two_small 1 H Hin)
    as (mp & Hp & Hs & _).
  exists mp. split; assumption.
Defined.

Lemma findMemoryType_not_Panic memProps requirements createInfo :
  findMemoryType memProps requirements createInfo <> Panic.
Proof.
  unfold findMemoryType. rewrite usage_flags_table.
  set (n := Z.to_nat (MemoryTypeCount memProps)).
  assert (Hn : forall i, 0 <= i < 0 + Z.of_nat n -> 0 <= i < MemoryTypeCount memProps)
    by (intros i; unfold n; lia).
  destruct (scan_types_smallest
              (first_pass_test memProps (MemoryTypeBits requirements)
                 (required_of createInfo) (preferred_of createInfo))
              (suitable memProps requirements
                 [required_of createInfo; preferred_of createInfo]) n 0)
    as [(i & -> & _) | (-> & _)];
    [intros i Hi; apply first_pass_test_decides, Hn, Hi | discriminate |].
  destruct (scan_types_smallest
              (second_pass_test memProps (MemoryTypeBits requirements)
                 (required_of createInfo))
              (suitable memProps requirements [required_of createInfo]) n 0)
    as [(i & -> & _) | (-> & _)];
    [intros i Hi; apply second_pass_test_decides, Hn, Hi | discriminate..].
Qed.

(** Allocate does not panic. In every state reached from a new allocator,
    a call of Allocate whose explicit pool, if any, is a valid pool pointer
    returns an allocation or an error: no pool pointer it follows is
    invalid and no memory-type index is out of the array. *)
Theorem Allocate_does_not_panic memProps w requirements createInfo :
  reachable memProps w ->
  (forall pp, ciPool createInfo = Some pp -> is_Some (poolsto w !! pp)) ->
  snd (MemoryAllocator_Allocate memProps w requirements createInfo) <> Panic.
Proof.
  intros Hr Hexp Hpanic.
  destruct (reachable_pools_ok memProps w Hr) as (_ & Hmade & _).
  pose proof (MemoryAllocator_Allocate_outcome memProps w requirements createInfo) as Ho.
  destruct (MemoryAllocator_Allocate memProps w requirements createInfo) as [w' r0].
  cbn [fst snd] in Ho, Hpanic. subst r0.
  inversion Ho as [| | pp _ Hci Hnone | _ Hf | | t w1 r _ _ Hf Hty]; subst.
  - destruct (Hexp pp Hci) as [mp Hmp]. congruence.
  - eapply findMemoryType_not_Panic, Hf.
  - inversion Hty as [| | | | pp Hin Hnone | Hrange]; subst.
    + destruct (Hmade pp Hin) as (mp & Hmp & _). congruence.
    + apply findMemoryType_index_range in Hf. lia.
Qed.

Lemma Allocate_does_not_panic_witness :
  reachable example_device two_small /\
  (forall pp, ciPool (mkCreateInfo MemoryUsageGPUOnly 0 0 (Some 1)) = Some pp ->
              is_Some (poolsto two_small !! pp)) /\
  snd (MemoryAllocator_Allocate example_device two_small small_request
         (mkCreateInfo MemoryUsageGPUOnly 0 0 (Some 1))) <> Panic.
Proof.
  assert (H : reachable example_device two_small)
    by (apply ma_run_reachable, reachable_new, empty_world_new).
  assert (Hp : forall pp,
            ciPool (mkCreateInfo MemoryUsageGPUOnly 0 0 (Some 1)) = Some pp ->
            is_Some (poolsto two_small !! pp)).
  { intros pp [= <-]. eexists. vm_compute. reflexivity. }
  split; [exact H|]. split; [exact Hp|].
  exact (Allocate_does_not_panic example_device two_small small_request _ H Hp).
Defined.

(** Free does not panic either, and has three outcomes. In every state
    reached from a new allocator, Free of a valid allocation pointer returns
    success, the not-found-in-allocator error or the pool's not-found
    error. *)
Theorem Free_has_three_outcomes memProps w a :
  reachable memProps w -> is_Some (allocs w !! a) ->
  snd (MemoryAllocator_Free w (Some a)) = Ok tt \/
  snd (MemoryAllocator_Free w (Some a)) = Err ErrNotFoundInAllocator \/
  snd (MemoryAllocator_Free w (Some a)) = Err ErrNotFoundInPool.
Proof.
  intros Hr [obj Ha].
  destruct (reachable_pools_ok memProps w Hr) as (_ & _ & Hvalid).
  destruct (reachable_table_ok memProps w Hr) as [(Hk & _) _].
  unfold MemoryAllocator_Free, freeAllocationUnsafe.
  destruct (MemoryAllocator_Unmap_valid w a obj Ha)
    as (w1 & -> & Ha1 & _ & Hp & _ & Hma & _).
  rewrite Ha1, Hma.
  destruct (allocations (ma w) !! a) as [p|] eqn:Et; [|right; left; reflexivity].
  cbn zeta. change (Pool (set_mapped obj None)) with (Pool obj).
  destruct (Pool obj) as [pp|] eqn:Epp; [|left; reflexivity].
  destruct (Hk a p Et) as [-> _].
  destruct (Hvalid a a obj pp Et Ha Epp) as [mp Hmp].
  unfold free_in_pool. cbn [poolsto]. rewrite Hp, Hmp.
  unfold MemoryPool_Free.
  destruct (first_offset_zero (UsedBlocks mp) 0) as [[i b]|];
    [left | right; right]; reflexivity.
Qed.

Lemma Free_has_three_outcomes_witness :
  reachable example_device two_small /\ is_Some (allocs two_small !! 3) /\
  (snd (MemoryAllocator_Free two_small (Some 3)) = Ok tt \/
   snd (MemoryAllocator_Free two_small (Some 3)) = Err ErrNotFoundInAllocator \/
   snd (MemoryAllocator_Free two_small (Some 3)) = Err ErrNotFoundInPool).
Proof.
  assert (H : reachable example_device two_small)
    by (apply ma_run_reachable, reachable_new, empty_world_new).
  assert (Ha : is_Some (allocs two_small !! 3))
    by (eexists; vm_compute; reflexivity).
  split; [exact H|]. split; [exact Ha|].
  exact (Free_has_three_outcomes example_device two_small 3 H Ha).
Defined.

(** ** MemoryAllocator.GetStats *)

Lemma pool_stats_loop_made memProps w ps acc :
  (forall pp, pp ∈ ps -> exists mp, poolsto w !! pp = Some mp /\ made_pool memProps mp) ->
  exists l,
    pool_stats_loop w ps acc = Ok (acc ++ l) /\ length l = length ps /\
    Forall (fun s => TotalSize s = 256 * 1024 * 1024 /\
                     UsedSize s + FreeSize s = TotalSize s /\
                     0 <= UsedSize s /\ 0 <= FreeSize s /\
                     0 <= sTypeIndex s < 32) l.
Proof.
  revert acc. induction ps as [|pp rest IH]; intros acc Hall; simpl.
  - exists []. rewrite app_nil_r. repeat split. constructor.
  - destruct (Hall pp ltac:(apply elem_of_cons; auto)) as (mp & Hp & Hm).
    rewrite Hp.
    destruct (IH (acc ++ [MemoryPool_GetStats mp])) as (l & Hl & Hlen & Hfor).
    { intros q Hq. apply Hall, elem_of_cons. auto. }
    exists (MemoryPool_GetStats mp :: l). rewrite Hl, <- app_assoc.
    split; [reflexivity|]. split; [simpl; lia|].
    constructor; [|exact Hfor].
    destruct Hm as (Hinv & _ & Hs & _ & Ht & _).
    destruct (GetStats_sums mp Hinv) as [Hu Hf].
    destruct Hinv as (_ & Hfn & Hun & Hsum).
    pose proof (sum_sizes_nonneg _ Hfn). pose proof (sum_sizes_nonneg _ Hun).
    rewrite Hu, Hf. simpl. repeat split; lia.
Qed.

(** GetStats of the allocator, in every state reached from a new
    allocator: it does not fail; AllocationCount is the number of table
    entries and at most MaxAllocations = 4096; TotalAllocated is the sum of
    the tracked sizes modulo 2^64; and there is one PoolStats per pool, each
    with TotalSize 256 MiB split exactly into UsedSize and FreeSize. *)
Theorem GetStats_reports_the_bookkeeping memProps w :
  reachable memProps w ->
  exists stats,
    MemoryAllocator_GetStats w = Ok stats /\
    AllocationCount stats = Z.of_nat (size (allocations (ma w))) /\
    AllocationCount stats <= MaxAllocations stats /\ MaxAllocations stats = 4096 /\
    TotalAllocated stats = wrap64 (table_sum w) /\
    length (PoolStatsList stats) = length (pools (ma w)) /\
    Forall (fun s => TotalSize s = 256 * 1024 * 1024 /\
                     UsedSize s + FreeSize s = TotalSize s /\
                     0 <= UsedSize s /\ 0 <= FreeSize s /\
                     0 <= sTypeIndex s < 32) (PoolStatsList stats).
Proof.
  intros Hr.
  destruct (reachable_table_ok memProps w Hr) as [(_ & _ & Ht & Hm) Hsz].
  destruct (reachable_pools_ok memProps w Hr) as (_ & Hmade & _).
  destruct (pool_stats_loop_made memProps w (pools (ma w)) [] Hmade)
    as (l & Hl & Hlen & Hfor).
  unfold MemoryAllocator_GetStats. rewrite Hl. simpl.
  eexists. split; [reflexivity|]. simpl.
  rewrite table_count_u32 by exact Hsz.
  repeat split; try assumption; lia.
Qed.

Lemma GetStats_reports_the_bookkeeping_witness :
  reachable example_device two_small /\
  exists stats,
    MemoryAllocator_GetStats two_small = Ok stats /\
    AllocationCount stats = Z.of_nat (size (allocations (ma two_small))).
Proof.
  assert (H : reachable example_device two_small)
    by (apply ma_run_reachable, reachable_new, empty_world_new).
  split; [exact H|].
  destruct (GetStats_reports_the_bookkeeping example_device two_small H)
    as (stats & H1 & H2 & _).
  exists stats. split; assumption.
Defined.

(** ** PhysicalDevice.FindMemoryType *)

Lemma superset_lor f a b :
  superset f (Z.lor a b) <-> superset f a /\ superset f b.
Proof.
  unfold superset. split.
  - intros H. split; intros n Hn Hb; apply H; try exact Hn;
      rewrite Z.lor_spec, Hb; [reflexivity | apply orb_true_r].
  - intros [Ha Hb] n Hn Hab. rewrite Z.lor_spec in Hab.
    apply orb_true_iff in Hab as [H|H]; [apply Ha | apply Hb]; assumption.
Qed.

Lemma has_flags_lor f a b :
  has_flags f (Z.lor a b) = has_flags f a && has_flags f b.
Proof.
  apply eq_true_iff_eq. rewrite andb_true_iff, !has_flags_superset.
  apply superset_lor.
Qed.

Lemma scan_types_ext test1 test2 n i0 :
  (forall i, test1 i = test2 i) -> scan_types test1 n i0 = scan_types test2 n i0.
Proof.
  intros H. revert i0. induction n as [|n IH]; intros i0; simpl; [reflexivity|].
  rewrite H. destruct (test2 i0) as [[|]| |]; auto.
Qed.

(** FindMemoryType returns the smallest memory type of the device that the
    type filter allows and whose flags contain the properties, with true;
    and (0, false) when there is none. It never reads past the array. *)
Theorem FindMemoryType_finds_the_smallest memProps typeFilter properties :
  let fits := suitable memProps (mkRequirements 0 0 typeFilter) [properties] in
  match FindMemoryType memProps typeFilter properties with
  | Ok (i, true) => smallest fits i
  | Ok (i, false) => i = 0 /\ forall j, ~ fits j
  | _ => False
  end.
Proof.
  intros fits. unfold FindMemoryType.
  set (n := Z.to_nat (MemoryTypeCount memProps)).
  assert (Hn : forall i, 0 <= i < 0 + Z.of_nat n <-> 0 <= i < MemoryTypeCount memProps)
    by (intros i; unfold n; lia).
  change (FindMemoryType_test memProps typeFilter properties)
    with (second_pass_test memProps
            (MemoryTypeBits (mkRequirements 0 0 typeFilter)) properties).
  destruct (scan_types_smallest
              (second_pass_test memProps
                 (MemoryTypeBits (mkRequirements 0 0 typeFilter)) properties)
              fits n 0) as [(i & -> & Hr & HP & Hmin) | (-> & Hnone)].
  - intros i Hi. apply second_pass_test_decides, Hn, Hi.
  - split; [exact HP|]. intros j Hj.
    destruct (Z_lt_le_dec j i) as [Hlt|]; [|lia].
    exfalso. apply (Hmin j); [destruct Hj; lia | exact Hj].
  - split; [reflexivity|]. intros j Hj. apply (Hnone j); [apply Hn, Hj | exact Hj].
Qed.

(** The allocator's resolution is two calls of the device's FindMemoryType:
    first with the required and preferred flags together, then, if that
    finds nothing, with the required flags alone. *)
Theorem findMemoryType_is_two_FindMemoryType_calls memProps requirements createInfo :
  findMemoryType memProps requirements createInfo
  = match FindMemoryType memProps (MemoryTypeBits requirements)
            (Z.lor (required_of createInfo) (preferred_of createInfo)) with
    | Ok (i, true) => Ok i
    | Ok (_, false) =>
        match FindMemoryType memProps (MemoryTypeBits requirements)
                (required_of createInfo) with
        | Ok (i, true) => Ok i
        | Ok (_, false) => Err ErrNoSuitableMemoryType
        | Err e => Err e
        | Panic => Panic
        end
    | Err e => Err e
    | Panic => Panic
    end.
Proof.
  unfold findMemoryType, FindMemoryType. rewrite usage_flags_table.
  rewrite (scan_types_ext
             (first_pass_test memProps (MemoryTypeBits requirements)
                (required_of createInfo) (preferred_of createInfo))
             (FindMemoryType_test memProps (MemoryTypeBits requirements)
                (Z.lor (required_of createInfo) (preferred_of createInfo)))).
  2:{ intros i. unfold first_pass_test, FindMemoryType_test.
      destruct (type_bit_set _ i); [|reflexivity].
      destruct (MemoryTypes_at memProps i); try reflexivity.
      rewrite has_flags_lor. reflexivity. }
  change (second_pass_test memProps (MemoryTypeBits requirements)
            (required_of createInfo))
    with (FindMemoryType_test memProps (MemoryTypeBits requirements)
            (required_of createInfo)).
  destruct (scan_types _ _ 0) as [[i|]|e|]; try reflexivity.
  destruct (scan_types _ _ 0) as [[i|]|e|]; reflexivity.
Qed.

(** ** MemoryAllocator.Destroy *)






Lemma destroy_pools_ma ps : forall w,
  ma (fst (destroy_pools w ps)) = ma w.
Proof.
  induction ps as [|pp rest IH]; intros w; simpl; [reflexivity|].
  destruct (poolsto w !! pp) as [mp|]; [|reflexivity].
  rewrite IH. reflexivity.
Qed.

(** Destroy is idempotent: a second Destroy after one that ended normally
    ends normally too and changes nothing. *)
Theorem Destroy_twice_changes_nothing w w' :
  MemoryAllocator_Destroy w = (w', Ok tt) ->
  MemoryAllocator_Destroy w' = (w', Ok tt).
Proof.
  unfold MemoryAllocator_Destroy.
  destruct (free_all w (map_to_list (allocations (ma w)))) as [w1 [u|e|]];
    try discriminate.
  cbn zeta.
  destruct (destroy_pools _ _) as [w3 [u3|e3|]] eqn:Ed; try discriminate.
  intros [= <-].
  assert (Htab : allocations (ma w3) = ∅).
  { pose proof (destroy_pools_ma (pools (ma w1))
                  (mkWorld (allocs w1) (poolsto w1) (next_addr w1)
                     (mkAllocator ∅ (pools (ma w1)) (totalAllocated (ma w1))
                        (maxAllocations (ma w1))))) as Hm.
    cbn [ma pools] in Ed. rewrite Ed in Hm. cbn [fst] in Hm. rewrite Hm. reflexivity. }
  cbn [ma allocations allocs poolsto next_addr pools totalAllocated maxAllocations].
  rewrite Htab, map_to_list_empty. reflexivity.
Qed.

Lemma Destroy_twice_changes_nothing_witness :
  MemoryAllocator_Destroy two_small
  = (fst (MemoryAllocator_Destroy two_small), Ok tt) /\
  MemoryAllocator_Destroy (fst (MemoryAllocator_Destroy two_small))
  = (fst (MemoryAllocator_Destroy two_small), Ok tt).
Proof.
  assert (H : MemoryAllocator_Destroy two_small
              = (fst (MemoryAllocator_Destroy two_small), Ok tt))
    by (vm_compute; reflexivity).
  split; [exact H|].
  exact (Destroy_twice_changes_nothing two_small _ H).
Defined.
